(** * simple_maze: maze generation, A* search and solvability mutation

    A shallow embedding of [squared_maze/solver.py] and
    [squared_maze/generator.py], of [grid_to_ascii] and the box arithmetic
    of [save_images] in [simple_maze/render.py], and of the search that
    [main.py] runs; the properties of the specification that were checked
    against it, and further properties of the code.

    Conventions of the embedding.
    - Python [int] is [Z]; a coordinate is a pair of [Z]; a grid is a list of
      rows, each a list of [Z] (1 walkable, 0 wall).  Rows are distinct list
      objects, as [_make_grid] builds them.
    - Indexing follows Python: a negative index counts from the end, an index
      out of range raises [IndexError].
    - A computation returns a value, raises, or (for the loops that Python
      writes as [while] or as recursion) runs out of the fuel the embedding
      gives it; the totality lemmas show that the fuel is never exhausted.
      The limits of the interpreter (memory, the depth of the call stack)
      are not part of the embedding.
    - [dict] is [gmap], [set] is [gset], and the [heapq] priority queue is a
      bag of tuples whose [heappop] removes the least tuple in Python's
      lexicographic tuple order, which is what a binary heap over a total
      order returns.
    - [random.Random] is an abstract generator whose [shuffle] returns some
      permutation of its argument and the next generator state, and whose
      [choice] returns the element at an index below the length.
    - A [str] is the list of its code points.
    - [save_images] draws through Pillow and writes files; only the
      arithmetic of its image size and cell boxes is embedded. *)

From stdpp Require Import gmap list.
From Stdlib Require Import ZArith Lia.

Local Open Scope Z_scope.
Set Warnings "-clear-no-such-hyp".

(** ** Outcomes of a Python computation *)

Inductive exn : Type := IndexError | KeyError | ValueError.

Inductive res (A : Type) : Type :=
| Return (a : A)
| Raise (e : exn)
| OutOfFuel.

Arguments Return {A} a.
Arguments Raise {A} e.
Arguments OutOfFuel {A}.

#[global] Instance res_bind : MBind res := λ A B k m,
  match m with
  | Return a => k a
  | Raise e => Raise e
  | OutOfFuel => OutOfFuel
  end.

#[global] Instance exn_eq_dec : EqDecision exn.
Proof. solve_decision. Defined.

#[global] Instance res_eq_dec {A : Type} `{EqDecision A} : EqDecision (res A).
Proof. solve_decision. Defined.

(** ** Python lists *)

(** [norm_index n i] is the position that index [i] denotes in a list of
    length [n], if any. *)
Definition norm_index (n : nat) (i : Z) : option nat :=
  if bool_decide (0 <= i < Z.of_nat n) then Some (Z.to_nat i)
  else if bool_decide (- Z.of_nat n <= i < 0) then Some (Z.to_nat (Z.of_nat n + i))
  else None.

(** [l[i]] *)
Definition getitem {A : Type} (l : list A) (i : Z) : res A :=
  match norm_index (length l) i with
  | Some k => match l !! k with Some x => Return x | None => Raise IndexError end
  | None => Raise IndexError
  end.

(** [l[i] = x] *)
Definition setitem {A : Type} (l : list A) (i : Z) (x : A) : res (list A) :=
  match norm_index (length l) i with
  | Some k => Return (<[k:=x]> l)
  | None => Raise IndexError
  end.

(** ** Grids and coordinates *)

Abbreviation Coord := (Z * Z)%type.
Abbreviation Grid := (list (list Z)).
Abbreviation Path := (list Coord).

(** [grid[r][c]] *)
Definition cell (grid : Grid) (p : Coord) : res Z :=
  row ← getitem grid p.1; getitem row p.2.

(** [grid[r][c] = v] *)
Definition set_cell (grid : Grid) (p : Coord) (v : Z) : res Grid :=
  row ← getitem grid p.1;
  row' ← setitem row p.2 v;
  setitem grid p.1 row'.

(** ** solver.py *)

Definition deltas4 : list (Z * Z) := [(0, 1); (1, 0); (0, -1); (-1, 0)].

(** The body of the [for dr, dc in ...] loop of [_neighbors]. *)
Fixpoint neighbors_loop (grid : Grid) (rows cols : Z) (node : Coord)
    (ds : list (Z * Z)) (nbrs : list Coord) : res (list Coord) :=
  match ds with
  | [] => Return nbrs
  | (dr, dc) :: ds' =>
      let nr := node.1 + dr in
      let nc := node.2 + dc in
      if bool_decide (0 <= nr < rows) && bool_decide (0 <= nc < cols) then
        v ← cell grid (nr, nc);
        if bool_decide (v = 1)
        then neighbors_loop grid rows cols node ds' (nbrs ++ [(nr, nc)])
        else neighbors_loop grid rows cols node ds' nbrs
      else neighbors_loop grid rows cols node ds' nbrs
  end.

Definition _neighbors (grid : Grid) (node : Coord) : res (list Coord) :=
  let rows := Z.of_nat (length grid) in
  row0 ← getitem grid 0;
  let cols := Z.of_nat (length row0) in
  neighbors_loop grid rows cols node deltas4 [].

Definition _heuristic (a b : Coord) : Z :=
  Z.abs (a.1 - b.1) + Z.abs (a.2 - b.2).

(** *** The priority queue *)

Abbreviation entry := (Z * Coord)%type.

(** Python's [<] on tuples [(f, (r, c))]. *)
Definition entry_ltb (x y : entry) : bool :=
  if bool_decide (x.1 = y.1) then
    if bool_decide (x.2.1 = y.2.1) then bool_decide (x.2.2 < y.2.2)
    else bool_decide (x.2.1 < y.2.1)
  else bool_decide (x.1 < y.1).

Fixpoint heap_least (x : entry) (h : list entry) : entry :=
  match h with
  | [] => x
  | y :: h' => heap_least (if entry_ltb y x then y else x) h'
  end.

Fixpoint remove_one (x : entry) (h : list entry) : list entry :=
  match h with
  | [] => []
  | y :: h' => if decide (x = y) then h' else y :: remove_one x h'
  end.

Definition heappush (h : list entry) (x : entry) : list entry := x :: h.

(** [None] on the empty queue, which [astar] never pops. *)
Definition heappop (h : list entry) : option (entry * list entry) :=
  match h with
  | [] => None
  | x :: h' => let m := heap_least x h' in Some (m, remove_one m h)
  end.

(** *** The search state *)

Record astar_state : Type := AstarState {
  open_set : list entry;
  came_from : gmap Coord Coord;
  gscore : gmap Coord Z;
  fscore : gmap Coord Z;
  closed : gset Coord
}.

(** The default of [gscore.get(nbr, 1_000_000)]. *)
Definition unreached : Z := 1000000.

(** The body of [for nbr in _neighbors(grid, current)]. *)
Definition relax (goal current : Coord) (st : astar_state) (nbr : Coord)
    : res astar_state :=
  if decide (nbr ∈ closed st) then Return st
  else
    match gscore st !! current with
    | None => Raise KeyError
    | Some gc =>
        let tentative_g := gc + 1 in
        if bool_decide (tentative_g < default unreached (gscore st !! nbr)) then
          let f := tentative_g + _heuristic nbr goal in
          Return {| open_set := heappush (open_set st) (f, nbr);
                    came_from := <[nbr := current]> (came_from st);
                    gscore := <[nbr := tentative_g]> (gscore st);
                    fscore := <[nbr := f]> (fscore st);
                    closed := closed st |}
        else Return st
    end.

Fixpoint relax_all (goal current : Coord) (st : astar_state)
    (nbrs : list Coord) : res astar_state :=
  match nbrs with
  | [] => Return st
  | nbr :: nbrs' =>
      st' ← relax goal current st nbr; relax_all goal current st' nbrs'
  end.

(** [while path[-1] != start: path.append(came_from[path[-1]])] *)
Fixpoint walk_back (fuel : nat) (cf : gmap Coord Coord) (start : Coord)
    (path : list Coord) : res (list Coord) :=
  match fuel with
  | O => OutOfFuel
  | S fuel' =>
      match last path with
      | None => Raise IndexError
      | Some x =>
          if decide (x = start) then Return path
          else match cf !! x with
               | None => Raise KeyError
               | Some p => walk_back fuel' cf start (path ++ [p])
               end
      end
  end.

(** [while open_set: ...] *)
Fixpoint astar_loop (fuel : nat) (grid : Grid) (start goal : Coord)
    (st : astar_state) : res (option Path) :=
  match fuel with
  | O => OutOfFuel
  | S fuel' =>
      match heappop (open_set st) with
      | None => Return None
      | Some ((_, current), rest) =>
          if decide (current = goal) then
            path ← walk_back (S (size (came_from st))) (came_from st) start [current];
            Return (Some (reverse path))
          else
            let st1 := {| open_set := rest;
                          came_from := came_from st;
                          gscore := gscore st;
                          fscore := fscore st;
                          closed := {[current]} ∪ closed st |} in
            nbrs ← _neighbors grid current;
            st2 ← relax_all goal current st1 nbrs;
            astar_loop fuel' grid start goal st2
      end
  end.

Definition astar_init (start goal : Coord) : astar_state :=
  {| open_set := heappush [] (0, start);
     came_from := ∅;
     gscore := {[start := 0]};
     fscore := {[start := _heuristic start goal]};
     closed := ∅ |}.

(** Width as [_neighbors] reads it: [len(grid[0])]. *)
Definition width (grid : Grid) : nat := length (hd [] grid).

(** The coordinates [(r, c) for r in range(len(grid)) for c in
    range(len(grid[0]))], in that order. *)
Definition cells (grid : Grid) : list Coord :=
  flat_map (λ r, map (λ c, (r, c)) (seqZ 0 (Z.of_nat (width grid))))
           (seqZ 0 (Z.of_nat (length grid))).

(** Enough iterations for the [while] loop: every pop either closes a new
    cell, which pays for at most four pushes, or pushes nothing. *)
Definition astar_fuel (grid : Grid) : nat :=
  S (S (4 * S (length grid * width grid))).

Definition astar (grid : Grid) (start goal : Coord) : res (option Path) :=
  vs ← cell grid start;
  if bool_decide (vs ≠ 1) then Return None
  else
    vg ← cell grid goal;
    if bool_decide (vg ≠ 1) then Return None
    else astar_loop (astar_fuel grid) grid start goal (astar_init start goal).

(** ** random.Random *)

(** A pseudo-random generator: [Random_seed s] is the state of
    [random.Random(s)], and [shuffle] returns the shuffled list together
    with the next state.  All that is assumed of [shuffle] is that it
    permutes its argument. *)
Record Random : Type := {
  rng : Type;
  Random_seed : Z → rng;
  shuffle : ∀ A : Type, rng → list A → list A * rng;
  shuffle_perm : ∀ (A : Type) (g : rng) (x : list A), (shuffle A g x).1 ≡ₚ x
}.

Arguments shuffle _ {A} _ _.

(** [random.Random(seed)]: with [seed=None] the state comes from the
    operating system, here the argument [entropy]. *)
Definition Random_new (R : Random) (seed : option Z) (entropy : rng R) : rng R :=
  match seed with
  | Some s => Random_seed R s
  | None => entropy
  end.

(** *** A generator that replays a list of draws

    [random.shuffle] is the Fisher-Yates loop
    [for i in reversed(range(1, len(x))): j = randbelow(i + 1);
     x[i], x[j] = x[j], x[i]]; the state of the replaying generator is the
    list of the values [randbelow] is still to return. *)

Definition swap {A : Type} (x : list A) (i j : nat) : list A :=
  match x !! i, x !! j with
  | Some a, Some b => <[j := a]> (<[i := b]> x)
  | _, _ => x
  end.

Fixpoint fisher_yates {A : Type} (n : nat) (draws : list nat) (x : list A)
    : list A * list nat :=
  match n with
  | O => (x, draws)
  | S n' =>
      let j := (hd O draws mod S n)%nat in
      fisher_yates n' (tl draws) (swap x n j)
  end.

Definition replay_shuffle (A : Type) (draws : list nat) (x : list A)
    : list A * list nat :=
  fisher_yates (length x - 1) draws x.

(** The Fisher-Yates loop permutes its argument. *)

Lemma swap_perm {A} (x : list A) i j : swap x i j ≡ₚ x.
Proof.
  unfold swap. destruct (x !! i) as [a|] eqn:Hi; [|done].
  destruct (x !! j) as [b|] eqn:Hj; [|done].
  by apply Permutation_insert_swap.
Qed.

Lemma fisher_yates_perm {A} n draws (x : list A) :
  (fisher_yates n draws x).1 ≡ₚ x.
Proof.
  revert draws x. induction n as [|n IH]; intros draws x; simpl; [done|].
  rewrite IH. apply swap_perm.
Qed.

(** The generator whose shuffles replay the draws in its state; a seed
    selects the list of draws through [table]. *)
Definition replay (table : Z → list nat) : Random :=
  {| rng := list nat;
     Random_seed := table;
     shuffle := replay_shuffle;
     shuffle_perm := λ A g x, fisher_yates_perm (length x - 1) g x |}.

(** The values that [randbelow] returns during the five shuffles of
    [generate_maze(2, 3, seed=1)] under CPython's Mersenne Twister. *)
Definition draws_seed_1 : list nat :=
  [1; 2; 0; 2; 0; 1; 3; 1; 1; 1; 0; 1; 0; 1; 1]%nat.

(** A generator that behaves as CPython's for the seed 1. *)
Definition replay_seed_1 : Random :=
  replay (λ seed, if bool_decide (seed = 1) then draws_seed_1 else []).

(** The maze that [generate_maze(2, 3, seed=1)] returns. *)
Definition maze_2_3_seed_1 : Grid :=
  [[0; 0; 0; 0; 0; 0; 0];
   [0; 1; 1; 1; 0; 1; 0];
   [0; 0; 0; 1; 0; 1; 0];
   [0; 0; 0; 1; 1; 1; 0];
   [0; 0; 0; 0; 0; 0; 0]].

(** Room cells have two odd coordinates; the other cells are walls. *)
Definition is_room (p : Coord) : bool := Z.odd p.1 && Z.odd p.2.

(** The number of wall cells that hold 1. *)
Definition opened_walls (grid : Grid) : nat :=
  length (List.filter
            (λ p, match cell grid p with
                  | Return 1 => negb (is_room p)
                  | _ => false
                  end)
            (cells grid)).

(** ** generator.py *)

Definition _make_grid (rows cols : Z) : Grid :=
  let height := 2 * rows + 1 in
  let width := 2 * cols + 1 in
  replicate (Z.to_nat height) (replicate (Z.to_nat width) 0).

Definition to_grid (rc : Coord) : Coord := (2 * rc.1 + 1, 2 * rc.2 + 1).

(** The variables that the closure [carve] shares with [generate_maze] and
    with every one of its own recursive calls: [rng], the list [deltas]
    (shuffled in place), [visited] and [grid]. *)
Record carve_state (R : Random) : Type := CarveState {
  cs_rng : rng R;
  cs_deltas : list (Z * Z);
  cs_visited : list (list bool);
  cs_grid : Grid
}.

Arguments CarveState {R}.
Arguments cs_rng {R}.
Arguments cs_deltas {R}.
Arguments cs_visited {R}.
Arguments cs_grid {R}.

(** [visited[r][c]] *)
Definition get_visited (visited : list (list bool)) (p : Coord) : res bool :=
  row ← getitem visited p.1; getitem row p.2.

(** [visited[r][c] = True] *)
Definition set_visited (visited : list (list bool)) (p : Coord)
    : res (list (list bool)) :=
  row ← getitem visited p.1;
  row' ← setitem row p.2 true;
  setitem visited p.1 row'.

(** The [for dr, dc in deltas] loop of [carve(r, c)], with [gr, gc] the grid
    cell of the room and [rec] the recursive call.  The loop reads [deltas]
    through a list iterator, that is by position [i] in the list as it is
    when the iterator is advanced; [n] bounds the number of iterations by
    the length of the list, which no shuffle changes. *)
Fixpoint carve_loop (R : Random)
    (rec : Z → Z → carve_state R → res (carve_state R))
    (rows cols : Z) (r c gr gc : Z) (n i : nat) (st : carve_state R)
    : res (carve_state R) :=
  match n with
  | O => Return st
  | S n' =>
      match cs_deltas st !! i with
      | None => Return st
      | Some (dr, dc) =>
          let nr := r + dr in
          let nc := c + dc in
          if bool_decide (0 <= nr < rows) && bool_decide (0 <= nc < cols) then
            v ← get_visited (cs_visited st) (nr, nc);
            if negb v then
              let '(gr2, gc2) := to_grid (nr, nc) in
              let wall_r := (gr + gr2) `div` 2 in
              let wall_c := (gc + gc2) `div` 2 in
              grid2 ← set_cell (cs_grid st) (wall_r, wall_c) 1;
              st' ← rec nr nc
                      (CarveState (cs_rng st) (cs_deltas st) (cs_visited st) grid2);
              carve_loop R rec rows cols r c gr gc n' (S i) st'
            else carve_loop R rec rows cols r c gr gc n' (S i) st
          else carve_loop R rec rows cols r c gr gc n' (S i) st
      end
  end.

(** [carve(r, c)] *)
Fixpoint carve (R : Random) (fuel : nat) (rows cols : Z) (r c : Z)
    (st : carve_state R) {struct fuel} : res (carve_state R) :=
  match fuel with
  | O => OutOfFuel
  | S fuel' =>
      visited1 ← set_visited (cs_visited st) (r, c);
      let '(gr, gc) := to_grid (r, c) in
      grid1 ← set_cell (cs_grid st) (gr, gc) 1;
      let '(deltas1, rng1) := shuffle R (cs_rng st) (cs_deltas st) in
      carve_loop R (carve R fuel' rows cols) rows cols r c gr gc
        (length deltas1) O (CarveState rng1 deltas1 visited1 grid1)
  end.

(** Every call of [carve] marks a room that was not visited, so the
    recursion is at most [rows * cols] deep. *)
Definition carve_fuel (rows cols : Z) : nat := S (Z.to_nat (rows * cols)).

Definition generate_maze (R : Random) (rows cols : Z) (seed : option Z)
    (entropy : rng R) : res Grid :=
  if bool_decide (rows < 1 ∨ cols < 1) then Raise ValueError
  else
    let rng := Random_new R seed entropy in
    let grid := _make_grid rows cols in
    let visited := replicate (Z.to_nat rows) (replicate (Z.to_nat cols) false) in
    let deltas := [(0, 1); (1, 0); (0, -1); (-1, 0)] in
    st ← carve R (carve_fuel rows cols) rows cols 0 0
           (CarveState rng deltas visited grid);
    Return (cs_grid st).

(** [carve] nests one call for each room of the passage it is carving, at
    most [rows * cols] calls, and the embedding gives it that many.  Python
    gives it its recursion limit, 1000 frames unless the program raises it,
    and raises [RecursionError] beyond: an outcome that the embedding does
    not have.  A maze of at most [recursion_rooms] rooms is carved within
    the default limit from any call stack of fewer than 500 frames, and the
    statements that [generate_maze] returns a grid are made for such
    mazes. *)
Definition recursion_rooms : Z := 500.

(** *** The mutation routines

    [make_multiple_solutions] and [make_unsolvable] edit the grid they are
    given in place.  A computation of type [M A] takes the grid and returns
    its outcome with the grid as it has left it, also when it raises. *)

Definition M (A : Type) : Type := Grid → res A * Grid.

Definition ret {A : Type} (a : A) : M A := λ g, (Return a, g).

Definition raise {A : Type} (e : exn) : M A := λ g, (Raise e, g).

Definition seq {A B : Type} (m : M A) (k : A → M B) : M B := λ g,
  match m g with
  | (Return a, g') => k a g'
  | (Raise e, g') => (Raise e, g')
  | (OutOfFuel, g') => (OutOfFuel, g')
  end.

Notation "'do' x <- m ; k" := (seq m (λ x, k))
  (at level 10, x name, m at level 99, k at level 200).

(** An expression that only reads the grid. *)
Definition reading {A : Type} (f : Grid → res A) : M A := λ g, (f g, g).

(** [grid[r][c] = v] *)
Definition write_cell (p : Coord) (v : Z) : M unit := λ g,
  match set_cell g p v with
  | Return g' => (Return (), g')
  | Raise e => (Raise e, g)
  | OutOfFuel => (OutOfFuel, g)
  end.

(** The type of the parameter [astar_fn].  It reads the grid and does not
    change it. *)
Definition path_finder : Type := Grid → Coord → Coord → res (option Path).

(** Python truth value of what [astar_fn] returns: [None] and the empty
    list are false. *)
Definition truthy (p : option Path) : bool :=
  match p with
  | Some (_ :: _) => true
  | _ => false
  end.

(** [l[a:b]] *)
Definition slice_bound (n : nat) (i : Z) : nat :=
  if bool_decide (i < 0) then Z.to_nat (Z.max (Z.of_nat n + i) 0)
  else Z.to_nat (Z.min i (Z.of_nat n)).

Definition slice {A : Type} (l : list A) (a b : Z) : list A :=
  let lo := slice_bound (length l) a in
  let hi := slice_bound (length l) b in
  take (hi - lo) (drop lo l).

(** [if grid[start[0]][start[1]] != 1 or grid[end[0]][end[1]] != 1: raise ValueError] *)
Definition check_endpoints (start end_ : Coord) : M unit :=
  do vs <- reading (λ g, cell g start);
  if bool_decide (vs ≠ 1) then raise ValueError
  else
    do ve <- reading (λ g, cell g end_);
    if bool_decide (ve ≠ 1) then raise ValueError else ret ().

(** [[(r, c) for r in range(rows) for c in range(cols) if keep(r, c, grid[r][c])]] *)
Fixpoint scan (grid : Grid) (keep : Coord → Z → res bool) (cs : list Coord)
    : res (list Coord) :=
  match cs with
  | [] => Return []
  | c :: cs' =>
      v ← cell grid c;
      b ← keep c v;
      rest ← scan grid keep cs';
      Return (if b : bool then c :: rest else rest)
  end.

(** The wall cells with at least two walkable neighbours.  The inner loop of
    [make_multiple_solutions] tests the four neighbours as [_neighbors] does
    and counts those that pass. *)
Definition wall_candidates (grid : Grid) : res (list Coord) :=
  let rows := Z.of_nat (length grid) in
  row0 ← getitem grid 0;
  let cols := Z.of_nat (length row0) in
  scan grid
    (λ c v,
       if bool_decide (v ≠ 0) then Return false
       else
         nbrs ← neighbors_loop grid rows cols c deltas4 [];
         Return (bool_decide (2 <= Z.of_nat (length nbrs))))
    (cells grid).

(** The [for (r, c) in candidates] loop of [make_multiple_solutions]; [true]
    stands for [return True], [false] for leaving the loop. *)
Fixpoint try_open (astar_fn : path_finder) (start end_ : Coord)
    (orig_path : option Path) (max_tries : Z) (candidates : list Coord)
    (tries : Z) : M bool :=
  match candidates with
  | [] => ret false
  | c :: candidates' =>
      if bool_decide (tries >= max_tries) then ret false
      else
        do _ <- write_cell c 1;
        do new_path <- reading (λ g, astar_fn g start end_);
        if truthy new_path && bool_decide (new_path ≠ orig_path) then ret true
        else
          do _ <- write_cell c 0;
          try_open astar_fn start end_ orig_path max_tries candidates' (tries + 1)
  end.

Definition make_multiple_solutions (R : Random) (start end_ : Coord)
    (astar_fn : path_finder) (max_tries : Z) (seed : option Z)
    (entropy : rng R) : M bool :=
  let rng := Random_new R seed entropy in
  do _ <- check_endpoints start end_;
  do orig_path <- reading (λ g, astar_fn g start end_);
  if negb (truthy orig_path) then ret false
  else
    do candidates <- reading wall_candidates;
    let '(candidates, rng) := shuffle R rng candidates in
    do found <- try_open astar_fn start end_ orig_path max_tries candidates 0;
    if found then ret true else ret false.

(** The [for cell in intermediates] loop of [make_unsolvable]. *)
Fixpoint try_block (astar_fn : path_finder) (start end_ : Coord)
    (max_tries : Z) (intermediates : list Coord) (tries : Z) : M bool :=
  match intermediates with
  | [] => ret false
  | c :: intermediates' =>
      if bool_decide (tries >= max_tries) then ret false
      else
        do saved <- reading (λ g, cell g c);
        do _ <- write_cell c 0;
        do p <- reading (λ g, astar_fn g start end_);
        if negb (truthy p) then ret true
        else
          do _ <- write_cell c saved;
          try_block astar_fn start end_ max_tries intermediates' (tries + 1)
  end.

(** The [for (r, c) in all_walkables[:max_tries]] loop. *)
Fixpoint try_block_each (astar_fn : path_finder) (start end_ : Coord)
    (walkables : list Coord) : M bool :=
  match walkables with
  | [] => ret false
  | c :: walkables' =>
      do saved <- reading (λ g, cell g c);
      do _ <- write_cell c 0;
      do p <- reading (λ g, astar_fn g start end_);
      if negb (truthy p) then ret true
      else
        do _ <- write_cell c saved;
        try_block_each astar_fn start end_ walkables'
  end.

Definition all_walkables (start end_ : Coord) (grid : Grid) : res (list Coord) :=
  row0 ← getitem grid 0;
  scan grid
    (λ c v, Return (bool_decide (v = 1) && bool_decide (c ≠ start ∧ c ≠ end_)))
    (cells grid).

Definition make_unsolvable (R : Random) (start end_ : Coord)
    (astar_fn : path_finder) (seed : option Z) (max_tries : Z)
    (entropy : rng R) : M bool :=
  let rng := Random_new R seed entropy in
  do _ <- check_endpoints start end_;
  do path <- reading (λ g, astar_fn g start end_);
  match path with
  | None | Some [] => ret true
  | Some path =>
      let intermediates := slice path 1 (-1) in
      do intermediates <-
        (match intermediates with
         | [] =>
             if bool_decide (1 < Z.of_nat (length path))
             then do p1 <- reading (λ _, getitem path 1); ret [p1]
             else ret []
         | _ => ret intermediates
         end);
      let '(intermediates, rng) := shuffle R rng intermediates in
      do blocked <- try_block astar_fn start end_ max_tries intermediates 0;
      if blocked then ret true
      else
        do walkables <- reading (all_walkables start end_);
        let '(walkables, rng) := shuffle R rng walkables in
        do blocked <- try_block_each astar_fn start end_ (slice walkables 0 max_tries);
        if blocked then ret true else ret false
  end.

(** ** The graph of Open cells *)

(** A cell of the grid that holds 1. *)
Definition open_at (grid : Grid) (p : Coord) : Prop :=
  0 <= p.1 ∧ 0 <= p.2 ∧
  ∃ row, grid !! Z.to_nat p.1 = Some row ∧ row !! Z.to_nat p.2 = Some 1.

(** Coordinates inside the rectangle that [_neighbors] scans. *)
Definition in_bounds (grid : Grid) (p : Coord) : Prop :=
  0 <= p.1 < Z.of_nat (length grid) ∧ 0 <= p.2 < Z.of_nat (width grid).

(** Every row is as long as the first one. *)
Definition rectangular (grid : Grid) : Prop :=
  ∀ row, row ∈ grid → length row = width grid.

Definition adjacent (a b : Coord) : Prop :=
  Z.abs (a.1 - b.1) + Z.abs (a.2 - b.2) = 1.

Fixpoint linked (p : Path) : Prop :=
  match p with
  | a :: (b :: _) as t => adjacent a b ∧ linked t
  | _ => True
  end.

(** [p] runs from [s] to [t] through Open cells, by 4-adjacent steps. *)
Definition path_between (grid : Grid) (s t : Coord) (p : Path) : Prop :=
  head p = Some s ∧ last p = Some t ∧ Forall (open_at grid) p ∧ linked p.

Definition connected (grid : Grid) (s t : Coord) : Prop :=
  ∃ p, path_between grid s t p.

(** [d] is the number of steps of a shortest path from [s] to [t]. *)
Definition graph_distance (grid : Grid) (s t : Coord) (d : nat) : Prop :=
  (∃ p, path_between grid s t p ∧ length p = S d) ∧
  ∀ q, path_between grid s t q → (S d ≤ length q)%nat.

(** [t] is reached from [s] in [k] steps. *)
Inductive reach (grid : Grid) (s : Coord) : nat → Coord → Prop :=
| reach_O : open_at grid s → reach grid s O s
| reach_S k v w :
    reach grid s k v → adjacent v w → open_at grid w → reach grid s (S k) w.

(** ** Invariant of the search loop *)

(** [gscore.get(n, 1_000_000)] *)
Definition gget (st : astar_state) (n : Coord) : Z :=
  default unreached (gscore st !! n).

(** [n] is one of the neighbours that [_neighbors] lists for [p]. *)
Definition edge (grid : Grid) (p n : Coord) : Prop :=
  ∃ l, _neighbors grid p = Return l ∧ n ∈ l.

(** The coordinates the search can ever hold. *)
Definition universe (grid : Grid) (start : Coord) : list Coord :=
  start :: cells grid.

Definition pending (grid : Grid) (start : Coord) (st : astar_state) : nat :=
  length (filter (λ u, u ∉ closed st) (universe grid start)).

Definition measure (grid : Grid) (start : Coord) (st : astar_state) : nat :=
  (length (open_set st) + 4 * pending grid start st)%nat.

(** The invariant at the head of the [while] loop is [inv_with] with nothing
    exempt; inside the [for] loop over the neighbours of [current], the
    neighbours not yet relaxed are exempt from [inv_relaxed]. *)
Record inv_with (grid : Grid) (start goal : Coord)
    (exempt : Coord → Coord → Prop) (st : astar_state) : Prop := {
  inv_start : gscore st !! start = Some 0;
  inv_range : ∀ n g, gscore st !! n = Some g → 0 <= g < unreached;
  inv_parent : ∀ n g, gscore st !! n = Some g → n ≠ start →
    ∃ p gp, came_from st !! n = Some p ∧ p ∈ closed st ∧
            gscore st !! p = Some gp ∧ g = gp + 1 ∧ edge grid p n;
  inv_closed : ∀ c, c ∈ closed st → is_Some (gscore st !! c) ∧ c ≠ goal;
  inv_relaxed : ∀ c gc n, c ∈ closed st → gscore st !! c = Some gc →
    edge grid c n → n ∉ closed st → ¬ exempt c n → gget st n <= gc + 1;
  inv_queued : ∀ n g, gscore st !! n = Some g → n ∉ closed st →
    ∃ f, (f, n) ∈ open_set st ∧ f <= g + _heuristic n goal;
  inv_entry : ∀ f n, (f, n) ∈ open_set st →
    ∃ g, gscore st !! n = Some g ∧ (n = start ∨ g + _heuristic n goal <= f);
  inv_optimal : rectangular grid → open_at grid start →
    ∀ c gc k, c ∈ closed st → gscore st !! c = Some gc →
              reach grid start k c → gc <= Z.of_nat k;
  inv_universe : ∀ n, is_Some (gscore st !! n) → n ∈ universe grid start;
  inv_keys : ∀ n, is_Some (came_from st !! n) → in_bounds grid n
}.

(** No recorded cost is within one step of the default of [gscore.get]. *)
Definition all_near (st : astar_state) : Prop :=
  ∀ n g, gscore st !! n = Some g → g + 1 < unreached.

Definition astar_inv (grid : Grid) (start goal : Coord) : astar_state → Prop :=
  inv_with grid start goal (λ _ _, False).

(** [x :: tail] follows predecessor links from [x] back to [start]. *)
Fixpoint trail (grid : Grid) (start x : Coord) (tail : list Coord) : Prop :=
  match tail with
  | [] => x = start
  | p :: tail' => edge grid p x ∧ trail grid start p tail'
  end.

(** ** What the mutation routines guarantee *)

(** The lengths of the rows. *)
Definition shape (grid : Grid) : list nat := length <$> grid.

(** The parameter [astar_fn] never raises [ValueError]. *)
Definition no_ValueError (astar_fn : path_finder) : Prop :=
  ∀ g s e, astar_fn g s e ≠ Raise ValueError.

(** A run from [grid] that keeps the shape of the grid, leaves the grid as
    it was when it gives up, and raises [ValueError] only if [astar_fn]
    does. *)
Definition reverting (astar_fn : path_finder) (grid : Grid)
    (out : res bool * Grid) : Prop :=
  shape out.2 = shape grid ∧
  (out.1 = Return false → out.2 = grid) ∧
  (no_ValueError astar_fn → out.1 ≠ Raise ValueError).

(** A run that, besides, reports success only when [astar_fn] has just
    found no path in the grid it leaves. *)
Definition severing (astar_fn : path_finder) (start end_ : Coord)
    (grid : Grid) (out : res bool * Grid) : Prop :=
  reverting astar_fn grid out ∧
  (out.1 = Return true →
   ∃ p, astar_fn out.2 start end_ = Return p ∧ truthy p = false).

(** [astar_fn] decides connectivity between [start] and [end_] on [grid]. *)
Definition finds_paths (astar_fn : path_finder) (grid : Grid)
    (start end_ : Coord) : Prop :=
  ∃ r, astar_fn grid start end_ = Return r ∧
       (truthy r = true ↔ connected grid start end_).

(** [astar_fn] returns, and returns a path only if there is one. *)
Definition sound_on (astar_fn : path_finder) (grid : Grid)
    (start end_ : Coord) : Prop :=
  ∃ r, astar_fn grid start end_ = Return r ∧
       (truthy r = true → connected grid start end_).

(** [astar_fn] returns no path only if there is none. *)
Definition complete_on (astar_fn : path_finder) (grid : Grid)
    (start end_ : Coord) : Prop :=
  ∀ r, astar_fn grid start end_ = Return r → truthy r = false →
       ¬ connected grid start end_.

(** ** What [carve] maintains *)

(** The number of rooms not yet visited. *)
Definition unvisited_in (row : list bool) : nat :=
  length (filter (λ b, b = false) row).

Definition unvisited (visited : list (list bool)) : nat :=
  sum_list (unvisited_in <$> visited).

(** [visited] is [rows] by [cols] and [grid] is [2*rows+1] by [2*cols+1]. *)
Definition carve_wf {R : Random} (rows cols : Z) (st : carve_state R) : Prop :=
  length <$> cs_visited st = replicate (Z.to_nat rows) (Z.to_nat cols) ∧
  shape (cs_grid st) = replicate (Z.to_nat (2 * rows + 1)) (Z.to_nat (2 * cols + 1)).

(** What the search loop establishes, by outcome. *)
Definition loop_post (grid : Grid) (start goal : Coord)
    (r : res (option Path)) : Prop :=
  match r with
  | OutOfFuel => False
  | Raise e => e = IndexError ∧ ∃ c, _neighbors grid c = Raise IndexError
  | Return None => ∃ st, astar_inv grid start goal st ∧ open_set st = []
  | Return (Some p) =>
      ∃ st f rest tail,
        astar_inv grid start goal st ∧
        heappop (open_set st) = Some ((f, goal), rest) ∧
        gscore st !! goal = Some (Z.of_nat (length tail)) ∧
        trail grid start goal tail ∧ p = reverse (goal :: tail)
  end.

(** What a call [carve(nr, nc)] does when at most [f] rooms are unvisited. *)
Definition carve_spec (R : Random) (rows cols : Z) (f : nat)
    (rec : Z → Z → carve_state R → res (carve_state R)) : Prop :=
  ∀ nr nc st row,
    carve_wf rows cols st → 0 <= nr < rows → 0 <= nc < cols →
    cs_visited st !! Z.to_nat nr = Some row → row !! Z.to_nat nc = Some false →
    (unvisited (cs_visited st) ≤ f)%nat →
    ∃ st', rec nr nc st = Return st' ∧ carve_wf rows cols st' ∧
           (unvisited (cs_visited st') < unvisited (cs_visited st))%nat.

(** ** Grids used as examples *)

(** A single row of [n] walkable cells. *)
Definition corridor (n : nat) : Grid := [replicate n 1].

(** A single row of 1,000,001 walkable cells. *)
Definition long_corridor : Grid := corridor (Z.to_nat 1000001).

(** A ring of walkable cells around a wall. *)
Definition ring : Grid := [[1; 1; 1]; [1; 0; 1]; [1; 1; 1]].

(** Two rows joined at one end. *)
Definition bend : Grid := [[1; 1; 1]; [0; 0; 1]; [1; 1; 1]].

(** Two rows with a row of walls between them. *)
Definition halves : Grid := [[1; 1; 1]; [0; 0; 0]; [1; 1; 1]].

(** ** generator.py: [find_valid_cell]

    [rng.choice(seq)] is [seq[rng._randbelow(len(seq))]], and it raises
    [IndexError] on an empty sequence.  All that is assumed of [_randbelow]
    is that its value is below its argument. *)
Record Chooser (R : Random) : Type := {
  randbelow : rng R → nat → nat;
  randbelow_lt : ∀ g n, (0 < n)%nat → (randbelow g n < n)%nat
}.

Arguments randbelow {R} _ _ _.
Arguments randbelow_lt {R} _ _ _ _.

Definition choice {A : Type} {R : Random} (C : Chooser R) (g : rng R)
    (seq : list A) : res A :=
  if bool_decide (length seq = 0%nat) then Raise IndexError
  else getitem seq (Z.of_nat (randbelow C g (length seq))).

(** [exclude or set()] is the empty set when [exclude] is [None] and
    [exclude] itself otherwise (an empty [exclude] is replaced by the empty
    set). *)
Definition find_valid_cell {R : Random} (C : Chooser R) (grid : Grid)
    (exclude : option (gset Coord)) (seed : option Z) (entropy : rng R)
    : res Coord :=
  let rng := Random_new R seed entropy in
  let rows := length grid in
  if bool_decide (rows = 0%nat) then Raise ValueError
  else
    row0 ← getitem grid 0;
    let exclude := default ∅ exclude in
    candidates ← scan grid
      (λ c v, Return (bool_decide (v = 1) && bool_decide (c ∉ exclude)))
      (cells grid);
    if bool_decide (candidates = []) then Raise ValueError
    else choice C rng candidates.

(** The chooser of the replaying generator: [_randbelow(n)] is the next
    draw, reduced below [n]. *)
Lemma replay_randbelow_lt (g : list nat) (n : nat) :
  (0 < n)%nat → (hd O g mod n < n)%nat.
Proof. intros Hn. apply Nat.mod_upper_bound. lia. Qed.

Definition replay_chooser (table : Z → list nat) : Chooser (replay table) :=
  {| randbelow := λ (g : rng (replay table)) n, (hd O g mod n)%nat;
     randbelow_lt := replay_randbelow_lt |}.

(** ** render.py

    A Python [str] is the list of its code points. *)

Abbreviation str := (list N).

(** ["\n"] *)
Definition newline : str := [10%N].

(** [sep.join(parts)] *)
Fixpoint join (sep : str) (parts : list str) : str :=
  match parts with
  | [] => []
  | p :: rest =>
      match rest with
      | [] => p
      | _ :: _ => p ++ sep ++ join sep rest
      end
  end.

(** The five symbol arguments of [grid_to_ascii]. *)
Record symbols : Type := Symbols {
  start_sym : str;
  end_sym : str;
  wall_sym : str;
  path_sym : str;
  walkable_sym : str
}.

(** Their defaults: ["S"], ["E"], the full block U+2588, ["*"] and ["."]. *)
Definition default_symbols : symbols :=
  {| start_sym := [83%N]; end_sym := [69%N]; wall_sym := [9608%N];
     path_sym := [42%N]; walkable_sym := [46%N] |}.

(** [set(path) if path else set()] *)
Definition path_set (path : option Path) : gset Coord :=
  match path with
  | Some (p :: ps) => list_to_set (p :: ps)
  | _ => ∅
  end.

(** The [if]/[elif] chain in the inner loop of [grid_to_ascii].  With
    [start] equal to [None], [start is not None and coord == start] is false
    and [coord != start] is true. *)
Definition cell_symbol (sy : symbols) (cells_of_path : gset Coord)
    (start end_ : option Coord) (coord : Coord) (cell : Z) : str :=
  if bool_decide (start = Some coord) then start_sym sy
  else if bool_decide (end_ = Some coord) then end_sym sy
  else if bool_decide (coord ∈ cells_of_path) && bool_decide (Some coord ≠ start)
          && bool_decide (Some coord ≠ end_) then path_sym sy
  else if bool_decide (cell = 0) then wall_sym sy
  else walkable_sym sy.

Definition grid_to_ascii (grid : Grid) (path : option Path)
    (start end_ : option Coord) (sy : symbols) : str :=
  let cells_of_path := path_set path in
  let lines :=
    imap (λ r row,
            concat (imap (λ c cell,
                            cell_symbol sy cells_of_path start end_
                              (Z.of_nat r, Z.of_nat c) cell)
                         row))
         grid in
  join newline lines.

(** Every symbol is a single character. *)
Definition single_chars (sy : symbols) : Prop :=
  length (start_sym sy) = 1%nat ∧ length (end_sym sy) = 1%nat ∧
  length (wall_sym sy) = 1%nat ∧ length (path_sym sy) = 1%nat ∧
  length (walkable_sym sy) = 1%nat.

(** *** [save_images]: the size of the image and the box of a cell

    [img_w = cols * cell_size + (cols + 1)] and
    [img_h = rows * cell_size + (rows + 1)]: one pixel of separator before,
    between and after the cells. *)
Definition image_size (rows cols cell_size : Z) : Z * Z :=
  (cols * cell_size + (cols + 1), rows * cell_size + (rows + 1)).

(** [cell_bbox(r, c)], the corners [(x0, y0, x1, y1)] of the rectangle that
    [draw.rectangle] fills for the cell: both corners belong to it. *)
Definition cell_bbox (cell_size r c : Z) : Z * Z * Z * Z :=
  let x0 := c * cell_size + (c + 1) in
  let y0 := r * cell_size + (r + 1) in
  let x1 := x0 + cell_size - 1 in
  let y1 := y0 + cell_size - 1 in
  (x0, y0, x1, y1).

(** The pixel [(x, y)] is in the rectangle [bbox]. *)
Definition in_bbox (bbox : Z * Z * Z * Z) (x y : Z) : Prop :=
  let '(x0, y0, x1, y1) := bbox in x0 <= x <= x1 ∧ y0 <= y <= y1.

(** ** main.py

    The statements of [main] that compute: the maze, the cells of the two
    corner rooms, and the search between them.
    [grid = generate_maze(rows, cols, seed=seed); start = (1, 1);
     end = (len(grid) - 2, len(grid[0]) - 2); path = astar(grid, start, end)] *)
Definition main_search (R : Random) (rows cols : Z) (seed : option Z)
    (entropy : rng R) : res (Grid * Coord * Coord * option Path) :=
  grid ← generate_maze R rows cols seed entropy;
  let start := (1, 1) in
  row0 ← getitem grid 0;
  let end_ := (Z.of_nat (length grid) - 2, Z.of_nat (length row0) - 2) in
  path ← astar grid start end_;
  Return (grid, start, end_, path).

(** ** What the mutation routines write *)

(** The grid that a run leaves is the grid it was given, or that grid with
    [v] written to one of the cells [cs]. *)
Definition one_write (v : Z) (cs : list Coord) (grid grid' : Grid) : Prop :=
  grid' = grid ∨ ∃ c, c ∈ cs ∧ set_cell grid c v = Return grid'.

(** ** The tree that [carve] builds *)

(** Room [(r, c)] is one of the [rows] by [cols] rooms. *)
Definition room_in (rows cols : Z) (rc : Coord) : Prop :=
  0 <= rc.1 < rows ∧ 0 <= rc.2 < cols.

(** [visited[r][c]] holds [True]. *)
Definition visited_at (visited : list (list bool)) (rc : Coord) : Prop :=
  0 <= rc.1 ∧ 0 <= rc.2 ∧
  ∃ row, visited !! Z.to_nat rc.1 = Some row ∧ row !! Z.to_nat rc.2 = Some true.

(** The cell between the grid cells of room [a] and of the room one step
    [d] away: [((gr + gr2) // 2, (gc + gc2) // 2)]. *)
Definition wall_between (a d : Coord) : Coord :=
  (2 * a.1 + 1 + d.1, 2 * a.2 + 1 + d.2).

(** The number of room cells that hold 1. *)
Definition open_rooms (grid : Grid) : nat :=
  length (List.filter
            (λ p, match cell grid p with
                  | Return 1 => is_room p
                  | _ => false
                  end)
            (cells grid)).

(** Every cell holds 0 or 1. *)
Definition bits (grid : Grid) : Prop :=
  Forall (Forall (λ v, v = 0 ∨ v = 1)) grid.

(** [l[r][c]] holds [x], for a list of lists [l]. *)
Definition at2 {A} (l : list (list A)) (p : Coord) (x : A) : Prop :=
  0 <= p.1 ∧ 0 <= p.2 ∧
  ∃ row, l !! Z.to_nat p.1 = Some row ∧ row !! Z.to_nat p.2 = Some x.

(** What every call of [carve] finds and leaves.  [pend] is the room that
    the call about to be made will enter: the wall towards it is open
    already, the room itself is not. *)
Record maze_inv {R : Random} (rows cols : Z) (pend : option Coord)
    (st : carve_state R) : Prop := {
  mi_wf : carve_wf rows cols st;
  mi_deltas : cs_deltas st ≡ₚ deltas4;
  mi_bits : bits (cs_grid st);
  mi_rooms : ∀ rc, room_in rows cols rc →
    open_at (cs_grid st) (to_grid rc) ↔ visited_at (cs_visited st) rc;
  mi_open : ∀ p, open_at (cs_grid st) p →
    (∃ rc, room_in rows cols rc ∧ p = to_grid rc) ∨
    (∃ a d, d ∈ deltas4 ∧ room_in rows cols a ∧
            room_in rows cols (a.1 + d.1, a.2 + d.2) ∧
            p = wall_between a d ∧ visited_at (cs_visited st) a ∧
            (visited_at (cs_visited st) (a.1 + d.1, a.2 + d.2) ∨
             pend = Some (a.1 + d.1, a.2 + d.2)));
  mi_conn : ∀ p, open_at (cs_grid st) p → connected (cs_grid st) (1, 1) p;
  mi_pend : ∀ rc, pend = Some rc →
    (rc = (0, 0) ∧ ∀ p, ¬ open_at (cs_grid st) p) ∨
    (∃ w, open_at (cs_grid st) w ∧ adjacent w (to_grid rc));
  mi_count_rooms :
    (open_rooms (cs_grid st) + unvisited (cs_visited st))%nat
    = Z.to_nat (rows * cols);
  mi_count_walls :
    (opened_walls (cs_grid st) + unvisited (cs_visited st) + 1)%nat
    = (Z.to_nat (rows * cols) + match pend with Some _ => 1 | None => 0 end)%nat
}.

(** What a call [carve(nr, nc)] does when at most [f] rooms are unvisited. *)
Definition carve_keeps (R : Random) (rows cols : Z) (f : nat)
    (rec : Z → Z → carve_state R → res (carve_state R)) : Prop :=
  ∀ nr nc st,
    maze_inv rows cols (Some (nr, nc)) st → room_in rows cols (nr, nc) →
    ¬ visited_at (cs_visited st) (nr, nc) →
    (unvisited (cs_visited st) ≤ f)%nat →
    ∃ st', rec nr nc st = Return st' ∧ maze_inv rows cols None st' ∧
           (unvisited (cs_visited st') < unvisited (cs_visited st))%nat ∧
           (∀ rc, visited_at (cs_visited st) rc → visited_at (cs_visited st') rc) ∧
           visited_at (cs_visited st') (nr, nc).

(** ** Basic facts: sequencing *)

Lemma bind_Return {A B} (a : A) (k : A → res B) : (Return a ≫= k) = k a.
Proof. reflexivity. Qed.

Lemma bind_Raise {A B} e (k : A → res B) : (Raise e ≫= k) = Raise e.
Proof. reflexivity. Qed.

Lemma bind_OutOfFuel {A B} (k : A → res B) : (OutOfFuel ≫= k) = OutOfFuel.
Proof. reflexivity. Qed.

Ltac simpl_bind :=
  repeat first [rewrite bind_Return | rewrite bind_Raise | rewrite bind_OutOfFuel].

Tactic Notation "simpl_bind" "in" hyp(H) :=
  repeat first [rewrite bind_Return in H | rewrite bind_Raise in H
               | rewrite bind_OutOfFuel in H].

(** ** Basic facts: indexing *)

Lemma norm_index_nonneg n i :
  0 <= i → norm_index n i = if bool_decide (i < Z.of_nat n) then Some (Z.to_nat i) else None.
Proof.
  intros Hi. unfold norm_index.
  repeat case_bool_decide; try lia; reflexivity.
Qed.

Lemma getitem_nonneg {A} (l : list A) i x :
  0 <= i → getitem l i = Return x ↔ l !! Z.to_nat i = Some x.
Proof.
  intros Hi. unfold getitem. rewrite norm_index_nonneg by done.
  case_bool_decide as Hlt.
  - destruct (l !! Z.to_nat i) eqn:E; split; intros; simplify_eq; done.
  - split; [done|]. intros Hl. apply lookup_lt_Some in Hl. lia.
Qed.

Lemma getitem_cases {A} (l : list A) i :
  (∃ x, getitem l i = Return x) ∨ getitem l i = Raise IndexError.
Proof.
  unfold getitem. destruct (norm_index _ _); [|by right].
  destruct (l !! _); eauto.
Qed.

Lemma cell_cases grid p :
  (∃ v, cell grid p = Return v) ∨ cell grid p = Raise IndexError.
Proof.
  unfold cell. destruct (getitem_cases grid p.1) as [[row ->]| ->]; simpl; [|by right].
  apply getitem_cases.
Qed.

Lemma cell_nonneg grid p v :
  0 <= p.1 → 0 <= p.2 →
  cell grid p = Return v ↔
  ∃ row, grid !! Z.to_nat p.1 = Some row ∧ row !! Z.to_nat p.2 = Some v.
Proof.
  intros H1 H2. unfold cell. split.
  - destruct (getitem grid p.1) as [row| |] eqn:E; simpl; try done.
    intros Hc. exists row. split.
    + by apply getitem_nonneg in E.
    + by apply getitem_nonneg in Hc.
  - intros (row & Hr & Hc).
    apply (getitem_nonneg _ _ _ H1) in Hr. rewrite Hr. simpl.
    by apply getitem_nonneg.
Qed.

Lemma open_at_cell grid p :
  open_at grid p ↔ 0 <= p.1 ∧ 0 <= p.2 ∧ cell grid p = Return 1.
Proof.
  unfold open_at. split.
  - intros (H1 & H2 & H). repeat split; try done. by apply cell_nonneg.
  - intros (H1 & H2 & H). repeat split; try done. by apply cell_nonneg in H.
Qed.

Lemma open_at_in_bounds grid p :
  rectangular grid → open_at grid p → in_bounds grid p.
Proof.
  intros Hrect (H1 & H2 & row & Hr & Hc).
  pose proof (lookup_lt_Some _ _ _ Hr) as Hlr.
  pose proof (lookup_lt_Some _ _ _ Hc) as Hlc.
  rewrite (Hrect row) in Hlc by (eapply list_elem_of_lookup_2; done).
  unfold in_bounds. lia.
Qed.

Lemma in_bounds_cell grid p :
  rectangular grid → in_bounds grid p → ∃ v, cell grid p = Return v.
Proof.
  intros Hrect [Hr Hc].
  destruct (lookup_lt_is_Some_2 grid (Z.to_nat p.1)) as [row Hrow]; [lia|].
  destruct (lookup_lt_is_Some_2 row (Z.to_nat p.2)) as [v Hv].
  { rewrite (Hrect row) by (eapply list_elem_of_lookup_2; done). lia. }
  exists v. apply cell_nonneg; [lia..|]. eauto.
Qed.

(** ** Basic facts: [_neighbors] and [_heuristic] *)

Lemma heuristic_self a : _heuristic a a = 0.
Proof. unfold _heuristic. lia. Qed.

Lemma heuristic_nonneg a b : 0 <= _heuristic a b.
Proof. unfold _heuristic. lia. Qed.

Lemma heuristic_triangle a b c :
  _heuristic a c <= _heuristic a b + _heuristic b c.
Proof. unfold _heuristic. lia. Qed.

Lemma heuristic_sym a b : _heuristic a b = _heuristic b a.
Proof. unfold _heuristic. lia. Qed.

Lemma adjacent_heuristic a b : adjacent a b ↔ _heuristic a b = 1.
Proof. reflexivity. Qed.

Lemma adjacent_deltas a b :
  adjacent a b ↔ ∃ d, d ∈ deltas4 ∧ b = (a.1 + d.1, a.2 + d.2).
Proof.
  unfold adjacent, deltas4. destruct a as [ar ac], b as [br bc]. simpl. split.
  - intros H.
    assert ((br = ar ∧ bc = ac + 1) ∨ (br = ar + 1 ∧ bc = ac) ∨
            (br = ar ∧ bc = ac - 1) ∨ (br = ar - 1 ∧ bc = ac)) as Hc by lia.
    destruct Hc as [[-> ->]|[[-> ->]|[[-> ->]|[-> ->]]]].
    + exists (0, 1). split; [set_solver|]. simpl. f_equal; lia.
    + exists (1, 0). split; [set_solver|]. simpl. f_equal; lia.
    + exists (0, -1). split; [set_solver|]. simpl. f_equal; lia.
    + exists (-1, 0). split; [set_solver|]. simpl. f_equal; lia.
  - intros ([dr dc] & Hd & Heq). simpl in Heq. simplify_eq.
    repeat (apply elem_of_cons in Hd as [Hd|Hd]; [simplify_eq; lia|]).
    by apply elem_of_nil in Hd.
Qed.

Lemma neighbors_loop_spec grid rows cols node ds acc l :
  neighbors_loop grid rows cols node ds acc = Return l →
  ∃ l', l = acc ++ l' ∧ (length l' ≤ length ds)%nat ∧
    ∀ n, n ∈ l' ↔
      ∃ d, d ∈ ds ∧ n = (node.1 + d.1, node.2 + d.2) ∧
           0 <= n.1 < rows ∧ 0 <= n.2 < cols ∧ cell grid n = Return 1.
Proof.
  revert acc l. induction ds as [|[dr dc] ds IH]; intros acc l; simpl.
  - intros [= <-]. exists []. rewrite app_nil_r. split; [done|]. split; [done|].
    intros n. split; [by intros ?%elem_of_nil|]. intros (d & ?%elem_of_nil & _). done.
  - destruct (bool_decide (0 <= node.1 + dr < rows) && bool_decide (0 <= node.2 + dc < cols)) eqn:Hb.
    + apply andb_prop in Hb as [Hr%bool_decide_eq_true_1 Hc%bool_decide_eq_true_1].
      destruct (cell grid (node.1 + dr, node.2 + dc)) as [v| |] eqn:Hv; simpl; try done.
      case_bool_decide as Hv1.
      * intros (l' & -> & Hlen & Hl')%IH. subst v.
        exists ((node.1 + dr, node.2 + dc) :: l').
        split; [by rewrite <- app_assoc|]. split; [simpl; lia|].
        intros n. rewrite elem_of_cons, Hl'. split.
        -- intros [->|(d & Hd & Hn)].
           ++ exists (dr, dc). simpl. split; [left|]; done.
           ++ exists d. split; [by right|done].
        -- intros (d & [->|Hd]%elem_of_cons & Hn); [left; tauto|right; eauto].
      * intros (l' & -> & Hlen & Hl')%IH.
        exists l'. split; [done|]. split; [lia|].
        intros n. rewrite Hl'. split.
        -- intros (d & Hd & Hn). exists d. split; [by right|done].
        -- intros (d & [->|Hd]%elem_of_cons & Hn); [|eauto].
           simpl in Hn. destruct Hn as (-> & _ & _ & Hn). congruence.
    + intros (l' & -> & Hlen & Hl')%IH.
      exists l'. split; [done|]. split; [lia|].
      intros n. rewrite Hl'. split.
      * intros (d & Hd & Hn). exists d. split; [by right|done].
      * intros (d & [->|Hd]%elem_of_cons & Hn); [|eauto].
        simpl in Hn. destruct Hn as (-> & Hr & Hc & _). simpl in Hr, Hc.
        apply andb_false_iff in Hb as [Hb%bool_decide_eq_false_1|Hb%bool_decide_eq_false_1]; lia.
Qed.

Lemma getitem_0_width (grid : Grid) row0 :
  getitem grid 0 = Return row0 → length row0 = width grid.
Proof.
  intros H. apply getitem_nonneg in H; [|done]. destruct grid; simplify_eq/=. done.
Qed.

Lemma neighbors_spec grid p l :
  _neighbors grid p = Return l →
  (length l ≤ 4)%nat ∧
  ∀ n, n ∈ l ↔ adjacent p n ∧ in_bounds grid n ∧ cell grid n = Return 1.
Proof.
  unfold _neighbors. destruct (getitem grid 0) as [row0| |] eqn:H0; simpl_bind; try done.
  intros (l' & -> & Hlen & Hl')%neighbors_loop_spec. simpl in *.
  split; [done|]. intros n. rewrite Hl', adjacent_deltas.
  rewrite (getitem_0_width _ _ H0). unfold in_bounds. naive_solver.
Qed.

Lemma neighbors_loop_cases grid rows cols node ds acc :
  (∃ l, neighbors_loop grid rows cols node ds acc = Return l) ∨
  neighbors_loop grid rows cols node ds acc = Raise IndexError.
Proof.
  revert acc. induction ds as [|[dr dc] ds IH]; intros acc; simpl; [eauto|].
  destruct (_ && _); [|done].
  destruct (cell_cases grid (node.1 + dr, node.2 + dc)) as [[v ->]| ->]; simpl; [|by right].
  case_bool_decide; done.
Qed.

Lemma neighbors_cases grid p :
  (∃ l, _neighbors grid p = Return l) ∨ _neighbors grid p = Raise IndexError.
Proof.
  unfold _neighbors.
  destruct (getitem_cases grid 0) as [[row ->]| ->]; simpl_bind; [|by right].
  apply neighbors_loop_cases.
Qed.

Lemma neighbors_loop_total grid node ds acc :
  rectangular grid →
  ∃ l, neighbors_loop grid (Z.of_nat (length grid)) (Z.of_nat (width grid)) node ds acc = Return l.
Proof.
  intros Hrect. revert acc. induction ds as [|[dr dc] ds IH]; intros acc; simpl; [eauto|].
  destruct (bool_decide _ && bool_decide _) eqn:Hb; [|done].
  apply andb_prop in Hb as [Hr%bool_decide_eq_true_1 Hc%bool_decide_eq_true_1].
  destruct (in_bounds_cell grid (node.1 + dr, node.2 + dc) Hrect) as [v ->]; [done|].
  simpl. case_bool_decide; done.
Qed.

Lemma neighbors_total grid p :
  rectangular grid → grid ≠ [] → ∃ l, _neighbors grid p = Return l.
Proof.
  intros Hrect Hne. unfold _neighbors.
  destruct grid as [|row0 grid']; [done|].
  assert (getitem (row0 :: grid') 0 = Return row0) as -> by (by apply getitem_nonneg).
  simpl_bind. apply (neighbors_loop_total (row0 :: grid')). done.
Qed.

(** ** Basic facts: the priority queue *)

Lemma entry_ltb_false x y : entry_ltb y x = false → x.1 <= y.1.
Proof.
  unfold entry_ltb. repeat case_bool_decide; intros; simplify_eq; lia.
Qed.

Lemma entry_ltb_true x y : entry_ltb y x = true → y.1 <= x.1.
Proof.
  unfold entry_ltb. repeat case_bool_decide; intros; simplify_eq; lia.
Qed.

Lemma heap_least_elem x h : heap_least x h ∈ x :: h.
Proof.
  revert x. induction h as [|y h IH]; intros x; simpl; [set_solver|].
  specialize (IH (if entry_ltb y x then y else x)).
  destruct (entry_ltb y x); set_solver.
Qed.

Lemma heap_least_le x h y : y ∈ x :: h → (heap_least x h).1 <= y.1.
Proof.
  revert x y. induction h as [|z h IH]; intros x y; simpl.
  - intros ->%list_elem_of_singleton. done.
  - intros Hy.
    assert ((heap_least (if entry_ltb z x then z else x) h).1 <= (if entry_ltb z x then z else x).1)
      as Hm by (apply IH; left).
    destruct (entry_ltb z x) eqn:E.
    + apply entry_ltb_true in E.
      apply elem_of_cons in Hy as [->|[->|Hy]%elem_of_cons]; [lia|done|].
      apply IH. by right.
    + apply entry_ltb_false in E.
      apply elem_of_cons in Hy as [->|[->|Hy]%elem_of_cons]; [done|lia|].
      apply IH. by right.
Qed.

Lemma remove_one_elem x h y : y ∈ remove_one x h → y ∈ h.
Proof.
  induction h as [|z h IH]; simpl; [done|].
  case_decide; set_solver.
Qed.

Lemma remove_one_other x h y : y ∈ h → y ≠ x → y ∈ remove_one x h.
Proof.
  induction h as [|z h IH]; simpl; [done|].
  case_decide; set_solver.
Qed.

Lemma remove_one_length x h : x ∈ h → length h = S (length (remove_one x h)).
Proof.
  induction h as [|z h IH]; simpl; [by intros ?%elem_of_nil|].
  case_decide; [done|]. intros [?|Hx]%elem_of_cons; [congruence|].
  simpl. f_equal. by apply IH.
Qed.

Lemma heappop_spec h m rest :
  heappop h = Some (m, rest) →
  m ∈ h ∧ (∀ y, y ∈ h → m.1 <= y.1) ∧
  (∀ y, y ∈ rest → y ∈ h) ∧ (∀ y, y ∈ h → y ≠ m → y ∈ rest) ∧
  length h = S (length rest).
Proof.
  destruct h as [|x h]; [done|]. unfold heappop. intros Hpop.
  assert (m = heap_least x h ∧ rest = remove_one (heap_least x h) (x :: h))
    as [-> ->] by (by inversion Hpop).
  clear Hpop. pose proof (heap_least_elem x h) as Hin.
  split; [done|]. split; [intros y; apply heap_least_le|].
  split; [intros y; apply remove_one_elem|].
  split; [intros y; apply remove_one_other|].
  by apply remove_one_length.
Qed.

Lemma heappop_None h : heappop h = None → h = [].
Proof. by destruct h. Qed.

(** ** Paths and reachability *)

Lemma edge_spec grid p n :
  edge grid p n → adjacent p n ∧ in_bounds grid n ∧ open_at grid n.
Proof.
  intros (l & Hl & Hn). apply neighbors_spec in Hl as [_ Hl].
  apply Hl in Hn as (Ha & Hb & Hc). split; [done|]. split; [done|].
  apply open_at_cell. unfold in_bounds in Hb. tauto.
Qed.

Lemma edge_intro grid p n :
  rectangular grid → adjacent p n → open_at grid n → edge grid p n.
Proof.
  intros Hrect Hadj Hopen.
  assert (grid ≠ []) as Hne.
  { destruct Hopen as (_ & _ & row & Hrow & _). by destruct grid. }
  destruct (neighbors_total grid p Hrect Hne) as [l Hl].
  exists l. split; [done|]. apply neighbors_spec in Hl as [_ Hl]. apply Hl.
  split; [done|]. split; [by apply open_at_in_bounds|].
  by apply open_at_cell in Hopen as (_ & _ & ?).
Qed.

Lemma linked_snoc p a b :
  last p = Some a → linked p → adjacent a b → linked (p ++ [b]).
Proof.
  induction p as [|x [|y p] IH]; simpl; [done|..].
  - intros [= ->] _ Hadj. done.
  - intros Hlast [Hxy Hl] Hadj. split; [done|]. apply IH; done.
Qed.

Lemma path_between_snoc grid s a b p :
  path_between grid s a p → adjacent a b → open_at grid b →
  path_between grid s b (p ++ [b]).
Proof.
  intros (Hh & Hl & Ho & Hlk) Hadj Hopen. repeat split.
  - destruct p; simplify_eq/=; done.
  - apply last_snoc.
  - apply Forall_app. split; [done|]. by apply Forall_singleton.
  - by eapply linked_snoc.
Qed.

Lemma path_between_single grid s : open_at grid s → path_between grid s s [s].
Proof. intros H. repeat split; try done. by apply Forall_singleton. Qed.

Lemma reach_path grid s k t :
  reach grid s k t → ∃ p, path_between grid s t p ∧ length p = S k.
Proof.
  induction 1 as [Hs|k v w _ (p & Hp & Hlen) Hadj Hw].
  - exists [s]. split; [by apply path_between_single|done].
  - exists (p ++ [w]). split; [by eapply path_between_snoc|].
    rewrite length_app. simpl. lia.
Qed.

Lemma linked_app_inv p q : linked (p ++ q) → linked p.
Proof.
  induction p as [|x [|y p] IH]; simpl; try done.
  intros [Hxy Hl]. split; [done|]. by apply IH.
Qed.

Lemma linked_last_snoc p a b : last p = Some a → linked (p ++ [b]) → adjacent a b.
Proof.
  induction p as [|x [|y p] IH]; simpl; [done|..].
  - intros [= ->] [Hadj _]. done.
  - intros Hlast [_ Hl]. by apply IH.
Qed.

Lemma path_reach grid s t p :
  path_between grid s t p → ∃ k, reach grid s k t ∧ length p = S k.
Proof.
  revert t. induction p as [|x p IH] using rev_ind; intros t (Hh & Hl & Ho & Hlk).
  - done.
  - rewrite last_snoc in Hl. simplify_eq.
    apply Forall_app in Ho as [Hop Hot]. rewrite Forall_singleton in Hot.
    destruct (last p) as [a|] eqn:Hlast.
    + destruct (IH a) as (k & Hk & Hlen).
      { repeat split; try done.
        - destruct p; simplify_eq/=; done.
        - by eapply linked_app_inv. }
      exists (S k). split.
      * eapply reach_S; [exact Hk| |exact Hot]. by eapply linked_last_snoc.
      * rewrite length_app. simpl. lia.
    + apply last_None in Hlast. subst p. simpl in Hh. simplify_eq.
      exists O. split; [by constructor|done].
Qed.

Lemma reach_heuristic grid s k t : reach grid s k t → _heuristic s t <= Z.of_nat k.
Proof.
  induction 1 as [|k v w _ IH Hadj _].
  - rewrite heuristic_self. lia.
  - pose proof (heuristic_triangle s v w) as Htri.
    unfold adjacent in Hadj. fold (_heuristic v w) in Hadj. lia.
Qed.

Lemma reach_open_start grid s k t : reach grid s k t → open_at grid s.
Proof. induction 1; done. Qed.

Lemma reach_open_end grid s k t : reach grid s k t → open_at grid t.
Proof. destruct 1; done. Qed.

(** ** The cells of a grid *)

Lemma elem_of_cells grid p : p ∈ cells grid ↔ in_bounds grid p.
Proof.
  unfold cells, in_bounds. rewrite list_elem_of_In, in_flat_map. split.
  - intros (r & Hr & Hp). apply list_elem_of_In, elem_of_seqZ in Hr.
    apply list_elem_of_In, list_elem_of_fmap in Hp as (c & -> & Hc).
    apply elem_of_seqZ in Hc. simpl. lia.
  - intros [Hr Hc]. exists p.1. split.
    + apply list_elem_of_In, elem_of_seqZ. lia.
    + apply list_elem_of_In, list_elem_of_fmap. exists p.2. split; [by destruct p|].
      apply elem_of_seqZ. lia.
Qed.

Lemma length_cells grid : length (cells grid) = (length grid * width grid)%nat.
Proof.
  unfold cells. generalize (width grid) as w. intros w.
  assert (∀ n m, length (flat_map (λ r, map (λ c, (r, c)) (seqZ 0 (Z.of_nat w)))
                  (seqZ m (Z.of_nat n))) = (n * w)%nat) as H.
  { induction n as [|n IH]; intros m; [done|].
    rewrite Nat2Z.inj_succ, (seqZ_cons m) by lia. simpl.
    rewrite length_app, length_map, length_seqZ.
    replace (Z.pred (Z.succ (Z.of_nat n))) with (Z.of_nat n) by lia.
    rewrite IH. lia. }
  apply H.
Qed.

(** ** The invariant is kept by the loop body *)

Section AstarInvariant.
Context (grid : Grid) (start goal : Coord).

Lemma gget_Some st n g : gscore st !! n = Some g → gget st n = g.
Proof. unfold gget. by intros ->. Qed.

Lemma gget_lt_Some st n k :
  gget st n <= k → k < unreached → ∃ g, gscore st !! n = Some g ∧ g <= k.
Proof.
  unfold gget. destruct (gscore st !! n) as [g|]; simpl; [eauto|lia].
Qed.

Lemma gget_le_unreached e st n :
  inv_with grid start goal e st → gget st n <= unreached.
Proof.
  intros Hinv. unfold gget. destruct (gscore st !! n) as [g|] eqn:E; simpl; [|lia].
  apply (inv_range _ _ _ _ _ Hinv) in E. lia.
Qed.

Lemma inv_with_weaken (e1 e2 : Coord → Coord → Prop) st :
  (∀ c n, e1 c n → e2 c n) →
  inv_with grid start goal e1 st → inv_with grid start goal e2 st.
Proof.
  intros He [Hs Hr Hp Hc Hx Hq Hn Ho Hu Hk]. split; try done.
  intros c gc n ?????. eapply Hx; eauto.
Qed.

(** One iteration of the [for] loop. *)
Lemma relax_inv cur n todo st :
  inv_with grid start goal (λ c m, c = cur ∧ m ∈ n :: todo) st →
  cur ∈ closed st → edge grid cur n →
  ∃ st', relax goal cur st n = Return st' ∧
         inv_with grid start goal (λ c m, c = cur ∧ m ∈ todo) st' ∧
         closed st' = closed st ∧
         (length (open_set st') ≤ S (length (open_set st)))%nat.
Proof.
  intros Hinv Hcur Hedge.
  pose proof (gget_le_unreached _ _ n Hinv) as Hle.
  destruct Hinv as [Hs Hr Hp Hc Hx Hq Hn Ho Hu Hk].
  unfold relax. destruct (decide (n ∈ closed st)) as [Hcl|Hncl].
  { exists st. split; [done|]. split; [|split; [done|lia]].
    split; try done. intros c gc m H1 H2 H3 H4 H5.
    eapply Hx; eauto. intros [-> [->|Hm]%elem_of_cons]; [done|]. apply H5. done. }
  destruct (Hc cur Hcur) as [[gc Hgc] _]. rewrite Hgc.
  pose proof (Hr _ _ Hgc) as Hgc0.
  case_bool_decide as Hlt; fold (gget st n) in Hlt.
  2:{ exists st. split; [done|]. split; [|split; [done|lia]].
      split; try done. intros c gc' m H1 H2 H3 H4 H5.
      destruct (decide (c = cur ∧ m = n)) as [[-> ->]|Hne].
      - simplify_eq. lia.
      - eapply Hx; eauto. intros [-> [->|Hm]%elem_of_cons]; [by apply Hne|].
        apply H5. done. }
  assert (n ≠ start) as Hns.
  { intros ->. rewrite (gget_Some _ _ _ Hs) in Hlt. lia. }
  assert (n ≠ cur) as Hnc by (by intros ->).
  eexists. split; [done|]. split; [|split; [done|simpl; lia]].
  split; simpl.
  - by rewrite lookup_insert_ne.
  - intros m g. destruct (decide (m = n)) as [->|Hm].
    + rewrite lookup_insert_eq. intros [= <-]. lia.
    + rewrite lookup_insert_ne by done. apply Hr.
  - intros m g. destruct (decide (m = n)) as [->|Hm].
    + rewrite !lookup_insert_eq. intros [= <-] _.
      exists cur, gc. rewrite lookup_insert_ne by done. done.
    + rewrite !lookup_insert_ne by done. intros Hg Hms.
      destruct (Hp m g Hg Hms) as (p & gp & H1 & H2 & H3 & H4 & H5).
      exists p, gp. rewrite lookup_insert_ne by (by intros <-). done.
  - intros c Hcc. destruct (Hc c Hcc) as [H1 H2]. split; [|done].
    rewrite lookup_insert_ne by (by intros <-). done.
  - intros c gc' m Hcc. rewrite lookup_insert_ne by (by intros <-).
    intros Hg Hcm Hm Hex. unfold gget. simpl.
    destruct (decide (m = n)) as [->|Hmn].
    + rewrite lookup_insert_eq. simpl.
      destruct (decide (c = cur)) as [->|Hccur]; [simplify_eq; lia|].
      assert (gget st n <= gc' + 1) as Hold; [|lia].
      eapply Hx; eauto. by intros [? _].
    + rewrite lookup_insert_ne by done. eapply Hx; eauto.
      intros [-> [->|?]%elem_of_cons]; [done|]. by apply Hex.
  - intros m g. destruct (decide (m = n)) as [->|Hm].
    + rewrite lookup_insert_eq. intros [= <-] _.
      eexists. split; [left|]. lia.
    + rewrite lookup_insert_ne by done. intros Hg Hmc.
      destruct (Hq m g Hg Hmc) as (f & Hf & Hfle). exists f. split; [by right|done].
  - intros f m [[= -> ->]|Hin]%elem_of_cons.
    + exists (gc + 1). rewrite lookup_insert_eq. split; [done|]. right. lia.
    + destruct (Hn f m Hin) as (g & Hg & Hgf).
      destruct (decide (m = n)) as [->|Hm].
      * exists (gc + 1). rewrite lookup_insert_eq. split; [done|]. right.
        rewrite (gget_Some _ _ _ Hg) in Hlt. destruct Hgf; [done|lia].
      * exists g. by rewrite lookup_insert_ne.
  - intros Hrect Hopen c gc' k Hcc. rewrite lookup_insert_ne by (by intros <-).
    by apply Ho.
  - intros m. destruct (decide (m = n)) as [->|Hm].
    + intros _. right. apply elem_of_cells. by apply edge_spec in Hedge as (_ & ? & _).
    + rewrite lookup_insert_ne by done. apply Hu.
  - intros m. destruct (decide (m = n)) as [->|Hm].
    + intros _. by apply edge_spec in Hedge as (_ & ? & _).
    + rewrite lookup_insert_ne by done. apply Hk.
Qed.

(** The whole [for] loop. *)
Lemma relax_all_inv cur nbrs st :
  inv_with grid start goal (λ c m, c = cur ∧ m ∈ nbrs) st →
  cur ∈ closed st → (∀ n, n ∈ nbrs → edge grid cur n) →
  ∃ st', relax_all goal cur st nbrs = Return st' ∧
         astar_inv grid start goal st' ∧
         closed st' = closed st ∧
         (length (open_set st') ≤ length (open_set st) + length nbrs)%nat.
Proof.
  revert st. induction nbrs as [|n nbrs IH]; intros st Hinv Hcur Hedge; simpl.
  - exists st. split; [done|]. split; [|split; [done|lia]].
    eapply inv_with_weaken; [|done]. intros c m [_ ?%elem_of_nil]. done.
  - destruct (relax_inv cur n nbrs st Hinv Hcur) as (st1 & -> & Hinv1 & Hcl1 & Hlen1).
    { apply Hedge. left. }
    simpl_bind. destruct (IH st1 Hinv1) as (st' & Hrun & Hinv' & Hcl' & Hlen').
    { by rewrite Hcl1. }
    { intros m Hm. apply Hedge. by right. }
    exists st'. split; [done|]. split; [done|]. split; [congruence|lia].
Qed.

(** Re-expanding a cell that is already closed changes nothing. *)
Lemma relax_all_settled cur gc nbrs st :
  gscore st !! cur = Some gc →
  (∀ n, n ∈ nbrs → n ∉ closed st → gget st n <= gc + 1) →
  relax_all goal cur st nbrs = Return st.
Proof.
  intros Hgc. induction nbrs as [|n nbrs IH]; intros Hall; simpl; [done|].
  assert (relax goal cur st n = Return st) as ->.
  { unfold relax. case_decide as Hcl; [done|]. rewrite Hgc.
    case_bool_decide as Hlt; [|done]. fold (gget st n) in Hlt.
    assert (gget st n <= gc + 1) by (apply Hall; [left|done]). lia. }
  simpl_bind. apply IH. intros m Hm. apply Hall. by right.
Qed.

(** On every path from [start] to a cell that is not closed lies a cell
    that is queued with its optimal cost. *)
Lemma frontier st k v :
  astar_inv grid start goal st → rectangular grid →
  reach grid start k v → Z.of_nat k < unreached ∨ all_near st →
  v ∉ closed st →
  ∃ u gu, (u ∉ closed st) ∧ gscore st !! u = Some gu ∧
          gu + _heuristic u v <= Z.of_nat k.
Proof.
  intros Hinv Hrect Hreach. induction Hreach as [Hs|k v w Hreach IH Hadj Hw].
  - intros _ Hncl. exists start, 0. rewrite heuristic_self.
    split; [done|]. split; [apply Hinv|lia].
  - intros Hk Hncl. destruct (decide (v ∈ closed st)) as [Hv|Hv].
    + destruct (inv_closed _ _ _ _ _ Hinv v Hv) as [[gv Hgv] _].
      assert (gv <= Z.of_nat k) as Hgvk.
      { eapply (inv_optimal _ _ _ _ _ Hinv); eauto. by eapply reach_open_start. }
      assert (gget st w <= gv + 1) as Hgw.
      { eapply (inv_relaxed _ _ _ _ _ Hinv); eauto. by apply edge_intro. }
      assert (gv + 1 < unreached) as Hnear.
      { destruct Hk as [Hk|Hk]; [lia|by eapply Hk]. }
      destruct (gget_lt_Some st w (gv + 1)) as (gw & Hgw' & Hle); [done|lia|].
      exists w, gw. rewrite heuristic_self. split; [done|]. split; [done|lia].
    + destruct IH as (u & gu & Hu & Hgu & Hle); [destruct Hk; [left; lia|by right]|done|].
      exists u, gu. split; [done|]. split; [done|].
      pose proof (heuristic_triangle u v w) as Htri.
      unfold adjacent in Hadj. fold (_heuristic v w) in Hadj. lia.
Qed.

(** The cell that [heappop] returns has its optimal cost. *)
Lemma optimal_at_pop st f cur rest gc k :
  astar_inv grid start goal st → rectangular grid →
  heappop (open_set st) = Some ((f, cur), rest) →
  gscore st !! cur = Some gc → reach grid start k cur → gc <= Z.of_nat k.
Proof.
  intros Hinv Hrect Hpop Hgc Hreach.
  destruct (decide (cur ∈ closed st)) as [Hcl|Hncl].
  { eapply (inv_optimal _ _ _ _ _ Hinv); eauto. by eapply reach_open_start. }
  pose proof (inv_range _ _ _ _ _ Hinv _ _ Hgc) as Hrange.
  destruct (decide (Z.of_nat k < unreached)) as [Hk|Hk]; [|lia].
  destruct (frontier st k cur Hinv Hrect Hreach (or_introl Hk) Hncl)
    as (u & gu & Hu & Hgu & Hle).
  destruct (inv_queued _ _ _ _ _ Hinv u gu Hgu Hu) as (fu & Hfu & Hfule).
  apply heappop_spec in Hpop as (Hin & Hmin & _).
  apply Hmin in Hfu. simpl in Hfu.
  destruct (inv_entry _ _ _ _ _ Hinv f cur Hin) as (g' & Hg' & Hor).
  simplify_eq. destruct Hor as [->|Hor].
  - pose proof (inv_start _ _ _ _ _ Hinv). simplify_eq. lia.
  - pose proof (heuristic_triangle u cur goal). lia.
Qed.

(** Popping [current] and adding it to [closed]. *)
Lemma pop_inv st f cur rest nbrs :
  astar_inv grid start goal st →
  heappop (open_set st) = Some ((f, cur), rest) →
  cur ≠ goal → _neighbors grid cur = Return nbrs →
  inv_with grid start goal (λ c m, c = cur ∧ m ∈ nbrs)
    {| open_set := rest; came_from := came_from st; gscore := gscore st;
       fscore := fscore st; closed := {[cur]} ∪ closed st |}.
Proof.
  intros Hinv Hpop Hgoal Hnbrs.
  pose proof (heappop_spec _ _ _ Hpop) as (Hin & Hmin & Hsub & Hother & Hlen).
  destruct (inv_entry _ _ _ _ _ Hinv f cur Hin) as (gc & Hgc & _).
  pose proof Hinv as [Hs Hr Hp Hc Hx Hq Hn Ho Hu Hk].
  split; simpl; try done.
  - intros n g Hg Hns. destruct (Hp n g Hg Hns) as (p & gp & ? & ? & ?).
    exists p, gp. split; [done|]. split; [set_solver|done].
  - intros c [->%elem_of_singleton|Hcc]%elem_of_union; [eauto|by apply Hc].
  - intros c gc' n [->%elem_of_singleton|Hcc]%elem_of_union Hg Hedge Hncl Hex.
    + exfalso. apply Hex. split; [done|].
      destruct Hedge as (l & Hl & Hnl). congruence.
    + eapply Hx; eauto. set_solver.
  - intros n g Hg Hncl. destruct (Hq n g Hg) as (f' & Hf' & Hle); [set_solver|].
    exists f'. split; [|done]. apply Hother; [done|].
    intros [= -> ->]. set_solver.
  - intros f' n Hin'. apply Hn. by apply Hsub.
  - intros Hrect Hopen c gc' k [->%elem_of_singleton|Hcc]%elem_of_union Hg Hreach.
    + eapply optimal_at_pop; eauto.
    + eapply Ho; eauto.
Qed.

End AstarInvariant.

(** ** Termination measure and the predecessor walk *)

Lemma filter_length_lt {A} (P Q : A → Prop) `{∀ x, Decision (P x)}
    `{∀ x, Decision (Q x)} (l : list A) (a : A) :
  (∀ x, P x → Q x) → a ∈ l → Q a → ¬ P a →
  (length (filter P l) < length (filter Q l))%nat.
Proof.
  intros HPQ Ha HQa HPa.
  assert (∀ l', length (filter P l') ≤ length (filter Q l'))%nat as Hle.
  { induction l' as [|x l' IH]; [done|]. rewrite !filter_cons.
    destruct (decide (P x)) as [HP|HP].
    - rewrite decide_True by auto. simpl. lia.
    - destruct (decide (Q x)); simpl; lia. }
  induction l as [|x l IH]; [by apply elem_of_nil in Ha|].
  rewrite !filter_cons. apply elem_of_cons in Ha as [<-|Ha].
  - rewrite decide_False, decide_True by done. simpl. specialize (Hle l). lia.
  - specialize (IH Ha). destruct (decide (P x)) as [HP|HP].
    + rewrite decide_True by auto. simpl. lia.
    + destruct (decide (Q x)); simpl; lia.
Qed.

Section AstarLoop.
Context (grid : Grid) (start goal : Coord).

Lemma pending_close st st1 cur :
  closed st1 = {[cur]} ∪ closed st → cur ∈ universe grid start →
  cur ∉ closed st →
  (pending grid start st1 < pending grid start st)%nat.
Proof.
  intros Hcl Hin Hncl. unfold pending. rewrite Hcl.
  eapply (filter_length_lt _ _ _ cur); [set_solver|done|done|set_solver].
Qed.

(** The loop body keeps the invariant and lowers the measure. *)
Lemma loop_body st f cur rest nbrs :
  astar_inv grid start goal st →
  heappop (open_set st) = Some ((f, cur), rest) →
  cur ≠ goal → _neighbors grid cur = Return nbrs →
  ∃ st2,
    relax_all goal cur
      {| open_set := rest; came_from := came_from st; gscore := gscore st;
         fscore := fscore st; closed := {[cur]} ∪ closed st |} nbrs = Return st2 ∧
    astar_inv grid start goal st2 ∧
    (measure grid start st2 < measure grid start st)%nat.
Proof.
  intros Hinv Hpop Hgoal Hnbrs.
  pose proof (pop_inv grid start goal st f cur rest nbrs Hinv Hpop Hgoal Hnbrs) as Hmid.
  pose proof (heappop_spec _ _ _ Hpop) as (Hin & _ & _ & _ & Hlen).
  destruct (inv_entry _ _ _ _ _ Hinv f cur Hin) as (gc & Hgc & _).
  pose proof (neighbors_spec _ _ _ Hnbrs) as [Hlen4 _].
  assert (cur ∈ universe grid start) as Hcu by (apply Hinv; eauto).
  destruct (relax_all_inv grid start goal cur nbrs _ Hmid)
    as (st2 & Hrun & Hinv2 & Hcl2 & Hlen2).
  { simpl. set_solver. }
  { intros n Hn. by exists nbrs. }
  exists st2. split; [done|]. split; [done|]. simpl in *.
  unfold measure. destruct (decide (cur ∈ closed st)) as [Hcl|Hncl].
  - rewrite (relax_all_settled goal cur gc) in Hrun; [|done|]; cycle 1.
    { simpl. intros n Hn Hncl. unfold gget. simpl. fold (gget st n).
      eapply (inv_relaxed _ _ _ _ _ Hinv); eauto; [by exists nbrs|set_solver]. }
    injection Hrun as <-. simpl. unfold pending. simpl.
    replace ({[cur]} ∪ closed st) with (closed st) by set_solver. lia.
  - pose proof (pending_close st st2 cur Hcl2 Hcu Hncl). lia.
Qed.

End AstarLoop.

Section AstarResult.
Context (grid : Grid) (start goal : Coord).

(** The walk from [x] back to [start] takes as many steps as [gscore[x]]. *)
Lemma walk_back_trail st :
  astar_inv grid start goal st →
  ∀ (k : nat) x pre fuel,
    gscore st !! x = Some (Z.of_nat k) → (k < fuel)%nat →
    ∃ tail, walk_back fuel (came_from st) start (pre ++ [x])
              = Return (pre ++ x :: tail) ∧
            length tail = k ∧ trail grid start x tail.
Proof.
  intros Hinv. induction k as [|k IH]; intros x pre fuel Hg Hfuel.
  - destruct fuel as [|fuel]; [lia|]. simpl. rewrite last_snoc.
    assert (x = start) as ->.
    { destruct (decide (x = start)) as [|Hne]; [done|].
      destruct (inv_parent _ _ _ _ _ Hinv x _ Hg Hne) as (p & gp & _ & _ & Hgp & Heq & _).
      apply (inv_range _ _ _ _ _ Hinv) in Hgp. lia. }
    rewrite decide_True by done. exists []. done.
  - destruct fuel as [|fuel]; [lia|]. simpl. rewrite last_snoc.
    assert (x ≠ start) as Hne.
    { intros ->. rewrite (inv_start _ _ _ _ _ Hinv) in Hg. simplify_eq; lia. }
    rewrite decide_False by done.
    destruct (inv_parent _ _ _ _ _ Hinv x _ Hg Hne) as (p & gp & Hcf & _ & Hgp & Heq & Hedge).
    rewrite Hcf. assert (gp = Z.of_nat k) as -> by lia.
    destruct (IH p (pre ++ [x]) fuel Hgp) as (tail & Hrun & Hlen & Htrail); [lia|].
    exists (p :: tail). rewrite Hrun, <- app_assoc. simpl.
    split; [done|]. split; [by rewrite Hlen|done].
Qed.

(** The cells on the walk are distinct keys of [came_from]. *)
Lemma trail_size st :
  astar_inv grid start goal st →
  ∀ (k : nat) x, gscore st !! x = Some (Z.of_nat k) →
    ∃ X : gset Coord, size X = k ∧ X ⊆ dom (came_from st) ∧
      ∀ y, y ∈ X → ∃ gy, gscore st !! y = Some gy ∧ 1 <= gy <= Z.of_nat k.
Proof.
  intros Hinv. induction k as [|k IH]; intros x Hg.
  - exists ∅. split; [done|]. split; [done|]. set_solver.
  - assert (x ≠ start) as Hne.
    { intros ->. rewrite (inv_start _ _ _ _ _ Hinv) in Hg. simplify_eq; lia. }
    destruct (inv_parent _ _ _ _ _ Hinv x _ Hg Hne) as (p & gp & Hcf & _ & Hgp & Heq & _).
    assert (gp = Z.of_nat k) as -> by lia.
    destruct (IH p Hgp) as (X & Hsize & Hsub & Hall).
    assert (x ∉ X) as Hx.
    { intros (gy & Hgy & Hle)%Hall. simplify_eq; lia. }
    exists ({[x]} ∪ X). split; [|split].
    + rewrite size_union by set_solver. rewrite size_singleton. lia.
    + apply union_subseteq. split; [|done].
      apply singleton_subseteq_l, elem_of_dom. eauto.
    + intros y [->%elem_of_singleton|Hy]%elem_of_union.
      * exists (Z.of_nat (S k)). split; [done|lia].
      * destruct (Hall y Hy) as (gy & ? & ?). exists gy. split; [done|lia].
Qed.

Lemma walk_back_goal st g :
  astar_inv grid start goal st → gscore st !! goal = Some g →
  ∃ tail, walk_back (S (size (came_from st))) (came_from st) start [goal]
            = Return (goal :: tail) ∧
          Z.of_nat (length tail) = g ∧ trail grid start goal tail.
Proof.
  intros Hinv Hg.
  pose proof (inv_range _ _ _ _ _ Hinv _ _ Hg) as Hrange.
  assert (g = Z.of_nat (Z.to_nat g)) as Hgk by lia. rewrite Hgk in Hg.
  destruct (trail_size st Hinv _ _ Hg) as (X & Hsize & Hsub & _).
  apply subseteq_size in Hsub. rewrite size_dom in Hsub.
  destruct (walk_back_trail st Hinv _ goal [] (S (size (came_from st))) Hg)
    as (tail & Hrun & Hlen & Htrail); [lia|].
  exists tail. split; [done|]. split; [lia|done].
Qed.

Lemma trail_path tail x :
  open_at grid start → trail grid start x tail →
  path_between grid start x (reverse (x :: tail)).
Proof.
  intros Hopen. revert x. induction tail as [|p tail IH]; intros x; simpl.
  - intros ->. by apply path_between_single.
  - intros [Hedge Htrail]. rewrite reverse_cons.
    apply edge_spec in Hedge as (Hadj & _ & Hox).
    eapply path_between_snoc; eauto.
Qed.

Lemma astar_loop_S fuel st :
  astar_loop (S fuel) grid start goal st =
  match heappop (open_set st) with
  | None => Return None
  | Some ((_, current), rest) =>
      if decide (current = goal) then
        path ← walk_back (S (size (came_from st))) (came_from st) start [current];
        Return (Some (reverse path))
      else
        nbrs ← _neighbors grid current;
        st2 ← relax_all goal current
                {| open_set := rest; came_from := came_from st;
                   gscore := gscore st; fscore := fscore st;
                   closed := {[current]} ∪ closed st |} nbrs;
        astar_loop fuel grid start goal st2
  end.
Proof. reflexivity. Qed.

Lemma astar_loop_post fuel st :
  astar_inv grid start goal st → (measure grid start st < fuel)%nat →
  loop_post grid start goal (astar_loop fuel grid start goal st).
Proof.
  revert st. induction fuel as [|fuel IH]; intros st Hinv Hfuel; [lia|].
  rewrite astar_loop_S.
  destruct (heappop (open_set st)) as [[[f cur] rest]|] eqn:Hpop.
  - destruct (decide (cur = goal)) as [->|Hne].
    + pose proof (heappop_spec _ _ _ Hpop) as (Hin & _).
      destruct (inv_entry _ _ _ _ _ Hinv f goal Hin) as (g & Hg & _).
      destruct (walk_back_goal st g Hinv Hg) as (tail & -> & Hlen & Htrail).
      simpl_bind. simpl. exists st, f, rest, tail. rewrite Hlen. done.
    + destruct (neighbors_cases grid cur) as [[nbrs Hnbrs]|Hraise].
      * rewrite Hnbrs. simpl_bind.
        destruct (loop_body grid start goal st f cur rest nbrs Hinv Hpop Hne Hnbrs)
          as (st2 & -> & Hinv2 & Hlt).
        simpl_bind. apply IH; [done|lia].
      * rewrite Hraise. simpl_bind. simpl. eauto.
  - simpl. exists st. split; [done|]. by apply heappop_None.
Qed.

Lemma astar_init_inv : astar_inv grid start goal (astar_init start goal).
Proof.
  split; simpl.
  - apply lookup_singleton_eq.
  - intros n g [-> <-]%lookup_singleton_Some. unfold unreached. lia.
  - intros n g [-> <-]%lookup_singleton_Some. done.
  - set_solver.
  - set_solver.
  - intros n g [-> <-]%lookup_singleton_Some _. exists 0.
    split; [by left|]. pose proof (heuristic_nonneg n goal). lia.
  - intros f n [= -> ->]%list_elem_of_singleton. exists 0.
    split; [apply lookup_singleton_eq|by left].
  - set_solver.
  - intros n [g [-> <-]%lookup_singleton_Some]. by left.
  - intros n [x Hx]. by rewrite lookup_empty in Hx.
Qed.

Lemma astar_init_measure :
  (measure grid start (astar_init start goal) < astar_fuel grid)%nat.
Proof.
  assert (length (universe grid start) = S (length grid * width grid)) as Hlen.
  { unfold universe. simpl. by rewrite length_cells. }
  unfold measure, pending, astar_fuel.
  change (length (open_set (astar_init start goal))) with 1%nat.
  match goal with
  | |- context [length (@filter _ _ _ ?P ?H ?l)] =>
      pose proof (@length_filter _ P H l) as Hle
  end.
  lia.
Qed.

End AstarResult.

(** ** What [astar] returns *)

Lemma astar_loop_result grid start goal :
  loop_post grid start goal
    (astar_loop (astar_fuel grid) grid start goal (astar_init start goal)).
Proof.
  apply astar_loop_post; [apply astar_init_inv|apply astar_init_measure].
Qed.

(** The guard of [astar], by cases. *)
Lemma astar_cases grid start goal :
  (cell grid start = Raise IndexError ∧ astar grid start goal = Raise IndexError) ∨
  (∃ v, cell grid start = Return v ∧ v ≠ 1 ∧ astar grid start goal = Return None) ∨
  (cell grid start = Return 1 ∧ cell grid goal = Raise IndexError ∧
   astar grid start goal = Raise IndexError) ∨
  (∃ v, cell grid start = Return 1 ∧ cell grid goal = Return v ∧ v ≠ 1 ∧
        astar grid start goal = Return None) ∨
  (cell grid start = Return 1 ∧ cell grid goal = Return 1 ∧
   astar grid start goal =
     astar_loop (astar_fuel grid) grid start goal (astar_init start goal)).
Proof.
  unfold astar.
  destruct (cell_cases grid start) as [[vs Hs]|Hs]; rewrite Hs; simpl_bind; [|by left].
  right. case_bool_decide as Hvs; [left; eauto|]. right.
  assert (vs = 1) as -> by (destruct (decide (vs = 1)); done).
  destruct (cell_cases grid goal) as [[vg Hg]|Hg]; rewrite Hg; simpl_bind; [|by left].
  right. case_bool_decide as Hvg; [left; eauto|]. right.
  assert (vg = 1) as -> by (destruct (decide (vg = 1)); done). done.
Qed.

Lemma astar_Some_loop grid start goal p :
  astar grid start goal = Return (Some p) →
  cell grid start = Return 1 ∧ cell grid goal = Return 1 ∧
  astar_loop (astar_fuel grid) grid start goal (astar_init start goal)
    = Return (Some p).
Proof.
  intros Hrun.
  destruct (astar_cases grid start goal)
    as [[_ H]|[(v & _ & _ & H)|[(_ & _ & H)|[(v & _ & _ & _ & H)|(Hs & Hg & H)]]]];
    rewrite H in Hrun; try done.
Qed.

(** [astar] never exhausts the fuel of the embedding. *)
Lemma astar_terminates grid start goal : astar grid start goal ≠ OutOfFuel.
Proof.
  intros Hrun.
  destruct (astar_cases grid start goal)
    as [[_ H]|[(v & _ & _ & H)|[(_ & _ & H)|[(v & _ & _ & _ & H)|(Hs & Hg & H)]]]];
    rewrite H in Hrun; try done.
  pose proof (astar_loop_result grid start goal) as Hpost.
  rewrite Hrun in Hpost. done.
Qed.

(** The only exception [astar] can raise is [IndexError]. *)
Lemma astar_raises grid start goal e :
  astar grid start goal = Raise e → e = IndexError.
Proof.
  intros Hrun.
  destruct (astar_cases grid start goal)
    as [[_ H]|[(v & _ & _ & H)|[(_ & _ & H)|[(v & _ & _ & _ & H)|(Hs & Hg & H)]]]];
    rewrite H in Hrun; try congruence.
  pose proof (astar_loop_result grid start goal) as Hpost.
  rewrite Hrun in Hpost. by destruct Hpost.
Qed.

(** On a rectangular grid and cells inside it, [astar] returns. *)
Lemma astar_total grid start goal :
  rectangular grid → in_bounds grid start → in_bounds grid goal →
  ∃ r, astar grid start goal = Return r.
Proof.
  intros Hrect Hs Hg.
  destruct (in_bounds_cell grid start Hrect Hs) as [vs Hvs].
  destruct (in_bounds_cell grid goal Hrect Hg) as [vg Hvg].
  destruct (astar_cases grid start goal)
    as [[? H]|[(v & _ & _ & H)|[(_ & ? & H)|[(v & _ & _ & _ & H)|(_ & _ & H)]]]];
    try congruence; eauto.
  pose proof (astar_loop_result grid start goal) as Hpost.
  rewrite <- H in Hpost.
  destruct (astar grid start goal) as [r|e|]; [eauto| |done].
  destruct Hpost as [_ [c Hc]].
  destruct (neighbors_total grid c Hrect) as [l Hl]; [|congruence].
  intros ->. destruct Hs as [Hs _]. simpl in Hs. lia.
Qed.

(** A returned path runs from [start] to [goal] through Open cells. *)
Lemma astar_sound grid start goal p :
  0 <= start.1 → 0 <= start.2 →
  astar grid start goal = Return (Some p) → path_between grid start goal p.
Proof.
  intros Hr Hc (Hs & Hg & Hrun)%astar_Some_loop.
  pose proof (astar_loop_result grid start goal) as Hpost.
  rewrite Hrun in Hpost. destruct Hpost as (st & f & rest & tail & _ & _ & _ & Htrail & ->).
  apply trail_path; [|done]. by apply open_at_cell.
Qed.

(** A returned path is no longer than any other path. *)
Lemma astar_optimal grid start goal p q :
  rectangular grid → 0 <= start.1 → 0 <= start.2 →
  astar grid start goal = Return (Some p) →
  path_between grid start goal q → (length p ≤ length q)%nat.
Proof.
  intros Hrect Hr Hc (Hs & Hg & Hrun)%astar_Some_loop Hq.
  pose proof (astar_loop_result grid start goal) as Hpost.
  rewrite Hrun in Hpost.
  destruct Hpost as (st & f & rest & tail & Hinv & Hpop & Hgoal & Htrail & ->).
  apply path_reach in Hq as (k & Hk & ->).
  pose proof (optimal_at_pop grid start goal st f goal rest _ k Hinv Hrect Hpop Hgoal Hk).
  rewrite length_reverse. simpl. lia.
Qed.

(** A returned path has fewer than [unreached] steps. *)
Lemma astar_length_bound grid start goal p :
  astar grid start goal = Return (Some p) → Z.of_nat (length p) <= unreached.
Proof.
  intros (Hs & Hg & Hrun)%astar_Some_loop.
  pose proof (astar_loop_result grid start goal) as Hpost.
  rewrite Hrun in Hpost.
  destruct Hpost as (st & f & rest & tail & Hinv & Hpop & Hgoal & Htrail & ->).
  apply (inv_range _ _ _ _ _ Hinv) in Hgoal.
  rewrite length_reverse. simpl. lia.
Qed.

(** When the loop gives up, every path between the endpoints has at least
    [unreached] steps. *)
Lemma astar_None_far grid start goal q :
  rectangular grid →
  cell grid start = Return 1 → cell grid goal = Return 1 →
  astar grid start goal = Return None →
  path_between grid start goal q → unreached < Z.of_nat (length q).
Proof.
  intros Hrect Hs Hg Hrun Hq.
  destruct (astar_cases grid start goal)
    as [[_ H]|[(v & ? & ? & H)|[(_ & ? & H)|[(v & _ & ? & ? & H)|(_ & _ & H)]]]];
    try congruence.
  pose proof (astar_loop_result grid start goal) as Hpost.
  rewrite <- H, Hrun in Hpost. destruct Hpost as (st & Hinv & Hempty).
  apply path_reach in Hq as (k & Hk & ->).
  destruct (decide (Z.of_nat k < unreached)) as [Hlt|]; [|lia].
  destruct (frontier grid start goal st k goal Hinv Hrect Hk (or_introl Hlt))
    as (u & gu & Hu & Hgu & _).
  { intros Hcl. by apply (inv_closed _ _ _ _ _ Hinv) in Hcl as [_ ?]. }
  destruct (inv_queued _ _ _ _ _ Hinv u gu Hgu Hu) as (fu & Hfu & _).
  rewrite Hempty in Hfu. by apply elem_of_nil in Hfu.
Qed.

(** ** Grids far smaller than the default cost *)

Lemma size_list_to_set_le (l : list Coord) :
  (size (list_to_set l : gset Coord) ≤ length l)%nat.
Proof.
  induction l as [|x l IH].
  { change (list_to_set [] : gset Coord) with (∅ : gset Coord).
    by rewrite size_empty. }
  change (list_to_set (x :: l) : gset Coord) with ({[x]} ∪ list_to_set l : gset Coord).
  rewrite size_union_alt, size_singleton. simpl.
  pose proof (subseteq_size (list_to_set l ∖ {[x]}) (list_to_set l : gset Coord)) as Hle.
  ospecialize* Hle; [set_solver|]. lia.
Qed.

Lemma gscore_small grid start goal st x g :
  astar_inv grid start goal st → gscore st !! x = Some g →
  g <= Z.of_nat (length grid * width grid).
Proof.
  intros Hinv Hg.
  pose proof (inv_range _ _ _ _ _ Hinv _ _ Hg) as Hrange.
  assert (g = Z.of_nat (Z.to_nat g)) as Hgk by lia. rewrite Hgk in Hg.
  destruct (trail_size grid start goal st Hinv _ _ Hg) as (X & Hsize & Hsub & _).
  assert (X ⊆ list_to_set (cells grid)) as Hcells.
  { intros y Hy. apply elem_of_list_to_set, elem_of_cells.
    apply (inv_keys _ _ _ _ _ Hinv). apply elem_of_dom. by apply Hsub. }
  apply subseteq_size in Hcells.
  pose proof (size_list_to_set_le (cells grid)) as Hle.
  rewrite length_cells in Hle. lia.
Qed.

(** On a grid with fewer cells than the default cost allows for, the loop
    gives up only when the endpoints are disconnected. *)
Lemma astar_None_disconnected grid start goal :
  rectangular grid →
  Z.of_nat (length grid * width grid) + 1 < unreached →
  cell grid start = Return 1 → cell grid goal = Return 1 →
  astar grid start goal = Return None → ¬ connected grid start goal.
Proof.
  intros Hrect Hsmall Hs Hg Hrun [q Hq].
  destruct (astar_cases grid start goal)
    as [[_ H]|[(v & ? & ? & H)|[(_ & ? & H)|[(v & _ & ? & ? & H)|(_ & _ & H)]]]];
    try congruence.
  pose proof (astar_loop_result grid start goal) as Hpost.
  rewrite <- H, Hrun in Hpost. destruct Hpost as (st & Hinv & Hempty).
  apply path_reach in Hq as (k & Hk & _).
  destruct (frontier grid start goal st k goal Hinv Hrect Hk)
    as (u & gu & Hu & Hgu & _).
  { right. intros n g Hn. pose proof (gscore_small _ _ _ _ _ _ Hinv Hn). lia. }
  { intros Hcl. by apply (inv_closed _ _ _ _ _ Hinv) in Hcl as [_ ?]. }
  destruct (inv_queued _ _ _ _ _ Hinv u gu Hgu Hu) as (fu & Hfu & _).
  rewrite Hempty in Hfu. by apply elem_of_nil in Hfu.
Qed.

Lemma path_between_open grid s t p :
  path_between grid s t p → open_at grid s ∧ open_at grid t ∧ p ≠ [].
Proof.
  intros (Hh & Hl & Ho & _). rewrite Forall_forall in Ho. split; [|split].
  - apply Ho. destruct p; simplify_eq/=. left.
  - apply Ho. apply last_Some_elem_of in Hl. done.
  - by intros ->.
Qed.

(** There, [astar] answers whether the endpoints are connected. *)
Lemma astar_decides grid start goal :
  rectangular grid →
  Z.of_nat (length grid * width grid) + 1 < unreached →
  in_bounds grid start → in_bounds grid goal →
  ∃ r, astar grid start goal = Return r ∧
       (truthy r = true ↔ connected grid start goal).
Proof.
  intros Hrect Hsmall Hs Hg.
  destruct (astar_total grid start goal Hrect Hs Hg) as [r Hr].
  exists r. split; [done|].
  destruct r as [p|].
  - apply astar_sound in Hr; [|apply Hs..].
    pose proof (path_between_open _ _ _ _ Hr) as (_ & _ & Hne).
    split; [by exists p|]. intros _. by destruct p.
  - split; [done|]. intros Hconn. exfalso.
    assert (open_at grid start ∧ open_at grid goal) as [Hos Hog].
    { destruct Hconn as [q Hq]. by apply path_between_open in Hq as (? & ? & _). }
    apply open_at_cell in Hos as (_ & _ & Hos).
    apply open_at_cell in Hog as (_ & _ & Hog).
    exact (astar_None_disconnected grid start goal Hrect Hsmall Hos Hog Hr Hconn).
Qed.

(** ** Concrete grids *)

Lemma rectangular_Forall grid :
  Forall (λ row, length row = width grid) grid → rectangular grid.
Proof. intros H row Hrow. by eapply Forall_forall in H. Qed.

Lemma corridor_rectangular n : rectangular (corridor n).
Proof. apply rectangular_Forall. by repeat constructor. Qed.

Lemma corridor_open n (c : nat) : (c < n)%nat → open_at (corridor n) (0, Z.of_nat c).
Proof.
  intros Hc. split; [done|]. split; [simpl; lia|].
  exists (replicate n 1). split; [done|]. simpl. rewrite Nat2Z.id.
  by apply lookup_replicate_2.
Qed.

Lemma corridor_reach n (c : nat) :
  (c < n)%nat → reach (corridor n) (0, 0) c (0, Z.of_nat c).
Proof.
  induction c as [|c IH]; intros Hc.
  - constructor. by apply (corridor_open n O).
  - eapply reach_S; [apply IH; lia| |by apply corridor_open].
    unfold adjacent. simpl. lia.
Qed.

(** In a corridor longer than the default cost, the far end is connected to
    the near end and [astar] finds no path. *)
Lemma corridor_unreached n :
  unreached < Z.of_nat n →
  in_bounds (corridor n) (0, 0) ∧ in_bounds (corridor n) (0, Z.of_nat n - 1) ∧
  open_at (corridor n) (0, 0) ∧ open_at (corridor n) (0, Z.of_nat n - 1) ∧
  connected (corridor n) (0, 0) (0, Z.of_nat n - 1) ∧
  astar (corridor n) (0, 0) (0, Z.of_nat n - 1) = Return None.
Proof.
  intros Hn. pose proof (corridor_rectangular n) as Hrect.
  assert (0 < n)%nat as Hpos by (unfold unreached in Hn; lia).
  assert (Z.of_nat n - 1 = Z.of_nat (n - 1)) as Hlast by lia.
  assert (in_bounds (corridor n) (0, 0) ∧ in_bounds (corridor n) (0, Z.of_nat n - 1))
    as [Hs Hg].
  { unfold in_bounds, width, corridor. cbn [length hd fst snd].
    rewrite length_replicate. lia. }
  pose proof (corridor_open n O Hpos) as Hos.
  assert (open_at (corridor n) (0, Z.of_nat n - 1)) as Hog.
  { rewrite Hlast. apply corridor_open. lia. }
  split; [exact Hs|]. split; [exact Hg|]. split; [exact Hos|]. split; [exact Hog|].
  split.
  - rewrite Hlast.
    destruct (reach_path _ _ _ _ (corridor_reach n (n - 1) ltac:(lia)))
      as (p & Hp & _).
    by exists p.
  - destruct (astar_total _ _ _ Hrect Hs Hg) as [[p|] Hr]; [|exact Hr]. exfalso.
    pose proof (astar_length_bound _ _ _ _ Hr) as Hshort.
    apply astar_sound in Hr; [|done..].
    apply path_reach in Hr as (k & Hk & Hlen).
    apply reach_heuristic in Hk. unfold _heuristic in Hk. cbn [fst snd] in Hk. lia.
Qed.

(** ** Writing and restoring cells *)

Lemma norm_index_lt n i k : norm_index n i = Some k → (k < n)%nat.
Proof.
  unfold norm_index. repeat case_bool_decide; intros; simplify_eq; lia.
Qed.

Lemma getitem_Return {A} (l : list A) i x :
  getitem l i = Return x →
  ∃ k, norm_index (length l) i = Some k ∧ l !! k = Some x.
Proof.
  unfold getitem. destruct (norm_index _ _) as [k|]; [|done].
  destruct (l !! k) eqn:E; [|done]. intros [= <-]. eauto.
Qed.

Lemma getitem_intro {A} (l : list A) i k x :
  norm_index (length l) i = Some k → l !! k = Some x → getitem l i = Return x.
Proof. unfold getitem. by intros -> ->. Qed.

Lemma setitem_cases {A} (l : list A) i x :
  (∃ l', setitem l i x = Return l') ∨ setitem l i x = Raise IndexError.
Proof. unfold setitem. destruct (norm_index _ _); eauto. Qed.

Lemma cell_Return grid p v :
  cell grid p = Return v →
  ∃ kr kc row, norm_index (length grid) p.1 = Some kr ∧ grid !! kr = Some row ∧
               norm_index (length row) p.2 = Some kc ∧ row !! kc = Some v.
Proof.
  unfold cell. destruct (getitem grid p.1) as [row| |] eqn:Hrow; simpl_bind; try done.
  intros Hc. apply getitem_Return in Hrow as (kr & ? & ?).
  apply getitem_Return in Hc as (kc & ? & ?). by exists kr, kc, row.
Qed.

Lemma set_cell_Return grid p v grid' :
  set_cell grid p v = Return grid' →
  ∃ kr kc row, norm_index (length grid) p.1 = Some kr ∧ grid !! kr = Some row ∧
               norm_index (length row) p.2 = Some kc ∧
               grid' = <[kr := <[kc := v]> row]> grid.
Proof.
  unfold set_cell. destruct (getitem grid p.1) as [row| |] eqn:Hrow; simpl_bind; try done.
  apply getitem_Return in Hrow as (kr & Hkr & Hr).
  unfold setitem. destruct (norm_index (length row) p.2) as [kc|] eqn:Hkc; simpl_bind; [|done].
  rewrite Hkr. intros [= <-]. by exists kr, kc, row.
Qed.

Lemma set_cell_cases grid p v :
  (∃ grid', set_cell grid p v = Return grid') ∨ set_cell grid p v = Raise IndexError.
Proof.
  unfold set_cell. destruct (getitem_cases grid p.1) as [[row ->]| ->]; simpl_bind; [|by right].
  destruct (setitem_cases row p.2 v) as [[row' ->]| ->]; simpl_bind; [|by right].
  apply setitem_cases.
Qed.

Lemma set_cell_shape grid p v grid' :
  set_cell grid p v = Return grid' → shape grid' = shape grid.
Proof.
  intros (kr & kc & row & _ & Hr & _ & ->)%set_cell_Return. unfold shape.
  rewrite list_fmap_insert, length_insert. apply list_insert_id.
  by rewrite list_lookup_fmap, Hr.
Qed.

(** Writing a cell and then writing back the value it held gives the grid
    back. *)
Lemma set_cell_restore grid p v w grid1 :
  cell grid p = Return v → set_cell grid p w = Return grid1 →
  set_cell grid1 p v = Return grid.
Proof.
  intros (kr & kc & row & Hkr & Hr & Hkc & Hv)%cell_Return
         (kr' & kc' & row' & Hkr' & Hr' & Hkc' & ->)%set_cell_Return.
  simplify_eq. unfold set_cell.
  pose proof (norm_index_lt _ _ _ Hkr) as Hlt.
  rewrite (getitem_intro _ _ kr (<[kc:=w]> row)); cycle 1.
  { by rewrite length_insert. }
  { by apply list_lookup_insert_eq. }
  simpl_bind. unfold setitem. rewrite !length_insert, Hkc. simpl_bind. rewrite Hkr.
  f_equal. rewrite !list_insert_insert_eq, (list_insert_id row kc v Hv).
  by apply list_insert_id.
Qed.

Lemma shape_rectangular g g' : shape g' = shape g → rectangular g → rectangular g'.
Proof.
  unfold shape, rectangular, width. intros Hsh Hrect row [i Hi]%list_elem_of_lookup.
  assert ((length <$> g') !! i = Some (length row)) as Hl by (by rewrite list_lookup_fmap, Hi).
  rewrite Hsh, list_lookup_fmap in Hl.
  destruct (g !! i) as [row0|] eqn:Hrow0; [|done]. simpl in Hl.
  assert (length row = length row0) as Hlen by congruence.
  assert (length (hd [] g') = length (hd [] g)) as Hw.
  { destruct g as [|r0 g], g' as [|r0' g']; simplify_eq/=; done. }
  rewrite Hw, Hlen. apply Hrect. by eapply list_elem_of_lookup_2.
Qed.

Lemma shape_size g g' :
  shape g' = shape g → length g' = length g ∧ width g' = width g.
Proof.
  unfold shape, width. intros Hsh. split.
  - by rewrite <- (length_fmap length g'), Hsh, length_fmap.
  - destruct g as [|r0 g], g' as [|r0' g']; simplify_eq/=; done.
Qed.

Lemma shape_in_bounds g g' p : shape g' = shape g → in_bounds g p → in_bounds g' p.
Proof.
  intros [Hl Hw]%shape_size. unfold in_bounds. by rewrite Hl, Hw.
Qed.

(** ** The mutation loops *)

Lemma seq_reading {A B} (f : Grid → res A) (k : A → M B) g :
  seq (reading f) k g =
  match f g with
  | Return a => k a g
  | Raise e => (Raise e, g)
  | OutOfFuel => (OutOfFuel, g)
  end.
Proof. unfold seq, reading. by destruct (f g). Qed.

Lemma seq_write_cell {B} c v (k : unit → M B) g :
  seq (write_cell c v) k g =
  match set_cell g c v with
  | Return g' => k () g'
  | Raise e => (Raise e, g)
  | OutOfFuel => (OutOfFuel, g)
  end.
Proof. unfold seq, write_cell. by destruct (set_cell g c v). Qed.

Lemma seq_ret {A B} (a : A) (k : A → M B) g : seq (ret a) k g = k a g.
Proof. reflexivity. Qed.

Lemma seq_raise {A B} e (k : A → M B) g : seq (raise e) k g = (Raise e, g).
Proof. reflexivity. Qed.

Section Mutation.
Context (astar_fn : path_finder) (start end_ : Coord).

Lemma reverting_stop g (b : bool) g1 :
  shape g1 = shape g → (b = false → g1 = g) →
  reverting astar_fn g (Return b, g1).
Proof.
  intros Hsh Hb. split; [done|]. split; [|done]. simpl. intros [= ->]. by apply Hb.
Qed.

Lemma reverting_index_error g g1 :
  shape g1 = shape g → reverting astar_fn g (Raise IndexError, g1).
Proof. intros Hsh. split; [done|]. split; done. Qed.

Lemma reverting_oracle_error g g1 e :
  shape g1 = shape g → astar_fn g1 start end_ = Raise e →
  reverting astar_fn g (Raise e, g1).
Proof.
  intros Hsh He. split; [done|]. split; [done|].
  intros Hno [= ->]. by apply Hno in He.
Qed.

Lemma reverting_out_of_fuel g g1 :
  shape g1 = shape g → reverting astar_fn g (OutOfFuel, g1).
Proof. intros Hsh. split; [done|]. split; done. Qed.

Lemma severing_of_reverting g r g1 :
  reverting astar_fn g (r, g1) → r ≠ Return true →
  severing astar_fn start end_ g (r, g1).
Proof. intros Hrev Hr. split; [done|]. done. Qed.

(** The first round of [make_unsolvable]. *)
Lemma try_block_severing max_tries cs tries g :
  severing astar_fn start end_ g
    (try_block astar_fn start end_ max_tries cs tries g).
Proof.
  revert tries g. induction cs as [|c cs IH]; intros tries g; cbn [try_block].
  { apply severing_of_reverting; [by apply reverting_stop|done]. }
  case_bool_decide.
  { apply severing_of_reverting; [by apply reverting_stop|done]. }
  rewrite seq_reading.
  destruct (cell_cases g c) as [[saved Hsaved]|Hraise]; rewrite ?Hsaved, ?Hraise; cycle 1.
  { apply severing_of_reverting; [by apply reverting_index_error|done]. }
  rewrite seq_write_cell.
  destruct (set_cell_cases g c 0) as [[g1 Hg1]|Hraise]; rewrite ?Hg1, ?Hraise; cycle 1.
  { apply severing_of_reverting; [by apply reverting_index_error|done]. }
  pose proof (set_cell_shape _ _ _ _ Hg1) as Hsh.
  rewrite seq_reading. destruct (astar_fn g1 start end_) as [p|e|] eqn:Hp.
  - destruct (truthy p) eqn:Ht; cbn [negb].
    + rewrite seq_write_cell, (set_cell_restore _ _ _ _ _ Hsaved Hg1). apply IH.
    + split; [by apply reverting_stop|]. intros _. by exists p.
  - apply severing_of_reverting; [by eapply reverting_oracle_error|done].
  - apply severing_of_reverting; [by apply reverting_out_of_fuel|done].
Qed.

(** The second round of [make_unsolvable]. *)
Lemma try_block_each_severing cs g :
  severing astar_fn start end_ g (try_block_each astar_fn start end_ cs g).
Proof.
  revert g. induction cs as [|c cs IH]; intros g; cbn [try_block_each].
  { apply severing_of_reverting; [by apply reverting_stop|done]. }
  rewrite seq_reading.
  destruct (cell_cases g c) as [[saved Hsaved]|Hraise]; rewrite ?Hsaved, ?Hraise; cycle 1.
  { apply severing_of_reverting; [by apply reverting_index_error|done]. }
  rewrite seq_write_cell.
  destruct (set_cell_cases g c 0) as [[g1 Hg1]|Hraise]; rewrite ?Hg1, ?Hraise; cycle 1.
  { apply severing_of_reverting; [by apply reverting_index_error|done]. }
  pose proof (set_cell_shape _ _ _ _ Hg1) as Hsh.
  rewrite seq_reading. destruct (astar_fn g1 start end_) as [p|e|] eqn:Hp.
  - destruct (truthy p) eqn:Ht; cbn [negb].
    + rewrite seq_write_cell, (set_cell_restore _ _ _ _ _ Hsaved Hg1). apply IH.
    + split; [by apply reverting_stop|]. intros _. by exists p.
  - apply severing_of_reverting; [by eapply reverting_oracle_error|done].
  - apply severing_of_reverting; [by apply reverting_out_of_fuel|done].
Qed.

(** The loop of [make_multiple_solutions], over cells that are walls. *)
Lemma try_open_reverting orig max_tries cs tries g :
  (∀ c, c ∈ cs → cell g c = Return 0) →
  reverting astar_fn g
    (try_open astar_fn start end_ orig max_tries cs tries g).
Proof.
  revert tries. induction cs as [|c cs IH]; intros tries Hwall; cbn [try_open].
  { by apply reverting_stop. }
  case_bool_decide; [by apply reverting_stop|].
  rewrite seq_write_cell.
  destruct (set_cell_cases g c 1) as [[g1 Hg1]|Hraise]; rewrite ?Hg1, ?Hraise; cycle 1.
  { by apply reverting_index_error. }
  pose proof (set_cell_shape _ _ _ _ Hg1) as Hsh.
  rewrite seq_reading. destruct (astar_fn g1 start end_) as [p|e|] eqn:Hp.
  - destruct (truthy p && bool_decide (p ≠ orig)).
    + by apply reverting_stop.
    + rewrite seq_write_cell.
      rewrite (set_cell_restore g c 0 1 g1); [|apply Hwall; left|done].
      apply IH. intros c' Hc'. apply Hwall. by right.
  - by eapply reverting_oracle_error.
  - by apply reverting_out_of_fuel.
Qed.

Lemma check_endpoints_cases g :
  (cell g start = Return 1 ∧ cell g end_ = Return 1 ∧
   check_endpoints start end_ g = (Return (), g)) ∨
  (¬ (cell g start = Return 1 ∧ cell g end_ = Return 1) ∧
   ((∃ v, cell g start = Return v) →
    (cell g start = Return 1 → ∃ v, cell g end_ = Return v) →
    check_endpoints start end_ g = (Raise ValueError, g)) ∧
   (check_endpoints start end_ g = (Raise ValueError, g) ∨
    check_endpoints start end_ g = (Raise IndexError, g))).
Proof.
  unfold check_endpoints. rewrite seq_reading.
  destruct (cell_cases g start) as [[vs Hs]|Hs]; rewrite Hs; cycle 1.
  { right. split; [by intros [? _]|]. split; [by intros [? ?]|by right]. }
  case_bool_decide as Hvs.
  { right. rewrite seq_raise || unfold raise.
    split; [intros [? _]; congruence|]. split; [done|by left]. }
  assert (vs = 1) as -> by (destruct (decide (vs = 1)); done).
  rewrite seq_reading.
  destruct (cell_cases g end_) as [[ve He]|He]; rewrite He; cycle 1.
  { right. split; [by intros [_ ?]|]. split; [|by right].
    intros _ Hv. destruct Hv as [v Hv]; [done|congruence]. }
  case_bool_decide as Hve.
  { right. split; [intros [_ ?]; congruence|]. split; [done|by left]. }
  assert (ve = 1) as -> by (destruct (decide (ve = 1)); done).
  by left.
Qed.

End Mutation.

(** ** The mutation routines *)

Lemma seq_run {A B} (m : M A) (k : A → M B) g r g1 :
  m g = (r, g1) →
  seq m k g =
  match r with
  | Return a => k a g1
  | Raise e => (Raise e, g1)
  | OutOfFuel => (OutOfFuel, g1)
  end.
Proof. unfold seq. by intros ->. Qed.

Lemma scan_spec g keep cs l :
  scan g keep cs = Return l →
  ∀ c, c ∈ l → ∃ v, cell g c = Return v ∧ keep c v = Return true.
Proof.
  revert l. induction cs as [|c0 cs IH]; intros l; cbn [scan].
  { intros [= <-] c Hc. by apply elem_of_nil in Hc. }
  destruct (cell g c0) as [v| |] eqn:Hv; simpl_bind; try done.
  destruct (keep c0 v) as [b| |] eqn:Hb; simpl_bind; try done.
  destruct (scan g keep cs) as [rest| |]; simpl_bind; try done.
  intros [= <-] c Hc. destruct b.
  - apply elem_of_cons in Hc as [->|Hc]; [eauto|by eapply IH].
  - by eapply IH.
Qed.

Lemma scan_cases g keep cs :
  (∀ c v, (∃ b, keep c v = Return b) ∨ keep c v = Raise IndexError) →
  (∃ l, scan g keep cs = Return l) ∨ scan g keep cs = Raise IndexError.
Proof.
  intros Hkeep. induction cs as [|c0 cs IH]; cbn [scan]; [eauto|].
  destruct (cell_cases g c0) as [[v ->]| ->]; simpl_bind; [|by right].
  destruct (Hkeep c0 v) as [[b ->]| ->]; simpl_bind; [|by right].
  destruct IH as [[rest ->]| ->]; simpl_bind; eauto.
Qed.

Lemma wall_candidates_cases g :
  (∃ l, wall_candidates g = Return l ∧ ∀ c, c ∈ l → cell g c = Return 0) ∨
  wall_candidates g = Raise IndexError.
Proof.
  unfold wall_candidates.
  destruct (getitem_cases g 0) as [[row0 ->]| ->]; simpl_bind; [|by right].
  match goal with |- context [scan g ?k ?cs] =>
    destruct (scan_cases g k cs) as [[l Hl]|Hl] end.
  - intros c v. case_bool_decide; [eauto|].
    destruct (neighbors_loop_cases g (Z.of_nat (length g)) (Z.of_nat (length row0))
                c deltas4 []) as [[nbrs ->]| ->]; simpl_bind; eauto.
  - left. exists l. split; [done|]. intros c Hc.
    destruct (scan_spec _ _ _ _ Hl c Hc) as (v & Hv & Hkeep).
    case_bool_decide as Hv0; [done|].
    assert (v = 0) as -> by (destruct (decide (v = 0)); done). done.
  - by right.
Qed.

Lemma all_walkables_cases start end_ g :
  (∃ l, all_walkables start end_ g = Return l) ∨
  all_walkables start end_ g = Raise IndexError.
Proof.
  unfold all_walkables.
  destruct (getitem_cases g 0) as [[row0 ->]| ->]; simpl_bind; [|by right].
  apply scan_cases. eauto.
Qed.

Section Routines.
Context (R : Random) (astar_fn : path_finder) (start end_ : Coord).

Lemma severing_refl_true g p :
  astar_fn g start end_ = Return p → truthy p = false →
  severing astar_fn start end_ g (Return true, g).
Proof.
  intros Hp Ht. split; [by apply reverting_stop|]. intros _. by exists p.
Qed.

Lemma severing_continue g r g1 (k : bool → M bool) :
  severing astar_fn start end_ g (r, g1) →
  (∀ g2, shape g2 = shape g →
     (∃ p, astar_fn g2 start end_ = Return p ∧ truthy p = false) →
     severing astar_fn start end_ g (k true g2)) →
  severing astar_fn start end_ g (k false g) →
  severing astar_fn start end_ g
    match r with
    | Return b => k b g1
    | Raise e => (Raise e, g1)
    | OutOfFuel => (OutOfFuel, g1)
    end.
Proof.
  intros [(Hsh & Hfalse & Hve) Htrue] Hkt Hkf. simpl in *.
  destruct r as [[|]|e|].
  - apply Hkt; [done|]. by apply Htrue.
  - rewrite (Hfalse eq_refl). apply Hkf.
  - apply severing_of_reverting; [|done]. split; [done|]. split; done.
  - apply severing_of_reverting; [|done]. by apply reverting_out_of_fuel.
Qed.

(** [make_unsolvable] past the check of the endpoints. *)
Lemma make_unsolvable_severing seed max_tries entropy g :
  cell g start = Return 1 → cell g end_ = Return 1 →
  severing astar_fn start end_ g
    (make_unsolvable R start end_ astar_fn seed max_tries entropy g).
Proof.
  intros Hs He. unfold make_unsolvable.
  destruct (check_endpoints_cases start end_ g) as [(_ & _ & Hchk)|[Hno _]];
    [|by destruct Hno].
  rewrite (seq_run _ _ _ _ _ Hchk), seq_reading.
  destruct (astar_fn g start end_) as [[[|p0 path]|]|e|] eqn:Hpath.
  - by eapply severing_refl_true.
  - match goal with |- context [seq ?m _ g] =>
      assert ((∃ l, m g = (Return l, g)) ∨ m g = (Raise IndexError, g)) as Hpick
    end.
    { destruct (slice (p0 :: path) 1 (-1)); [|left; by eexists].
      case_bool_decide; [|left; by eexists].
      rewrite seq_reading.
      destruct (getitem_cases (p0 :: path) 1) as [[p1 ->]| ->]; [left; by eexists|by right]. }
    destruct Hpick as [[l Hpick]|Hpick]; rewrite (seq_run _ _ _ _ _ Hpick); cycle 1.
    { apply severing_of_reverting; [by apply reverting_index_error|done]. }
    destruct (shuffle R (Random_new R seed entropy) l) as [l2 rng2].
    destruct (try_block astar_fn start end_ max_tries l2 0 g) as [r1 g1] eqn:Hround1.
    pose proof (try_block_severing astar_fn start end_ max_tries l2 0 g) as Hsev1.
    rewrite Hround1 in Hsev1. rewrite (seq_run _ _ _ _ _ Hround1).
    apply (severing_continue g r1 g1 (λ b, if b then ret true else _) Hsev1).
    { intros g2 Hsh Hp. split; [by apply reverting_stop|]. done. }
    rewrite seq_reading.
    destruct (all_walkables_cases start end_ g) as [[w ->]| ->]; cycle 1.
    { apply severing_of_reverting; [by apply reverting_index_error|done]. }
    destruct (shuffle R rng2 w) as [w2 rng3].
    destruct (try_block_each astar_fn start end_ (slice w2 0 max_tries) g)
      as [r2 g2] eqn:Hround2.
    pose proof (try_block_each_severing astar_fn start end_ (slice w2 0 max_tries) g)
      as Hsev2.
    rewrite Hround2 in Hsev2. rewrite (seq_run _ _ _ _ _ Hround2).
    apply (severing_continue g r2 g2 (λ b, if b then ret true else ret false) Hsev2).
    { intros g3 Hsh Hp. split; [by apply reverting_stop|]. done. }
    apply severing_of_reverting; [by apply reverting_stop|done].
  - by eapply severing_refl_true.
  - apply severing_of_reverting; [by eapply reverting_oracle_error|done].
  - apply severing_of_reverting; [by apply reverting_out_of_fuel|done].
Qed.

(** [make_multiple_solutions] past the check of the endpoints. *)
Lemma make_multiple_solutions_reverting max_tries seed entropy g :
  cell g start = Return 1 → cell g end_ = Return 1 →
  reverting astar_fn g
    (make_multiple_solutions R start end_ astar_fn max_tries seed entropy g).
Proof.
  intros Hs He. unfold make_multiple_solutions.
  destruct (check_endpoints_cases start end_ g) as [(_ & _ & Hchk)|[Hno _]];
    [|by destruct Hno].
  rewrite (seq_run _ _ _ _ _ Hchk), seq_reading.
  destruct (astar_fn g start end_) as [orig|e|] eqn:Hpath.
  - destruct (truthy orig); cbn [negb]; [|by apply reverting_stop].
    rewrite seq_reading.
    destruct (wall_candidates_cases g) as [(l & -> & Hwall)| ->]; cycle 1.
    { by apply reverting_index_error. }
    pose proof (shuffle_perm R _ (Random_new R seed entropy) l) as Hperm.
    destruct (shuffle R (Random_new R seed entropy) l) as [l2 rng2].
    simpl in Hperm.
    destruct (try_open astar_fn start end_ orig max_tries l2 0 g) as [r1 g1] eqn:Hloop.
    pose proof (try_open_reverting astar_fn start end_ orig max_tries l2 0 g) as Hrev.
    rewrite Hloop in Hrev. rewrite (seq_run _ _ _ _ _ Hloop).
    ospecialize* Hrev. { intros c Hc. apply Hwall. by rewrite <- Hperm. }
    destruct Hrev as (Hsh & Hfalse & Hve). simpl in *.
    destruct r1 as [[|]|e|].
    + by apply reverting_stop.
    + apply reverting_stop; [done|]. intros _. by apply Hfalse.
    + split; [done|]. split; done.
    + by apply reverting_out_of_fuel.
  - by eapply reverting_oracle_error.
  - by apply reverting_out_of_fuel.
Qed.

(** When the check of the endpoints fails, both routines raise and leave
    the grid as it is. *)
Lemma make_unsolvable_rejects seed max_tries entropy g :
  ¬ (cell g start = Return 1 ∧ cell g end_ = Return 1) →
  let out := make_unsolvable R start end_ astar_fn seed max_tries entropy g in
  out.2 = g ∧
  (out.1 = Raise ValueError ∨ out.1 = Raise IndexError) ∧
  ((∃ v, cell g start = Return v) → (∃ v, cell g end_ = Return v) →
   out.1 = Raise ValueError).
Proof.
  intros Hno out. subst out. unfold make_unsolvable.
  destruct (check_endpoints_cases start end_ g) as [(? & ? & _)|(_ & Hval & [Hchk|Hchk])];
    [by destruct Hno|..]; rewrite (seq_run _ _ _ _ _ Hchk); simpl.
  - split; [done|]. split; [by left|done].
  - split; [done|]. split; [by right|].
    intros Hvs Hve. rewrite Hval in Hchk; [done|done|by intros _].
Qed.

Lemma make_multiple_solutions_rejects max_tries seed entropy g :
  ¬ (cell g start = Return 1 ∧ cell g end_ = Return 1) →
  let out := make_multiple_solutions R start end_ astar_fn max_tries seed entropy g in
  out.2 = g ∧
  (out.1 = Raise ValueError ∨ out.1 = Raise IndexError) ∧
  ((∃ v, cell g start = Return v) → (∃ v, cell g end_ = Return v) →
   out.1 = Raise ValueError).
Proof.
  intros Hno out. subst out. unfold make_multiple_solutions.
  destruct (check_endpoints_cases start end_ g) as [(? & ? & _)|(_ & Hval & [Hchk|Hchk])];
    [by destruct Hno|..]; rewrite (seq_run _ _ _ _ _ Hchk); simpl.
  - split; [done|]. split; [by left|done].
  - split; [done|]. split; [by right|].
    intros Hvs Hve. rewrite Hval in Hchk; [done|done|by intros _].
Qed.

End Routines.

(** ** [carve] terminates and keeps the shape of the grid *)

Lemma norm_index_in_range n i :
  0 <= i < Z.of_nat n → norm_index n i = Some (Z.to_nat i).
Proof. intros Hi. unfold norm_index. by rewrite bool_decide_eq_true_2. Qed.

Lemma rows_lookup {A} (l : list (list A)) n m i :
  length <$> l = replicate n m → 0 <= i < Z.of_nat n →
  ∃ row, l !! Z.to_nat i = Some row ∧ length row = m ∧ length l = n.
Proof.
  intros Hsh Hi.
  assert (length l = n) as Hlen.
  { by rewrite <- (length_fmap length l), Hsh, length_replicate. }
  destruct (lookup_lt_is_Some_2 l (Z.to_nat i)) as [row Hrow]; [lia|].
  exists row. split; [done|]. split; [|done].
  assert ((length <$> l) !! Z.to_nat i = Some (length row)) as Hl
    by (by rewrite list_lookup_fmap, Hrow).
  rewrite Hsh in Hl. by apply lookup_replicate in Hl as [-> _].
Qed.

Lemma sum_list_insert {A} (f : A → nat) (l : list A) k x y :
  l !! k = Some x →
  (sum_list (f <$> <[k := y]> l) + f x = sum_list (f <$> l) + f y)%nat.
Proof.
  revert k. induction l as [|x0 l IH]; intros k; [done|].
  destruct k as [|k].
  - intros [= ->].
    change (sum_list (f <$> <[0%nat:=y]> (x :: l))) with (f y + sum_list (f <$> l))%nat.
    change (sum_list (f <$> x :: l)) with (f x + sum_list (f <$> l))%nat.
    generalize (sum_list (f <$> l)). lia.
  - intros Hk. specialize (IH k Hk).
    change (sum_list (f <$> <[S k:=y]> (x0 :: l)))
      with (f x0 + sum_list (f <$> <[k:=y]> l))%nat.
    change (sum_list (f <$> x0 :: l)) with (f x0 + sum_list (f <$> l))%nat.
    revert IH. generalize (sum_list (f <$> <[k:=y]> l)) (sum_list (f <$> l)). lia.
Qed.

Lemma unvisited_insert visited k row row' :
  visited !! k = Some row →
  (unvisited (<[k := row']> visited) + unvisited_in row
   = unvisited visited + unvisited_in row')%nat.
Proof. apply sum_list_insert. Qed.

Lemma count_false_insert (row : list bool) (k : nat) (b : bool) :
  row !! k = Some b →
  (unvisited_in (<[k := true]> row) + (if b then 0 else 1)
   = unvisited_in row)%nat.
Proof.
  unfold unvisited_in. revert k. induction row as [|b0 row IH]; intros k; [done|].
  destruct k as [|k]; simpl.
  - intros [= ->]. rewrite !filter_cons. destruct b; simpl; lia.
  - intros Hk. specialize (IH k Hk). rewrite !filter_cons.
    destruct (decide (b0 = false)); simpl; lia.
Qed.

Lemma get_visited_total visited rows cols p :
  length <$> visited = replicate (Z.to_nat rows) (Z.to_nat cols) →
  0 <= p.1 < rows → 0 <= p.2 < cols →
  ∃ row b, visited !! Z.to_nat p.1 = Some row ∧ row !! Z.to_nat p.2 = Some b ∧
           get_visited visited p = Return b.
Proof.
  intros Hsh Hr Hc.
  destruct (rows_lookup visited _ _ p.1 Hsh) as (row & Hrow & Hlen & Hlen'); [lia|].
  destruct (lookup_lt_is_Some_2 row (Z.to_nat p.2)) as [b Hb]; [lia|].
  exists row, b. split; [done|]. split; [done|].
  unfold get_visited.
  rewrite (getitem_intro visited p.1 (Z.to_nat p.1) row);
    [|apply norm_index_in_range; lia|done].
  simpl_bind. apply (getitem_intro row p.2 (Z.to_nat p.2) b); [|done].
  apply norm_index_in_range. lia.
Qed.

Lemma set_visited_total visited rows cols p row (b : bool) :
  length <$> visited = replicate (Z.to_nat rows) (Z.to_nat cols) →
  0 <= p.1 < rows → 0 <= p.2 < cols →
  visited !! Z.to_nat p.1 = Some row → row !! Z.to_nat p.2 = Some b →
  ∃ visited', set_visited visited p = Return visited' ∧
    length <$> visited' = replicate (Z.to_nat rows) (Z.to_nat cols) ∧
    (unvisited visited' + (if b then 0 else 1) = unvisited visited)%nat.
Proof.
  intros Hsh Hr Hc Hrow Hb.
  destruct (rows_lookup visited _ _ p.1 Hsh) as (row' & Hrow' & Hlen & Hlen'); [lia|].
  simplify_eq.
  exists (<[Z.to_nat p.1 := <[Z.to_nat p.2 := true]> row]> visited).
  split; [|split].
  - unfold set_visited.
    rewrite (getitem_intro visited p.1 (Z.to_nat p.1) row);
      [|apply norm_index_in_range; lia|done].
    simpl_bind. unfold setitem.
    rewrite (norm_index_in_range (length row)) by lia. simpl_bind.
    by rewrite (norm_index_in_range (length visited)) by lia.
  - rewrite list_fmap_insert, length_insert, list_insert_id; [done|].
    by rewrite list_lookup_fmap, Hrow.
  - pose proof (unvisited_insert visited _ row (<[Z.to_nat p.2 := true]> row) Hrow).
    pose proof (count_false_insert row _ b Hb). lia.
Qed.

Lemma set_cell_total grid n m p v :
  shape grid = replicate n m →
  0 <= p.1 < Z.of_nat n → 0 <= p.2 < Z.of_nat m →
  ∃ grid', set_cell grid p v = Return grid' ∧ shape grid' = replicate n m.
Proof.
  intros Hsh Hr Hc.
  destruct (rows_lookup grid _ _ p.1 Hsh Hr) as (row & Hrow & Hlen & Hlen').
  destruct (set_cell_cases grid p v) as [[grid' Hset]|Hset].
  - exists grid'. split; [done|]. by rewrite (set_cell_shape _ _ _ _ Hset).
  - exfalso. unfold set_cell in Hset.
    rewrite (getitem_intro grid p.1 (Z.to_nat p.1) row) in Hset;
      [|apply norm_index_in_range; lia|done].
    simpl_bind in Hset. unfold setitem in Hset.
    rewrite (norm_index_in_range (length row)) in Hset by lia.
    simpl_bind in Hset.
    by rewrite (norm_index_in_range (length grid)) in Hset by lia.
Qed.

Section Carve.
Context (R : Random) (rows cols : Z).

Lemma carve_loop_total f rec r c n i st :
  carve_spec R rows cols f rec → 0 <= r < rows → 0 <= c < cols →
  carve_wf rows cols st → (unvisited (cs_visited st) ≤ f)%nat →
  ∃ st', carve_loop R rec rows cols r c (2 * r + 1) (2 * c + 1) n i st = Return st' ∧
         carve_wf rows cols st' ∧
         (unvisited (cs_visited st') ≤ unvisited (cs_visited st))%nat.
Proof.
  intros Hrec Hr Hc. revert i st.
  induction n as [|n IH]; intros i st Hwf Hf; cbn [carve_loop]; [by exists st|].
  destruct (cs_deltas st !! i) as [[dr dc]|]; [|by exists st].
  destruct (bool_decide (0 <= r + dr < rows) && bool_decide (0 <= c + dc < cols)) eqn:Hin;
    [|by apply IH].
  apply andb_prop in Hin as [Hnr%bool_decide_eq_true_1 Hnc%bool_decide_eq_true_1].
  destruct Hwf as [Hv Hg].
  destruct (get_visited_total (cs_visited st) rows cols (r + dr, c + dc) Hv)
    as (row & b & Hrow & Hb & ->); [done..|].
  simpl_bind. destruct b; cbn [negb]; [by apply IH|].
  cbn [to_grid fst snd].
  destruct (set_cell_total (cs_grid st) _ _
              ((2 * r + 1 + (2 * (r + dr) + 1)) `div` 2,
               (2 * c + 1 + (2 * (c + dc) + 1)) `div` 2) 1 Hg)
    as (grid2 & -> & Hg2).
  { cbn [fst]. replace (2 * r + 1 + (2 * (r + dr) + 1)) with ((r + (r + dr) + 1) * 2) by lia.
    rewrite Z.div_mul by done. lia. }
  { cbn [snd]. replace (2 * c + 1 + (2 * (c + dc) + 1)) with ((c + (c + dc) + 1) * 2) by lia.
    rewrite Z.div_mul by done. lia. }
  simpl_bind.
  destruct (Hrec (r + dr) (c + dc)
              (CarveState (cs_rng st) (cs_deltas st) (cs_visited st) grid2) row)
    as (st1 & -> & Hwf1 & Hlt1); [done..|].
  simpl_bind. cbn [cs_visited] in Hlt1.
  destruct (IH (S i) st1 Hwf1) as (st' & Hrun & Hwf' & Hle'); [lia|].
  exists st'. split; [done|]. split; [done|lia].
Qed.

Lemma carve_total f : carve_spec R rows cols f (carve R f rows cols).
Proof.
  induction f as [|f IH]; intros r c st row [Hv Hg] Hr Hc Hrow Hb Hf.
  - destruct (set_visited_total _ _ _ (r, c) row false Hv Hr Hc Hrow Hb)
      as (v1 & _ & _ & Hcount). lia.
  - cbn [carve].
    destruct (set_visited_total _ _ _ (r, c) row false Hv Hr Hc Hrow Hb)
      as (v1 & -> & Hv1 & Hcount).
    simpl_bind. cbn [to_grid fst snd].
    destruct (set_cell_total (cs_grid st) _ _ (2 * r + 1, 2 * c + 1) 1 Hg)
      as (grid1 & -> & Hg1); [cbn [fst]; lia|cbn [snd]; lia|].
    simpl_bind.
    destruct (shuffle R (cs_rng st) (cs_deltas st)) as [deltas1 rng1].
    destruct (carve_loop_total f (carve R f rows cols) r c (length deltas1) O
                (CarveState rng1 deltas1 v1 grid1) IH Hr Hc)
      as (st' & Hrun & Hwf' & Hle').
    { by split. }
    { cbn [cs_visited]. lia. }
    exists st'. split; [done|]. split; [done|]. cbn [cs_visited] in Hle'. lia.
Qed.

End Carve.

Lemma unvisited_in_replicate m : unvisited_in (replicate m false) = m.
Proof.
  unfold unvisited_in. induction m as [|m IH]; [done|].
  change (replicate (S m) false) with (false :: replicate m false).
  rewrite filter_cons, decide_True by done. simpl. by rewrite IH.
Qed.

Lemma unvisited_replicate n m :
  unvisited (replicate n (replicate m false)) = (n * m)%nat.
Proof.
  unfold unvisited. induction n as [|n IH]; [done|].
  change (sum_list (unvisited_in <$> replicate (S n) (replicate m false)))
    with (unvisited_in (replicate m false)
          + sum_list (unvisited_in <$> replicate n (replicate m false)))%nat.
  rewrite IH, unvisited_in_replicate. done.
Qed.

(** With [rows] and [cols] at least 1, [generate_maze] returns a grid of
    [2*rows+1] rows of [2*cols+1] cells. *)
Lemma generate_maze_shape (R : Random) rows cols seed entropy :
  1 <= rows → 1 <= cols →
  ∃ grid, generate_maze R rows cols seed entropy = Return grid ∧
          shape grid = replicate (Z.to_nat (2 * rows + 1)) (Z.to_nat (2 * cols + 1)).
Proof.
  intros Hrows Hcols. unfold generate_maze.
  rewrite bool_decide_eq_false_2 by lia.
  destruct (carve_total R rows cols (carve_fuel rows cols) 0 0
              (CarveState (Random_new R seed entropy) [(0, 1); (1, 0); (0, -1); (-1, 0)]
                 (replicate (Z.to_nat rows) (replicate (Z.to_nat cols) false))
                 (_make_grid rows cols))
              (replicate (Z.to_nat cols) false))
    as (st' & -> & [_ Hg] & _).
  - split; cbn [cs_visited cs_grid].
    + by rewrite fmap_replicate, length_replicate.
    + unfold _make_grid, shape. by rewrite fmap_replicate, length_replicate.
  - lia.
  - lia.
  - cbn [cs_visited]. apply lookup_replicate_2. lia.
  - apply lookup_replicate_2. lia.
  - cbn [cs_visited]. rewrite unvisited_replicate. unfold carve_fuel.
    rewrite Z2Nat.inj_mul by lia. lia.
  - simpl_bind. by exists (cs_grid st').
Qed.

(** [generate_maze] raises [ValueError] exactly when [rows] or [cols] is
    less than 1. *)
Lemma generate_maze_rejects (R : Random) rows cols seed entropy :
  generate_maze R rows cols seed entropy = Raise ValueError ↔ rows < 1 ∨ cols < 1.
Proof.
  split.
  - intros Hrun. destruct (decide (rows < 1 ∨ cols < 1)) as [|Hok]; [done|].
    destruct (generate_maze_shape R rows cols seed entropy) as (g & Hg & _); [lia..|].
    congruence.
  - intros Hbad. unfold generate_maze. by rewrite bool_decide_eq_true_2.
Qed.

(** ** The claims about [astar] *)

(** Claim C2.  When [astar] returns a path, the number of steps of that path
    is the graph distance between start and goal in the 4-connected graph of
    Open cells: the path joins them, and no path joining them is shorter.
    The grid and the start are as the data model has them: the rows of the
    grid have one length, and the coordinates of the start are not negative
    (Python would read a negative index from the end of the list). *)
Theorem astar_path_is_shortest grid start goal p :
  rectangular grid → 0 <= start.1 → 0 <= start.2 →
  astar grid start goal = Return (Some p) →
  graph_distance grid start goal (length p - 1).
Proof.
  intros Hrect Hr Hc Hrun.
  pose proof (astar_sound _ _ _ _ Hr Hc Hrun) as Hp.
  pose proof (path_between_open _ _ _ _ Hp) as (_ & _ & Hne).
  assert (S (length p - 1) = length p) as Hlen by (destruct p; [done|simpl; lia]).
  split.
  - exists p. by rewrite Hlen.
  - intros q Hq. rewrite Hlen. by eapply astar_optimal.
Qed.

Lemma astar_path_is_shortest_witness :
  rectangular bend ∧
  astar bend (0, 0) (2, 0)
    = Return (Some [(0, 0); (0, 1); (0, 2); (1, 2); (2, 2); (2, 1); (2, 0)]) ∧
  graph_distance bend (0, 0) (2, 0) 6.
Proof.
  assert (rectangular bend) as Hrect by (apply rectangular_Forall; by repeat constructor).
  split; [done|]. split; [by vm_compute|].
  apply (astar_path_is_shortest bend (0, 0) (2, 0)
           [(0, 0); (0, 1); (0, 2); (1, 2); (2, 2); (2, 1); (2, 0)]);
    [done|done|done|by vm_compute].
Defined.

(** Claim C3 (the code departs from it).  On a corridor of 1,000,001
    walkable cells, the two ends are in bounds, Open and connected, and
    [astar] returns [None]: a neighbour whose tentative cost reaches the
    default of [gscore.get] is never queued. *)
Theorem astar_misses_distant_goal :
  in_bounds long_corridor (0, 0) ∧ in_bounds long_corridor (0, 1000000) ∧
  open_at long_corridor (0, 0) ∧ open_at long_corridor (0, 1000000) ∧
  connected long_corridor (0, 0) (0, 1000000) ∧
  astar long_corridor (0, 0) (0, 1000000) = Return None.
Proof.
  assert (1000000 = Z.of_nat (Z.to_nat 1000001) - 1) as Heq by lia.
  unfold long_corridor. rewrite Heq.
  apply corridor_unreached. unfold unreached. lia.
Qed.

(** Claim C7 (as stated, refuted).  Coordinates outside the grid make
    [astar] raise [IndexError]. *)
Lemma astar_raises_out_of_bounds :
  astar [[1]] (1, 1) (0, 0) = Raise IndexError ∧
  ¬ ∃ r, astar [[1]] (1, 1) (0, 0) = Return r.
Proof. split; [by vm_compute|]. intros [r Hr]. vm_compute in Hr. done. Qed.

(** Claim C7 (amended).  On a rectangular grid and for a start and a goal
    inside it, [astar] raises nothing: it returns a path or [None]; and it
    returns [None] when the start or the goal is a Wall cell. *)
Theorem astar_never_raises_in_bounds grid start goal :
  rectangular grid → in_bounds grid start → in_bounds grid goal →
  (∃ r, astar grid start goal = Return r) ∧
  (¬ open_at grid start ∨ ¬ open_at grid goal →
   astar grid start goal = Return None).
Proof.
  intros Hrect Hs Hg. split; [by apply astar_total|].
  intros Hwall.
  destruct (astar_cases grid start goal)
    as [[H _]|[(v & _ & _ & H)|[(_ & H & _)|[(v & _ & _ & _ & H)|(Hos & Hog & _)]]]];
    try done.
  - destruct (in_bounds_cell grid start Hrect Hs). congruence.
  - destruct (in_bounds_cell grid goal Hrect Hg). congruence.
  - exfalso. destruct Hwall as [Hwall|Hwall]; apply Hwall, open_at_cell.
    + destruct Hs. tauto.
    + destruct Hg. tauto.
Qed.

Lemma astar_never_raises_in_bounds_witness :
  rectangular bend ∧ in_bounds bend (0, 0) ∧ in_bounds bend (1, 0) ∧
  (∃ r, astar bend (0, 0) (1, 0) = Return r) ∧
  astar bend (0, 0) (1, 0) = Return None.
Proof.
  assert (rectangular bend) as Hrect by (apply rectangular_Forall; by repeat constructor).
  assert (in_bounds bend (0, 0)) as Hs by (unfold in_bounds; cbn; lia).
  assert (in_bounds bend (1, 0)) as Hg by (unfold in_bounds; cbn; lia).
  destruct (astar_never_raises_in_bounds bend (0, 0) (1, 0) Hrect Hs Hg)
    as [Hreturns Hwall].
  split; [done|]. split; [done|]. split; [done|]. split; [done|].
  apply Hwall. right. intros (_ & _ & Hcell)%open_at_cell. by vm_compute in Hcell.
Defined.

(** Claim C10 (as stated, refuted).  With the start on a Wall cell,
    [astar(grid, start, start)] is [None]. *)
Lemma astar_same_cell_wall :
  astar [[0]] (0, 0) (0, 0) = Return None ∧
  astar [[0]] (0, 0) (0, 0) ≠ Return (Some [(0, 0)]).
Proof. split; by vm_compute. Qed.

(** Claim C10 (amended).  For every grid and every start that addresses an
    Open cell, [astar] called with the goal equal to the start returns the
    single-element path [[start]]. *)
Theorem astar_same_cell grid start :
  cell grid start = Return 1 →
  astar grid start start = Return (Some [start]).
Proof.
  intros Hs. unfold astar. rewrite Hs. simpl_bind.
  rewrite bool_decide_eq_false_2 by (intros H; by apply H).
  simpl_bind.
  unfold astar_fuel. rewrite astar_loop_S.
  assert (heappop (open_set (astar_init start start)) = Some ((0, start), [])) as ->.
  { unfold astar_init, heappush, heappop. cbn [open_set heap_least remove_one].
    by rewrite decide_True. }
  rewrite decide_True by done.
  cbn [walk_back last]. rewrite decide_True by done. by simpl_bind.
Qed.

Lemma astar_same_cell_witness :
  cell ring (2, 1) = Return 1 ∧ astar ring (2, 1) (2, 1) = Return (Some [(2, 1)]).
Proof.
  split; [by vm_compute|]. apply (astar_same_cell ring (2, 1)). by vm_compute.
Defined.

(** ** The claims about the generator *)

(** Claim C1 (the code departs from it).  [generate_maze(2, 3, seed=1)]
    opens four walls where a spanning tree of the six rooms has five, and
    the room cell (3, 1) is joined to no other room: every call of [carve]
    shuffles the one list [deltas] that the loops of its callers are still
    iterating over, so a caller can skip a direction. *)
Theorem generate_maze_not_spanning :
  generate_maze replay_seed_1 2 3 (Some 1) [] = Return maze_2_3_seed_1 ∧
  opened_walls maze_2_3_seed_1 = 4%nat ∧
  opened_walls maze_2_3_seed_1 ≠ Z.to_nat (2 * 3 - 1) ∧
  ¬ connected maze_2_3_seed_1 (to_grid (0, 0)) (to_grid (1, 0)).
Proof.
  split; [by vm_compute|]. split; [by vm_compute|]. split; [by vm_compute|].
  change (to_grid (0, 0)) with (1, 1). change (to_grid (1, 0)) with (3, 1).
  intros [q Hq]. apply path_between_open in Hq as (_ & Hroom & _).
  apply open_at_cell in Hroom as (_ & _ & Hroom). by vm_compute in Hroom.
Qed.

(** Claim C4 (the code departs from it).  [generate_maze(2, 3, seed=1)]
    returns a grid of 5 rows of 7 cells in which the room cell (3, 1), that
    is the room (1, 0), is a Wall: it is the same defect as in C1. *)
Theorem generate_maze_leaves_room_walled :
  ∃ grid, generate_maze replay_seed_1 2 3 (Some 1) [] = Return grid ∧
          shape grid = replicate 5 7%nat ∧
          to_grid (1, 0) = (3, 1) ∧
          cell grid (3, 1) = Return 0.
Proof. exists maze_2_3_seed_1. repeat split; by vm_compute. Qed.



(** Without a seed the grid does depend on the entropy. *)
Lemma generate_maze_unseeded_varies :
  generate_maze (replay (λ _, [])) 2 2 None [] ≠
  generate_maze (replay (λ _, [])) 2 2 None [1%nat].
Proof. by vm_compute. Qed.

(** The grid does depend on the seed. *)
Lemma generate_maze_seed_matters :
  generate_maze replay_seed_1 2 3 (Some 1) [] ≠
  generate_maze replay_seed_1 2 3 (Some 2) [].
Proof. by vm_compute. Qed.

(** ** The claims about the mutation routines *)

Lemma astar_no_ValueError : no_ValueError astar.
Proof. intros g s e H. by apply astar_raises in H. Qed.

Lemma open_at_cell_in_bounds grid p :
  in_bounds grid p → open_at grid p ↔ cell grid p = Return 1.
Proof.
  intros [[Hr _] [Hc _]]. rewrite open_at_cell. tauto.
Qed.

(** Claim C5 (as stated, refuted).  With the end outside the grid, the
    check of the endpoints raises [IndexError] and not [ValueError], although
    the end is not an Open cell; and with both endpoints Open, a [ValueError]
    that [astar_fn] raises comes out of the routine as it is. *)
Lemma mutators_raise_IndexError_outside :
  let R := replay (λ _, []) in
  let mm := make_multiple_solutions R (0, 0) (3, 0) astar 200 None [] halves in
  let mu := make_unsolvable R (0, 0) (3, 0) astar None 100 [] halves in
  let failing : path_finder := λ _ _ _, Raise ValueError in
  let mf := make_unsolvable R (0, 0) (0, 2) failing None 100 [] ring in
  (¬ open_at halves (3, 0) ∧
   mm = (Raise IndexError, halves) ∧ mu = (Raise IndexError, halves) ∧
   ¬ (mm.1 = Raise ValueError ↔ ¬ open_at halves (0, 0) ∨ ¬ open_at halves (3, 0)) ∧
   ¬ (mu.1 = Raise ValueError ↔ ¬ open_at halves (0, 0) ∨ ¬ open_at halves (3, 0))) ∧
  (open_at ring (0, 0) ∧ open_at ring (0, 2) ∧ mf = (Raise ValueError, ring) ∧
   ¬ (mf.1 = Raise ValueError ↔ ¬ open_at ring (0, 0) ∨ ¬ open_at ring (0, 2))).
Proof.
  intros R mm mu failing mf. split.
  - assert (¬ open_at halves (3, 0)) as Hout.
    { intros (_ & _ & row & Hrow & _). by vm_compute in Hrow. }
    assert (mm = (Raise IndexError, halves)) as Hmm by (by vm_compute).
    assert (mu = (Raise IndexError, halves)) as Hmu by (by vm_compute).
    split; [exact Hout|]. split; [exact Hmm|]. split; [exact Hmu|].
    rewrite Hmm, Hmu. cbn [fst].
    split; intros [_ Hiff]; (ospecialize* Hiff; [by right|done]).
  - assert (open_at ring (0, 0)) as Hs by (apply open_at_cell; by vm_compute).
    assert (open_at ring (0, 2)) as He by (apply open_at_cell; by vm_compute).
    assert (mf = (Raise ValueError, ring)) as Hmf by (by vm_compute).
    split; [exact Hs|]. split; [exact He|]. split; [exact Hmf|].
    rewrite Hmf. cbn [fst]. intros [Hiff _].
    destruct (Hiff eq_refl) as [Hno|Hno]; by apply Hno.
Qed.

(** Claim C5 (amended).  On a rectangular grid, for a start and an end
    inside it and an [astar_fn] that does not itself raise [ValueError],
    [make_multiple_solutions] and [make_unsolvable] raise [ValueError] if and
    only if the start or the end is not an Open cell, and then leave the
    grid as it was; and when either returns [False] the grid is as it was
    before the call. *)
Theorem mutators_reject_and_revert (R : Random) (astar_fn : path_finder)
    (grid : Grid) (start end_ : Coord) (max_tries : Z) (seed : option Z)
    (entropy : rng R) :
  rectangular grid → in_bounds grid start → in_bounds grid end_ →
  no_ValueError astar_fn →
  let mm := make_multiple_solutions R start end_ astar_fn max_tries seed entropy grid in
  let mu := make_unsolvable R start end_ astar_fn seed max_tries entropy grid in
  (mm.1 = Raise ValueError ↔ ¬ open_at grid start ∨ ¬ open_at grid end_) ∧
  (mu.1 = Raise ValueError ↔ ¬ open_at grid start ∨ ¬ open_at grid end_) ∧
  (mm.1 = Raise ValueError → mm.2 = grid) ∧
  (mu.1 = Raise ValueError → mu.2 = grid) ∧
  (mm.1 = Return false → mm.2 = grid) ∧
  (mu.1 = Return false → mu.2 = grid).
Proof.
  intros Hrect Hs He Hno mm mu.
  rewrite !open_at_cell_in_bounds by done.
  destruct (in_bounds_cell grid start Hrect Hs) as [vs Hvs].
  destruct (in_bounds_cell grid end_ Hrect He) as [ve Hve].
  destruct (decide (vs = 1 ∧ ve = 1)) as [[-> ->]|Hwall].
  - pose proof (make_multiple_solutions_reverting R astar_fn start end_
                  max_tries seed entropy grid Hvs Hve) as (_ & Hmm & Hmm').
    pose proof (make_unsolvable_severing R astar_fn start end_
                  seed max_tries entropy grid Hvs Hve) as [(_ & Hmu & Hmu') _].
    fold mm in Hmm, Hmm'. fold mu in Hmu, Hmu'.
    specialize (Hmm' Hno). specialize (Hmu' Hno).
    repeat split; try done; intros [H|H]; by destruct H.
  - assert (¬ (cell grid start = Return 1 ∧ cell grid end_ = Return 1)) as Hnot.
    { intros [? ?]. apply Hwall. split; congruence. }
    pose proof (make_multiple_solutions_rejects R astar_fn start end_
                  max_tries seed entropy grid Hnot) as (Hmm & _ & Hmm').
    pose proof (make_unsolvable_rejects R astar_fn start end_
                  seed max_tries entropy grid Hnot) as (Hmu & _ & Hmu').
    fold mm in Hmm, Hmm'. fold mu in Hmu, Hmu'.
    assert (mm.1 = Raise ValueError) as Emm by (apply Hmm'; eauto).
    assert (mu.1 = Raise ValueError) as Emu by (apply Hmu'; eauto).
    assert (cell grid start ≠ Return 1 ∨ cell grid end_ ≠ Return 1) as Hor.
    { destruct (decide (vs = 1)) as [->|]; [right|left]; intros ?; apply Hnot;
        split; congruence. }
    rewrite Emm, Emu. repeat split; done.
Qed.

Lemma ring_rectangular : rectangular ring.
Proof. apply rectangular_Forall. by repeat constructor. Qed.

Lemma mutators_reject_and_revert_witness :
  let R := replay (λ _, []) in
  let mm := make_multiple_solutions R (0, 0) (0, 2) astar 100 None [] ring in
  let mu := make_unsolvable R (0, 0) (0, 2) astar None 100 [] ring in
  (mm.1 = Raise ValueError ↔ ¬ open_at ring (0, 0) ∨ ¬ open_at ring (0, 2)) ∧
  (mu.1 = Raise ValueError ↔ ¬ open_at ring (0, 0) ∨ ¬ open_at ring (0, 2)) ∧
  (mm.1 = Raise ValueError → mm.2 = ring) ∧
  (mu.1 = Raise ValueError → mu.2 = ring) ∧
  (mm.1 = Return false → mm.2 = ring) ∧
  (mu.1 = Return false → mu.2 = ring).
Proof.
  intros R.
  apply (mutators_reject_and_revert R astar ring (0, 0) (0, 2) 100 None []).
  - exact ring_rectangular.
  - unfold in_bounds. cbn. lia.
  - unfold in_bounds. cbn. lia.
  - exact astar_no_ValueError.
Defined.

(** Claim C6 (the code departs from it).  With the start and the end
    adjacent, the path is [[start, end]], it has no interior, and the
    fallback [path[1]] is the end itself: [make_unsolvable] turns the end
    into a Wall and returns [True], whatever the generator. *)
Theorem make_unsolvable_blocks_end (R : Random) (seed : option Z)
    (entropy : rng R) :
  cell [[1; 1]] (0, 1) = Return 1 ∧
  ∃ grid', make_unsolvable R (0, 0) (0, 1) astar seed 100 entropy [[1; 1]]
             = (Return true, grid') ∧
           grid' = [[1; 0]] ∧ cell grid' (0, 1) = Return 0.
Proof.
  split; [by vm_compute|]. exists [[1; 0]]. split; [|by vm_compute].
  unfold make_unsolvable.
  destruct (check_endpoints_cases (0, 0) (0, 1) [[1; 1]]) as [(_ & _ & Hchk)|[Hno _]];
    [|exfalso; apply Hno; by vm_compute].
  rewrite (seq_run _ _ _ _ _ Hchk), seq_reading.
  assert (astar [[1; 1]] (0, 0) (0, 1) = Return (Some [(0, 0); (0, 1)])) as ->
    by (by vm_compute).
  cbv beta iota.
  match goal with
  | |- seq ?m _ ?g = _ =>
      assert (m g = (Return [(0, 1)], g)) as Hpick by (by vm_compute)
  end.
  rewrite (seq_run _ _ _ _ _ Hpick).
  pose proof (shuffle_perm R _ (Random_new R seed entropy) [(0, 1)]) as Hperm.
  destruct (shuffle R (Random_new R seed entropy) [(0, 1)]) as [l rng2].
  simpl in Hperm. apply Permutation_singleton_r in Hperm as ->.
  assert (try_block astar (0, 0) (0, 1) 100 [(0, 1)] 0 [[1; 1]] = (Return true, [[1; 0]]))
    as Hblock by (by vm_compute).
  by rewrite (seq_run _ _ _ _ _ Hblock).
Qed.

(** On a rectangular grid of any size, [astar] returns a path only if
    there is one. *)
Lemma astar_sound_on grid start goal :
  rectangular grid → in_bounds grid start → in_bounds grid goal →
  sound_on astar grid start goal.
Proof.
  intros Hrect Hs Hg. destruct (astar_total grid start goal Hrect Hs Hg) as [r Hr].
  exists r. split; [done|]. destruct r as [p|]; [|done]. intros _.
  apply astar_sound in Hr; [|apply Hs..]. by exists p.
Qed.

Lemma finds_paths_complete astar_fn grid start goal :
  finds_paths astar_fn grid start goal → complete_on astar_fn grid start goal.
Proof.
  intros (r & Hr & Hiff) r' Hr' Hfalse Hconn. apply Hiff in Hconn. congruence.
Qed.

(** When [astar_fn] finds no path between the endpoints, [make_unsolvable]
    returns [True] at once and leaves the grid as it is. *)
Lemma make_unsolvable_no_path (R : Random) (astar_fn : path_finder)
    (grid : Grid) (start end_ : Coord) (seed : option Z) (max_tries : Z)
    (entropy : rng R) r :
  cell grid start = Return 1 → cell grid end_ = Return 1 →
  astar_fn grid start end_ = Return r → truthy r = false →
  make_unsolvable R start end_ astar_fn seed max_tries entropy grid
    = (Return true, grid).
Proof.
  intros Hs He Hr Hfalse. unfold make_unsolvable.
  destruct (check_endpoints_cases start end_ grid) as [(_ & _ & Hchk)|[Hno _]];
    [|by destruct Hno].
  rewrite (seq_run _ _ _ _ _ Hchk), seq_reading, Hr.
  by destruct r as [[|]|].
Qed.

(** What [make_unsolvable] does with a path finder that can be trusted.  If
    the start and the end are Open and no path joins them, it returns [True]
    and the grid is as it was, provided [astar_fn] returns a path only where
    there is one; and whenever it returns [True], no path joins the start
    and the end in the grid it leaves, provided [astar_fn] returns no path
    only where there is none, on the grids of the shape of the given one. *)
Lemma make_unsolvable_with_oracle (R : Random) (astar_fn : path_finder)
    (grid : Grid) (start end_ : Coord) (seed : option Z) (max_tries : Z)
    (entropy : rng R) :
  (sound_on astar_fn grid start end_ →
   open_at grid start → open_at grid end_ → ¬ connected grid start end_ →
   make_unsolvable R start end_ astar_fn seed max_tries entropy grid
     = (Return true, grid)) ∧
  ((∀ g, shape g = shape grid → complete_on astar_fn g start end_) →
   ∀ grid',
     make_unsolvable R start end_ astar_fn seed max_tries entropy grid
       = (Return true, grid') →
     ¬ connected grid' start end_).
Proof.
  split.
  - intros (r & Hr & Hsound) (_ & _ & Hs)%open_at_cell (_ & _ & He)%open_at_cell Hnot.
    assert (truthy r = false) as Hfalse.
    { destruct (truthy r); [|done]. exfalso. by apply Hnot, Hsound. }
    by eapply make_unsolvable_no_path.
  - intros Hcomplete grid' Hrun.
    destruct (decide (cell grid start = Return 1 ∧ cell grid end_ = Return 1))
      as [[Hs He]|Hno].
    + pose proof (make_unsolvable_severing R astar_fn start end_
                    seed max_tries entropy grid Hs He) as [(Hsh & _) Htrue].
      rewrite Hrun in Hsh, Htrue. simpl in *.
      destruct (Htrue eq_refl) as (p & Hp & Hfalse).
      by apply (Hcomplete grid' Hsh p).
    + pose proof (make_unsolvable_rejects R astar_fn start end_
                    seed max_tries entropy grid Hno) as (_ & Hraise & _).
      rewrite Hrun in Hraise. by destruct Hraise.
Qed.

(** On a corridor longer than the default cost, [make_unsolvable] called
    with [astar] returns [True] and leaves the corridor as it is. *)
Lemma make_unsolvable_corridor (R : Random) (seed : option Z) (max_tries : Z)
    (entropy : rng R) n :
  unreached < Z.of_nat n →
  make_unsolvable R (0, 0) (0, Z.of_nat n - 1) astar seed max_tries entropy
    (corridor n) = (Return true, corridor n).
Proof.
  intros Hn.
  destruct (corridor_unreached n Hn) as (_ & _ & Hs & Hg & _ & Hrun).
  apply open_at_cell in Hs as (_ & _ & Hs). apply open_at_cell in Hg as (_ & _ & Hg).
  by eapply make_unsolvable_no_path.
Qed.

(** Claim C8 (the code departs from it).  On the corridor of 1,000,001
    walkable cells the two ends are Open and a path joins them, yet
    [make_unsolvable] called with [astar] returns [True] and leaves the grid
    as it was: [astar] finds no path there (the defect of C3), and
    [make_unsolvable] takes its [None] for "already unsolvable".  A path
    still joins the ends in the grid it leaves. *)
Theorem make_unsolvable_true_with_path (R : Random) (seed : option Z)
    (max_tries : Z) (entropy : rng R) :
  open_at long_corridor (0, 0) ∧ open_at long_corridor (0, 1000000) ∧
  make_unsolvable R (0, 0) (0, 1000000) astar seed max_tries entropy long_corridor
    = (Return true, long_corridor) ∧
  connected long_corridor (0, 0) (0, 1000000).
Proof.
  assert (1000000 = Z.of_nat (Z.to_nat 1000001) - 1) as Heq by lia.
  assert (unreached < Z.of_nat (Z.to_nat 1000001)) as Hlong by (unfold unreached; lia).
  unfold long_corridor. rewrite Heq.
  destruct (corridor_unreached (Z.to_nat 1000001) Hlong) as (_ & _ & Hs & Hg & Hconn & _).
  split; [exact Hs|]. split; [exact Hg|]. split; [|exact Hconn].
  by apply make_unsolvable_corridor.
Qed.

Lemma halves_rectangular : rectangular halves.
Proof. apply rectangular_Forall. by repeat constructor. Qed.

Lemma astar_complete_3x3 g :
  shape g = shape halves → complete_on astar g (0, 0) (2, 2).
Proof.
  intros Hsh. pose proof (shape_size _ _ Hsh) as [Hlen Hwid].
  apply finds_paths_complete, astar_decides.
  - by apply (shape_rectangular halves); [|apply halves_rectangular].
  - rewrite Hlen, Hwid. unfold unreached. cbn. lia.
  - apply (shape_in_bounds halves); [done|]. unfold in_bounds. cbn. lia.
  - apply (shape_in_bounds halves); [done|]. unfold in_bounds. cbn. lia.
Qed.

(** ** More about [_neighbors] *)

Lemma neighbors_loop_sublist grid rows cols node ds acc l :
  neighbors_loop grid rows cols node ds acc = Return l →
  ∃ l', l = acc ++ l' ∧
        l' `sublist_of` ((λ d, (node.1 + d.1, node.2 + d.2)) <$> ds).
Proof.
  revert acc l. induction ds as [|[dr dc] ds IH]; intros acc l; cbn [neighbors_loop].
  - intros [= <-]. exists []. by rewrite app_nil_r.
  - destruct (_ && _).
    + destruct (cell grid (node.1 + dr, node.2 + dc)) as [v| |]; simpl_bind; try done.
      case_bool_decide.
      * intros (l' & -> & Hsub)%IH. exists ((node.1 + dr, node.2 + dc) :: l').
        split; [by rewrite <- app_assoc|]. by apply sublist_skip.
      * intros (l' & -> & Hsub)%IH. exists l'. split; [done|]. by apply sublist_cons.
    + intros (l' & -> & Hsub)%IH. exists l'. split; [done|]. by apply sublist_cons.
Qed.

Lemma steps_NoDup (node : Coord) :
  NoDup ((λ d : Z * Z, (node.1 + d.1, node.2 + d.2)) <$> deltas4).
Proof.
  apply NoDup_fmap_2.
  - intros [a b] [c d] [= H1 H2]. f_equal; lia.
  - unfold deltas4. apply (bool_decide_unpack _). by vm_compute.
Qed.

(** ** More about paths *)

Lemma adjacent_sym a b : adjacent a b → adjacent b a.
Proof. unfold adjacent. lia. Qed.

Lemma linked_app_iff p x q :
  linked (p ++ x :: q) ↔ linked (p ++ [x]) ∧ linked (x :: q).
Proof.
  induction p as [|a [|b p] IH]; simpl in *.
  - tauto.
  - tauto.
  - rewrite IH. tauto.
Qed.

Lemma linked_reverse p : linked p → linked (reverse p).
Proof.
  induction p as [|a [|b p] IH]; [done..|].
  intros [Hab Hl]. rewrite reverse_cons. specialize (IH Hl).
  eapply linked_snoc; [|done|by apply adjacent_sym].
  rewrite reverse_cons. apply last_snoc.
Qed.

Lemma path_between_reverse grid s t p :
  path_between grid s t p → path_between grid t s (reverse p).
Proof.
  intros (Hh & Hl & Ho & Hlk). repeat split.
  - by rewrite head_reverse.
  - by rewrite last_reverse.
  - by apply Forall_reverse.
  - by apply linked_reverse.
Qed.

Lemma repeated_split (p : Path) :
  ¬ NoDup p → ∃ l1 x l2 l3, p = l1 ++ x :: l2 ++ x :: l3.
Proof.
  induction p as [|a p IH]; intros Hdup.
  - destruct Hdup. constructor.
  - destruct (decide (a ∈ p)) as [Hin|Hnotin].
    + apply list_elem_of_split in Hin as (l2 & l3 & ->). by exists [], a, l2, l3.
    + destruct IH as (l1 & x & l2 & l3 & ->).
      { intros Hnd. apply Hdup. by constructor. }
      by exists (a :: l1), x, l2, l3.
Qed.

(** A path that visits a cell twice can be shortened. *)
Lemma path_shortcut grid s t p :
  path_between grid s t p → ¬ NoDup p →
  ∃ q, path_between grid s t q ∧ (length q < length p)%nat.
Proof.
  intros (Hh & Hl & Ho & Hlk) (l1 & x & l2 & l3 & ->)%repeated_split.
  exists (l1 ++ x :: l3). split.
  - repeat split.
    + by destruct l1.
    + rewrite last_app_cons. rewrite last_app_cons in Hl.
      change (x :: l2 ++ x :: l3) with ((x :: l2) ++ x :: l3) in Hl.
      by rewrite last_app_cons in Hl.
    + rewrite Forall_app, Forall_cons, Forall_app, Forall_cons in Ho.
      rewrite Forall_app, Forall_cons. tauto.
    + apply linked_app_iff in Hlk as [H1 H2].
      apply linked_app_iff. split; [done|].
      change (x :: l2 ++ x :: l3) with ((x :: l2) ++ x :: l3) in H2.
      by apply linked_app_iff in H2 as [_ ?].
  - rewrite !length_app. simpl. rewrite length_app. simpl. lia.
Qed.

Lemma path_between_in_bounds grid s t p :
  rectangular grid → path_between grid s t p → Forall (in_bounds grid) p.
Proof.
  intros Hrect (_ & _ & Ho & _). eapply Forall_impl; [exact Ho|].
  intros q. by apply open_at_in_bounds.
Qed.

(** ** More about [astar] *)

Lemma astar_simple grid start goal p :
  rectangular grid → 0 <= start.1 → 0 <= start.2 →
  astar grid start goal = Return (Some p) → NoDup p.
Proof.
  intros Hrect Hr Hc Hrun. destruct (decide (NoDup p)) as [|Hdup]; [done|].
  pose proof (astar_sound _ _ _ _ Hr Hc Hrun) as Hp.
  destruct (path_shortcut _ _ _ _ Hp Hdup) as (q & Hq & Hlt).
  pose proof (astar_optimal _ _ _ _ _ Hrect Hr Hc Hrun Hq). lia.
Qed.

Lemma astar_None_iff grid start goal :
  rectangular grid → in_bounds grid start → in_bounds grid goal →
  astar grid start goal = Return None ↔
  ∀ q, path_between grid start goal q → unreached < Z.of_nat (length q).
Proof.
  intros Hrect Hs Hg. split.
  - intros Hrun q Hq.
    pose proof (path_between_open _ _ _ _ Hq) as (Hos & Hog & _).
    apply open_at_cell in Hos as (_ & _ & Hos).
    apply open_at_cell in Hog as (_ & _ & Hog).
    exact (astar_None_far grid start goal q Hrect Hos Hog Hrun Hq).
  - intros Hfar. destruct (astar_total _ _ _ Hrect Hs Hg) as [[p|] Hr]; [|done].
    pose proof (astar_length_bound _ _ _ _ Hr) as Hlen.
    apply astar_sound in Hr; [|apply Hs..]. apply Hfar in Hr. lia.
Qed.

Lemma astar_raise_cases grid start goal e :
  astar grid start goal = Raise e →
  e = IndexError ∧
  (cell grid start = Raise IndexError ∨ cell grid goal = Raise IndexError ∨
   ¬ rectangular grid).
Proof.
  intros Hrun. split; [by eapply astar_raises|].
  destruct (astar_cases grid start goal)
    as [[H _]|[(v & _ & _ & H)|[(_ & H & _)|[(v & _ & _ & _ & H)|(Hs & _ & H)]]]];
    try (rewrite H in Hrun; done); try tauto.
  right. right. intros Hrect.
  pose proof (astar_loop_result grid start goal) as Hpost.
  rewrite <- H, Hrun in Hpost. destruct Hpost as [_ [c Hc]].
  destruct (neighbors_total grid c Hrect) as [l Hl]; [|congruence].
  intros ->. unfold cell, getitem, norm_index in Hs. cbn [length] in Hs.
  repeat case_bool_decide; try lia; done.
Qed.

(** ** Cells that a write leaves alone *)


Lemma set_cell_open_mono grid c grid' q :
  set_cell grid c 1 = Return grid' → open_at grid q → open_at grid' q.
Proof.
  intros (kr & kc & row & Hkr & Hrow & Hkc & ->)%set_cell_Return
         (Hq1 & Hq2 & rowq & Hrowq & Hq).
  split; [done|]. split; [done|].
  destruct (decide (Z.to_nat q.1 = kr)) as [Heq|Hner].
  - rewrite Heq in Hrowq. assert (rowq = row) as -> by congruence.
    exists (<[kc := 1]> row). split.
    + rewrite Heq. apply list_lookup_insert_eq. by eapply lookup_lt_Some.
    + destruct (decide (Z.to_nat q.2 = kc)) as [<-|Hnec].
      * apply list_lookup_insert_eq. by eapply lookup_lt_Some.
      * by rewrite list_lookup_insert_ne.
  - exists rowq. split; [|done]. by rewrite list_lookup_insert_ne.
Qed.

Lemma path_between_mono grid grid' s t p :
  (∀ q, open_at grid q → open_at grid' q) →
  path_between grid s t p → path_between grid' s t p.
Proof.
  intros Hmono (Hh & Hl & Ho & Hlk). repeat split; try done.
  eapply Forall_impl; [exact Ho|done].
Qed.

(** ** Slices *)



Lemma scan_sublist g keep cs l :
  scan g keep cs = Return l → l `sublist_of` cs.
Proof.
  revert l. induction cs as [|c0 cs IH]; intros l; cbn [scan].
  { by intros [= <-]. }
  destruct (cell g c0) as [v| |]; simpl_bind; try done.
  destruct (keep c0 v) as [b| |]; simpl_bind; try done.
  destruct (scan g keep cs) as [rest| |]; simpl_bind; try done.
  intros [= <-]. destruct b; [apply sublist_skip|apply sublist_cons]; by apply IH.
Qed.

(** ** The loops write one cell at most *)

Lemma one_write_weaken v cs cs' g g' :
  (∀ c, c ∈ cs → c ∈ cs') → one_write v cs g g' → one_write v cs' g g'.
Proof. intros Hsub [->|(c & Hc & Hset)]; [by left|right; eauto]. Qed.

Section Writes.
Context (astar_fn : path_finder) (start end_ : Coord).



(** The loop of [make_multiple_solutions], over cells that are walls: the
    cell it leaves open, if any, and the path found through the new grid. *)
Lemma try_open_one_write orig max_tries cs tries g :
  (∀ c, c ∈ cs → cell g c = Return 0) →
  let out := try_open astar_fn start end_ orig max_tries cs tries g in
  one_write 1 cs g out.2 ∧
  (out.1 = Return true →
   ∃ c new, c ∈ cs ∧ set_cell g c 1 = Return out.2 ∧
            astar_fn out.2 start end_ = Return new ∧
            truthy new = true ∧ new ≠ orig).
Proof.
  revert tries. induction cs as [|c cs IH]; intros tries Hwall; cbn [try_open].
  { split; [by left|done]. }
  case_bool_decide; [split; [by left|done]|].
  rewrite seq_write_cell.
  destruct (set_cell_cases g c 1) as [[g1 Hg1]|Hraise]; rewrite ?Hg1, ?Hraise;
    [|split; [by left|done]].
  assert (one_write 1 (c :: cs) g g1) as Hone by (right; exists c; split; [left|done]).
  rewrite seq_reading. destruct (astar_fn g1 start end_) as [p|e|] eqn:Hp;
    [|by split..].
  destruct (truthy p) eqn:Ht; cbn [andb].
  - case_bool_decide as Hne.
    + split; [done|]. intros _. exists c, p. cbn [fst snd].
      split; [left|]. done.
    + rewrite seq_write_cell.
      rewrite (set_cell_restore g c 0 1 g1); [|apply Hwall; left|done].
      destruct (IH (tries + 1)) as [IH1 IH2]. { intros c' Hc'. apply Hwall. by right. }
      split.
      * eapply one_write_weaken; [|exact IH1]. intros c'. by right.
      * intros Htrue. destruct (IH2 Htrue) as (c' & new & Hc' & Hrest).
        exists c', new. split; [by right|done].
  - rewrite seq_write_cell.
    rewrite (set_cell_restore g c 0 1 g1); [|apply Hwall; left|done].
    destruct (IH (tries + 1)) as [IH1 IH2]. { intros c' Hc'. apply Hwall. by right. }
    split.
    + eapply one_write_weaken; [|exact IH1]. intros c'. by right.
    + intros Htrue. destruct (IH2 Htrue) as (c' & new & Hc' & Hrest).
      exists c', new. split; [by right|done].
Qed.

End Writes.




Section RoutineWrites.
Context (R : Random) (astar_fn : path_finder) (start end_ : Coord).


(** The wall that [make_multiple_solutions] may leave open, and what a
    success reports. *)
Lemma make_multiple_solutions_writes max_tries seed entropy g :
  let out := make_multiple_solutions R start end_ astar_fn max_tries seed entropy g in
  (out.2 = g ∨
   ∃ c l, wall_candidates g = Return l ∧ c ∈ l ∧ set_cell g c 1 = Return out.2) ∧
  (out.1 = Return true →
   ∃ c l orig new,
     wall_candidates g = Return l ∧ c ∈ l ∧ set_cell g c 1 = Return out.2 ∧
     astar_fn g start end_ = Return orig ∧ truthy orig = true ∧
     astar_fn out.2 start end_ = Return new ∧ truthy new = true ∧ new ≠ orig).
Proof.
  intros out. subst out. unfold make_multiple_solutions.
  destruct (check_endpoints_cases start end_ g)
    as [(Hs & He & Hchk)|(_ & _ & [Hchk|Hchk])];
    rewrite (seq_run _ _ _ _ _ Hchk); [|split; [by left|done]..].
  rewrite seq_reading.
  destruct (astar_fn g start end_) as [orig|e|] eqn:Hpath; [|split; [by left|done]..].
  destruct (truthy orig) eqn:Horig; cbn [negb]; [|split; [by left|done]].
  rewrite seq_reading.
  destruct (wall_candidates_cases g) as [(l & Hl & Hwall)|Hl]; rewrite Hl;
    [|split; [by left|done]].
  pose proof (shuffle_perm R _ (Random_new R seed entropy) l) as Hperm.
  destruct (shuffle R (Random_new R seed entropy) l) as [l2 rng2]. simpl in Hperm.
  destruct (try_open_one_write astar_fn start end_ orig max_tries l2 0 g) as [Hone Htrue].
  { intros c Hc. apply Hwall. by rewrite <- Hperm. }
  destruct (try_open astar_fn start end_ orig max_tries l2 0 g) as [r1 g1] eqn:Hloop.
  rewrite (seq_run _ _ _ _ _ Hloop). cbn [fst snd] in Hone, Htrue.
  assert (g1 = g ∨ ∃ c l', Return l = Return l' ∧ c ∈ l' ∧ set_cell g c 1 = Return g1)
    as Hwrite.
  { destruct Hone as [->|(c & Hc & Hset)]; [by left|]. right. exists c, l.
    split; [done|]. split; [by rewrite <- Hperm|done]. }
  destruct r1 as [[|]|e|]; (split; [exact Hwrite|]); try done.
  intros _. destruct (Htrue eq_refl) as (c & new & Hc & Hset & Hnew & Ht & Hne).
  exists c, l, orig, new. cbn [snd].
  split; [done|]. split; [by rewrite <- Hperm|]. done.
Qed.

End RoutineWrites.

(** ** Counting cells *)

Lemma flat_map_bind {A B} (f : A → list B) (l : list A) : flat_map f l = l ≫= f.
Proof. induction l as [|x l IH]; [done|]. simpl. by rewrite IH. Qed.

Lemma cells_NoDup grid : NoDup (cells grid).
Proof.
  unfold cells. rewrite flat_map_bind. apply NoDup_bind.
  - intros r1 r2 p _ _ H1 H2.
    apply list_elem_of_fmap in H1 as (c1 & -> & _).
    apply list_elem_of_fmap in H2 as (c2 & [= -> _] & _). done.
  - intros r _. apply (NoDup_fmap_2 (λ c, (r, c))). apply NoDup_seqZ.
  - apply NoDup_seqZ.
Qed.

Lemma cells_shape g g' : shape g' = shape g → cells g' = cells g.
Proof. intros [Hl Hw]%shape_size. unfold cells. by rewrite Hl, Hw. Qed.

Lemma filter_length_flip {A} (f g : A → bool) (l : list A) (p : A) :
  NoDup l → p ∈ l → f p = false → g p = true →
  (∀ q, q ∈ l → q ≠ p → g q = f q) →
  length (List.filter g l) = S (length (List.filter f l)).
Proof.
  intros Hnd Hp Hf Hg Hsame. induction Hnd as [|x l Hx Hnd IH]; [by apply elem_of_nil in Hp|].
  apply elem_of_cons in Hp as [<-|Hp].
  - simpl. rewrite Hf, Hg. simpl. f_equal. f_equal. apply List.filter_ext_in.
    intros q Hq%list_elem_of_In. apply Hsame; [by right|]. by intros ->.
  - simpl. rewrite (Hsame x); [|left|by intros ->].
    destruct (f x); simpl; rewrite IH; try done; intros q Hq; apply Hsame; by right.
Qed.

Lemma filter_length_same {A} (f g : A → bool) (l : list A) :
  (∀ q, q ∈ l → g q = f q) →
  length (List.filter g l) = length (List.filter f l).
Proof.
  intros Hsame. f_equal. apply List.filter_ext_in.
  intros q Hq%list_elem_of_In. by apply Hsame.
Qed.

Lemma open_match_true grid q (b : bool) :
  0 <= q.1 → 0 <= q.2 →
  match cell grid q with Return 1 => b | _ => false end = true ↔
  open_at grid q ∧ b = true.
Proof.
  intros H1 H2. rewrite open_at_cell. split.
  - destruct (cell grid q) as [v| |]; try done.
    destruct (decide (v = 1)) as [->|Hne]; [done|].
    destruct v as [|[]|]; done.
  - intros [(_ & _ & ->) ->]. done.
Qed.

(** ** Writing one cell of a grid of known shape *)

Lemma set_cell_in_range grid n m p v :
  shape grid = replicate n m →
  0 <= p.1 < Z.of_nat n → 0 <= p.2 < Z.of_nat m →
  ∃ row, grid !! Z.to_nat p.1 = Some row ∧ length row = m ∧
         set_cell grid p v
           = Return (<[Z.to_nat p.1 := <[Z.to_nat p.2 := v]> row]> grid).
Proof.
  intros Hsh Hr Hc.
  destruct (rows_lookup grid _ _ p.1 Hsh Hr) as (row & Hrow & Hlen & Hlen').
  exists row. split; [done|]. split; [done|]. unfold set_cell.
  rewrite (getitem_intro grid p.1 (Z.to_nat p.1) row);
    [|apply norm_index_in_range; lia|done].
  simpl_bind. unfold setitem.
  rewrite (norm_index_in_range (length row)) by lia. simpl_bind.
  by rewrite (norm_index_in_range (length grid)) by lia.
Qed.

Lemma at2_insert {A} (l : list (list A)) (p q : Coord) row (v x : A) :
  0 <= p.1 → 0 <= p.2 →
  l !! Z.to_nat p.1 = Some row → (Z.to_nat p.2 < length row)%nat →
  at2 (<[Z.to_nat p.1 := <[Z.to_nat p.2 := v]> row]> l) q x ↔
  (q = p ∧ x = v) ∨ (q ≠ p ∧ at2 l q x).
Proof.
  intros Hp1 Hp2 Hrow Hlen.
  pose proof (lookup_lt_Some _ _ _ Hrow) as Hlt.
  unfold at2. split.
  - intros (Hq1 & Hq2 & rowq & Hrowq & Hx).
    destruct (decide (Z.to_nat q.1 = Z.to_nat p.1)) as [Heq|Hner].
    + rewrite Heq, list_lookup_insert_eq in Hrowq by done. injection Hrowq as <-.
      destruct (decide (Z.to_nat q.2 = Z.to_nat p.2)) as [Heq2|Hnec].
      * rewrite Heq2, list_lookup_insert_eq in Hx by done. injection Hx as <-.
        left. split; [|done]. destruct p, q; simpl in *. f_equal; lia.
      * rewrite list_lookup_insert_ne in Hx by done. right.
        split; [by intros ->|]. split; [done|]. split; [done|].
        exists row. by rewrite Heq.
    + rewrite list_lookup_insert_ne in Hrowq by done. right.
      split; [by intros ->|]. split; [done|]. split; [done|]. by exists rowq.
  - intros [[-> ->]|(Hne & Hq1 & Hq2 & rowq & Hrowq & Hx)].
    + split; [done|]. split; [done|]. exists (<[Z.to_nat p.2 := v]> row).
      split; by apply list_lookup_insert_eq.
    + split; [done|]. split; [done|].
      destruct (decide (Z.to_nat q.1 = Z.to_nat p.1)) as [Heq|Hner].
      * rewrite Heq in Hrowq. assert (rowq = row) as -> by congruence.
        exists (<[Z.to_nat p.2 := v]> row). split.
        -- rewrite Heq. by apply list_lookup_insert_eq.
        -- rewrite list_lookup_insert_ne; [done|].
           intros Heq2. apply Hne. destruct p, q; simpl in *. f_equal; lia.
      * exists rowq. by rewrite list_lookup_insert_ne.
Qed.

Lemma open_at_write grid n m p grid' q :
  shape grid = replicate n m →
  0 <= p.1 < Z.of_nat n → 0 <= p.2 < Z.of_nat m →
  set_cell grid p 1 = Return grid' →
  open_at grid' q ↔ q = p ∨ open_at grid q.
Proof.
  intros Hsh Hr Hc Hset.
  destruct (set_cell_in_range grid n m p 1 Hsh Hr Hc) as (row & Hrow & Hlen & Hset').
  rewrite Hset' in Hset. injection Hset as <-.
  change (open_at ?g q) with (at2 g q 1).
  rewrite (at2_insert grid p q row 1 1); [|lia|lia|done|lia].
  destruct (decide (q = p)); tauto.
Qed.

Lemma bits_write grid p v grid' :
  bits grid → v = 0 ∨ v = 1 → set_cell grid p v = Return grid' → bits grid'.
Proof.
  intros Hbits Hv (kr & kc & row & _ & Hrow & _ & ->)%set_cell_Return.
  apply Forall_insert; [done|]. apply Forall_insert; [|done].
  unfold bits in Hbits. rewrite Forall_forall in Hbits. apply Hbits.
  by eapply list_elem_of_lookup_2.
Qed.

Lemma bits_cell grid p v : bits grid → cell grid p = Return v → v = 0 ∨ v = 1.
Proof.
  intros Hbits (kr & kc & row & _ & Hrow & _ & Hv)%cell_Return.
  unfold bits in Hbits. rewrite Forall_forall in Hbits.
  specialize (Hbits row). rewrite Forall_forall in Hbits. apply Hbits.
  - by eapply list_elem_of_lookup_2.
  - by eapply list_elem_of_lookup_2.
Qed.

(** The number of Open cells that [f] selects, after a wall cell has been
    opened. *)
Lemma count_write (f : Coord → bool) grid n m p grid' :
  shape grid = replicate n m →
  0 <= p.1 < Z.of_nat n → 0 <= p.2 < Z.of_nat m →
  ¬ open_at grid p → set_cell grid p 1 = Return grid' →
  length (List.filter (λ q, match cell grid' q with Return 1 => f q | _ => false end)
            (cells grid')) =
  Nat.add (if f p then 1%nat else 0%nat)
    (length (List.filter (λ q, match cell grid q with Return 1 => f q | _ => false end)
               (cells grid))).
Proof.
  intros Hsh Hr Hc Hclosed Hset.
  rewrite (cells_shape grid grid') by (by eapply set_cell_shape).
  assert (∀ q, q ∈ cells grid → 0 <= q.1 ∧ 0 <= q.2) as Hnn.
  { intros q [[? _] [? _]]%elem_of_cells. done. }
  assert (p ∈ cells grid) as Hp.
  { apply elem_of_cells.
    destruct (rows_lookup grid _ _ p.1 Hsh Hr) as (_ & _ & _ & Hlen).
    unfold in_bounds, width. rewrite Hlen.
    destruct grid as [|row0 grid0]; [simpl in Hlen; lia|].
    unfold shape in Hsh. destruct n; [done|]. injection Hsh as Hrow0 _. simpl. lia. }
  destruct (f p) eqn:Hfp.
  - apply filter_length_flip with (p := p); [apply cells_NoDup|done|..].
    + apply not_true_is_false. intros Ht.
      apply open_match_true in Ht as [? _]; [done|lia..].
    + apply open_match_true; [lia..|]. split; [|done].
      apply (open_at_write grid n m p grid' p Hsh Hr Hc Hset). by left.
    + intros q Hq Hne. apply eq_iff_eq_true.
      destruct (Hnn q Hq). rewrite !open_match_true by done.
      rewrite (open_at_write grid n m p grid' q Hsh Hr Hc Hset). tauto.
  - simpl. apply filter_length_same. intros q Hq. apply eq_iff_eq_true.
    destruct (Hnn q Hq). rewrite !open_match_true by done.
    rewrite (open_at_write grid n m p grid' q Hsh Hr Hc Hset).
    split; [|tauto]. intros [[->|?] ?]; [congruence|done].
Qed.

(** ** Joining paths *)

Lemma connected_refl grid p : open_at grid p → connected grid p p.
Proof. intros Hp. exists [p]. by apply path_between_single. Qed.

Lemma connected_sym grid a b : connected grid a b → connected grid b a.
Proof. intros [p Hp]. exists (reverse p). by apply path_between_reverse. Qed.

Lemma connected_step grid a b c :
  connected grid a b → adjacent b c → open_at grid c → connected grid a c.
Proof. intros [p Hp] Hadj Hc. exists (p ++ [c]). by eapply path_between_snoc. Qed.

Lemma connected_trans grid a b c :
  connected grid a b → connected grid b c → connected grid a c.
Proof.
  intros Hab [q Hq]. apply path_reach in Hq as (k & Hk & _).
  induction Hk as [|k v w _ IH Hadj Hw]; [done|].
  by eapply connected_step.
Qed.

Lemma connected_mono grid grid' a b :
  (∀ q, open_at grid q → open_at grid' q) →
  connected grid a b → connected grid' a b.
Proof. intros Hmono [p Hp]. exists p. by eapply path_between_mono. Qed.

(** ** Rooms and the walls between them *)

Ltac each_delta Hd :=
  unfold deltas4 in Hd;
  repeat (apply elem_of_cons in Hd as [->|Hd]);
  [..|by apply elem_of_nil in Hd].

Lemma odd_double_succ n : Z.odd (2 * n + 1) = true.
Proof. by rewrite Z.odd_add, Z.odd_mul. Qed.

Lemma odd_double n : Z.odd (2 * n) = false.
Proof. by rewrite Z.odd_mul. Qed.

Lemma is_room_to_grid rc : is_room (to_grid rc) = true.
Proof. unfold is_room, to_grid. cbn [fst snd]. by rewrite !odd_double_succ. Qed.

Lemma is_room_wall a d : d ∈ deltas4 → is_room (wall_between a d) = false.
Proof.
  intros Hd. unfold is_room, wall_between. each_delta Hd; cbn [fst snd].
  - replace (2 * a.2 + 1 + 1) with (2 * (a.2 + 1)) by lia.
    rewrite odd_double. apply andb_false_r.
  - replace (2 * a.1 + 1 + 1) with (2 * (a.1 + 1)) by lia. by rewrite odd_double.
  - replace (2 * a.2 + 1 + -1) with (2 * a.2) by lia.
    rewrite odd_double. apply andb_false_r.
  - replace (2 * a.1 + 1 + -1) with (2 * a.1) by lia. by rewrite odd_double.
Qed.

Lemma wall_not_room a d rc : d ∈ deltas4 → wall_between a d ≠ to_grid rc.
Proof.
  intros Hd Heq. pose proof (is_room_wall a d Hd) as Hw.
  rewrite Heq, is_room_to_grid in Hw. done.
Qed.

Lemma to_grid_inj a b : to_grid a = to_grid b → a = b.
Proof. destruct a, b. unfold to_grid. intros [= ? ?]. f_equal; lia. Qed.

Lemma wall_between_inj a d a' d' :
  d ∈ deltas4 → d' ∈ deltas4 → wall_between a d = wall_between a' d' →
  (a' = a ∧ (a'.1 + d'.1, a'.2 + d'.2) = (a.1 + d.1, a.2 + d.2)) ∨
  (a' = (a.1 + d.1, a.2 + d.2) ∧ (a'.1 + d'.1, a'.2 + d'.2) = a).
Proof.
  intros Hd Hd'. destruct a as [ar ac], a' as [ar' ac']. unfold wall_between.
  cbn [fst snd]. intros [= H1 H2].
  each_delta Hd; each_delta Hd'; cbn [fst snd] in *;
    first [lia | left; split; f_equal; lia | right; split; f_equal; lia].
Qed.

Lemma wall_adjacent a d :
  d ∈ deltas4 →
  adjacent (to_grid a) (wall_between a d) ∧
  adjacent (wall_between a d) (to_grid (a.1 + d.1, a.2 + d.2)).
Proof.
  intros Hd. unfold adjacent, to_grid, wall_between.
  each_delta Hd; cbn [fst snd]; lia.
Qed.

Lemma wall_in_range rows cols a d :
  room_in rows cols a → room_in rows cols (a.1 + d.1, a.2 + d.2) →
  0 <= (wall_between a d).1 < Z.of_nat (Z.to_nat (2 * rows + 1)) ∧
  0 <= (wall_between a d).2 < Z.of_nat (Z.to_nat (2 * cols + 1)).
Proof. unfold room_in, wall_between. cbn [fst snd]. lia. Qed.

Lemma wall_div r dr : (2 * r + 1 + (2 * (r + dr) + 1)) `div` 2 = 2 * r + 1 + dr.
Proof.
  replace (2 * r + 1 + (2 * (r + dr) + 1)) with ((2 * r + 1 + dr) * 2) by lia.
  by rewrite Z.div_mul.
Qed.

(** ** Marking a room as visited *)

Lemma set_visited_at visited rows cols p visited' :
  length <$> visited = replicate (Z.to_nat rows) (Z.to_nat cols) →
  room_in rows cols p → set_visited visited p = Return visited' →
  ∀ rc, visited_at visited' rc ↔ rc = p ∨ visited_at visited rc.
Proof.
  intros Hsh [Hr Hc] Hset rc.
  destruct (rows_lookup visited _ _ p.1 Hsh) as (row & Hrow & Hlen & Hlen'); [lia|].
  unfold set_visited in Hset.
  rewrite (getitem_intro visited p.1 (Z.to_nat p.1) row) in Hset;
    [|apply norm_index_in_range; lia|done].
  simpl_bind in Hset. unfold setitem in Hset.
  rewrite (norm_index_in_range (length row)) in Hset by lia. simpl_bind in Hset.
  rewrite (norm_index_in_range (length visited)) in Hset by lia.
  injection Hset as <-.
  change (visited_at ?v rc) with (at2 v rc true).
  rewrite (at2_insert visited p rc row true true); [|lia|lia|done|lia].
  destruct (decide (rc = p)); tauto.
Qed.

Lemma visited_lookup visited rc row b :
  0 <= rc.1 → 0 <= rc.2 →
  visited !! Z.to_nat rc.1 = Some row → row !! Z.to_nat rc.2 = Some b →
  visited_at visited rc ↔ b = true.
Proof.
  intros H1 H2 Hrow Hb. split.
  - intros (_ & _ & row' & Hrow' & Hb'). congruence.
  - intros ->. split; [done|]. split; [done|]. by exists row.
Qed.

Lemma count_none (f : Coord → bool) grid :
  (∀ p, ¬ open_at grid p) →
  length (List.filter (λ q, match cell grid q with Return 1 => f q | _ => false end)
            (cells grid)) = 0%nat.
Proof.
  intros Hnone.
  rewrite (filter_length_same (λ _, false)).
  - by induction (cells grid).
  - intros q [[? _] [? _]]%elem_of_cells. apply not_true_is_false.
    intros [Hopen _]%open_match_true; [|done..]. by apply Hnone in Hopen.
Qed.

(** ** What [carve] maintains: the carved cells form a tree *)

Section CarveTree.
Context (R : Random) (rows cols : Z).

(** Entering a room: [visited[r][c] = True; grid[gr][gc] = 1]. *)
Lemma carve_enter (st : carve_state R) r c :
  maze_inv rows cols (Some (r, c)) st → room_in rows cols (r, c) →
  ¬ visited_at (cs_visited st) (r, c) →
  ∃ visited1 grid1,
    set_visited (cs_visited st) (r, c) = Return visited1 ∧
    set_cell (cs_grid st) (2 * r + 1, 2 * c + 1) 1 = Return grid1 ∧
    (∀ (rng1 : rng R) deltas1, deltas1 ≡ₚ cs_deltas st →
       maze_inv rows cols None (CarveState rng1 deltas1 visited1 grid1)) ∧
    (unvisited visited1 + 1 = unvisited (cs_visited st))%nat ∧
    (∀ rc, visited_at visited1 rc ↔ rc = (r, c) ∨ visited_at (cs_visited st) rc).
Proof.
  intros Hinv Hroom Hnot. pose proof Hroom as [Hr Hc]. cbn [fst snd] in Hr, Hc.
  destruct (mi_wf _ _ _ _ Hinv) as [Hv Hg].
  destruct (get_visited_total (cs_visited st) rows cols (r, c) Hv Hr Hc)
    as (row & b & Hrow & Hb & _).
  assert (b = false) as ->.
  { destruct b; [|done]. destruct Hnot.
    apply (visited_lookup _ (r, c) row true); cbn [fst snd]; done || lia. }
  destruct (set_visited_total _ _ _ (r, c) row false Hv Hr Hc Hrow Hb)
    as (visited1 & Hset & Hv1 & Hcount).
  pose proof (set_visited_at _ _ _ _ _ Hv Hroom Hset) as Hvis.
  assert (¬ open_at (cs_grid st) (2 * r + 1, 2 * c + 1)) as Hclosed.
  { intros Hopen. apply Hnot. by apply (mi_rooms _ _ _ _ Hinv (r, c)). }
  destruct (set_cell_total (cs_grid st) _ _ (2 * r + 1, 2 * c + 1) 1 Hg)
    as (grid1 & Hset1 & Hg1); [cbn [fst]; lia|cbn [snd]; lia|].
  assert (∀ q, open_at grid1 q ↔ q = (2 * r + 1, 2 * c + 1) ∨ open_at (cs_grid st) q)
    as Hopen.
  { intros q. apply (open_at_write _ _ _ _ _ q Hg); [cbn [fst]; lia|cbn [snd]; lia|done]. }
  exists visited1, grid1. split; [done|]. split; [done|]. split; [|split; [lia|done]].
  intros rng1 deltas1 Hperm. split; cbn [cs_rng cs_deltas cs_visited cs_grid].
  - by split.
  - by rewrite Hperm, (mi_deltas _ _ _ _ Hinv).
  - eapply bits_write; [apply (mi_bits _ _ _ _ Hinv)|by right|done].
  - intros rc Hrc. rewrite Hopen, Hvis, (mi_rooms _ _ _ _ Hinv rc Hrc).
    change (2 * r + 1, 2 * c + 1) with (to_grid (r, c)).
    split; (intros [Heq|?]; [left|by right]); [by apply to_grid_inj|by rewrite Heq].
  - intros p [->|Hp]%Hopen; [left; by exists (r, c)|].
    destruct (mi_open _ _ _ _ Hinv p Hp) as [?|(a & d & Hd & Ha & Hb' & -> & Hva & Hvb)];
      [by left|].
    right. exists a, d. repeat (split; [done|]). split; [apply Hvis; by right|].
    left. apply Hvis. destruct Hvb as [?|[= <- <-]]; [by right|by left].
  - assert (∀ q, open_at (cs_grid st) q → open_at grid1 q) as Hmono
      by (intros q ?; apply Hopen; by right).
    assert (open_at grid1 (2 * r + 1, 2 * c + 1)) as Hnew by (apply Hopen; by left).
    intros p [->|Hp]%Hopen.
    + destruct (mi_pend _ _ _ _ Hinv (r, c) eq_refl) as [[[= -> ->] _]|(w & Hw & Hadj)].
      * by apply connected_refl.
      * eapply connected_step; [|exact Hadj|exact Hnew].
        eapply connected_mono; [exact Hmono|]. by apply (mi_conn _ _ _ _ Hinv).
    + eapply connected_mono; [exact Hmono|]. by apply (mi_conn _ _ _ _ Hinv).
  - done.
  - pose proof (mi_count_rooms _ _ _ _ Hinv) as Hrooms.
    unfold open_rooms in *.
    rewrite (count_write is_room (cs_grid st) _ _ (2 * r + 1, 2 * c + 1) grid1 Hg);
      [|cbn [fst]; lia|cbn [snd]; lia|done|done].
    change (2 * r + 1, 2 * c + 1) with (to_grid (r, c)).
    rewrite is_room_to_grid.
    revert Hcount Hrooms. cbn [cs_visited].
    generalize (unvisited visited1) (unvisited (cs_visited st)). lia.
  - pose proof (mi_count_walls _ _ _ _ Hinv) as Hwalls.
    unfold opened_walls in *.
    rewrite (count_write (λ p, negb (is_room p)) (cs_grid st) _ _
               (2 * r + 1, 2 * c + 1) grid1 Hg);
      [|cbn [fst]; lia|cbn [snd]; lia|done|done].
    change (2 * r + 1, 2 * c + 1) with (to_grid (r, c)).
    rewrite is_room_to_grid. cbn [negb].
    revert Hcount Hwalls. cbn [cs_visited].
    generalize (unvisited visited1) (unvisited (cs_visited st)). lia.
Qed.

(** Opening the wall towards an unvisited room. *)
Lemma carve_open_wall (st : carve_state R) r c d :
  maze_inv rows cols None st → d ∈ deltas4 →
  room_in rows cols (r, c) → room_in rows cols (r + d.1, c + d.2) →
  visited_at (cs_visited st) (r, c) →
  ¬ visited_at (cs_visited st) (r + d.1, c + d.2) →
  ∃ grid2,
    set_cell (cs_grid st) (2 * r + 1 + d.1, 2 * c + 1 + d.2) 1 = Return grid2 ∧
    maze_inv rows cols (Some (r + d.1, c + d.2))
      (CarveState (cs_rng st) (cs_deltas st) (cs_visited st) grid2).
Proof.
  intros Hinv Hd Hroom Hroom' Hvis Hnot.
  destruct (mi_wf _ _ _ _ Hinv) as [Hv Hg].
  change (2 * r + 1 + d.1, 2 * c + 1 + d.2) with (wall_between (r, c) d).
  pose proof (wall_in_range rows cols (r, c) d Hroom Hroom') as [Hwr Hwc].
  assert (¬ open_at (cs_grid st) (wall_between (r, c) d)) as Hclosed.
  { intros Hopen.
    destruct (mi_open _ _ _ _ Hinv _ Hopen)
      as [(rc & _ & Heq)|(a & d' & Hd' & Ha & Hb & Heq & Hva & [Hvb|?])]; [|idtac|done].
    - by apply wall_not_room in Heq.
    - apply wall_between_inj in Heq as [[-> Heq]|[-> Heq]]; [| |done|done].
      + apply Hnot. cbn [fst snd] in Heq. by rewrite <- Heq.
      + by apply Hnot. }
  destruct (set_cell_total (cs_grid st) _ _ (wall_between (r, c) d) 1 Hg)
    as (grid2 & Hset & Hg2); [done..|].
  assert (∀ q, open_at grid2 q ↔ q = wall_between (r, c) d ∨ open_at (cs_grid st) q)
    as Hopen.
  { intros q. by apply (open_at_write _ _ _ _ _ q Hg). }
  assert (∀ q, open_at (cs_grid st) q → open_at grid2 q) as Hmono
    by (intros q ?; apply Hopen; by right).
  assert (open_at grid2 (wall_between (r, c) d)) as Hnew by (apply Hopen; by left).
  pose proof (wall_adjacent (r, c) d Hd) as [Hadj1 Hadj2]. cbn [fst snd] in Hadj2.
  exists grid2. split; [done|].
  split; cbn [cs_rng cs_deltas cs_visited cs_grid].
  - by split.
  - apply (mi_deltas _ _ _ _ Hinv).
  - apply (bits_write (cs_grid st) (wall_between (r, c) d) 1 grid2);
      [apply (mi_bits _ _ _ _ Hinv)|by right|exact Hset].
  - intros rc Hrc. rewrite Hopen, <- (mi_rooms _ _ _ _ Hinv rc Hrc).
    split; [intros [Heq|?]; [|done]|by right].
    symmetry in Heq. by apply wall_not_room in Heq.
  - intros p [->|Hp]%Hopen.
    + right. exists (r, c), d. cbn [fst snd]. repeat (split; [done|]). by right.
    + destruct (mi_open _ _ _ _ Hinv p Hp)
        as [?|(a & d' & Hd' & Ha & Hb & -> & Hva & [Hvb|?])]; [by left| |done].
      right. exists a, d'. repeat (split; [done|]). by left.
  - intros p [->|Hp]%Hopen.
    + eapply connected_step; [|exact Hadj1|exact Hnew].
      eapply connected_mono; [exact Hmono|]. apply (mi_conn _ _ _ _ Hinv).
      by apply (mi_rooms _ _ _ _ Hinv (r, c)).
    + eapply connected_mono; [exact Hmono|]. by apply (mi_conn _ _ _ _ Hinv).
  - intros rc [= <-]. right. by exists (wall_between (r, c) d).
  - pose proof (mi_count_rooms _ _ _ _ Hinv) as Hrooms.
    unfold open_rooms in *.
    rewrite (count_write is_room (cs_grid st) _ _ (wall_between (r, c) d) grid2 Hg);
      [|done..].
    by rewrite is_room_wall.
  - pose proof (mi_count_walls _ _ _ _ Hinv) as Hwalls.
    unfold opened_walls in *.
    rewrite (count_write (λ p, negb (is_room p)) (cs_grid st) _ _
               (wall_between (r, c) d) grid2 Hg); [|done..].
    rewrite is_room_wall by done. cbn [negb].
    revert Hwalls. generalize (unvisited (cs_visited st)). lia.
Qed.

Lemma carve_loop_keeps f rec r c n i (st : carve_state R) :
  carve_keeps R rows cols f rec → room_in rows cols (r, c) →
  maze_inv rows cols None st → visited_at (cs_visited st) (r, c) →
  (unvisited (cs_visited st) ≤ f)%nat →
  ∃ st', carve_loop R rec rows cols r c (2 * r + 1) (2 * c + 1) n i st = Return st' ∧
         maze_inv rows cols None st' ∧
         (unvisited (cs_visited st') ≤ unvisited (cs_visited st))%nat ∧
         (∀ rc, visited_at (cs_visited st) rc → visited_at (cs_visited st') rc).
Proof.
  intros Hrec Hroom. revert i st.
  induction n as [|n IH]; intros i st Hinv Hvis Hf; cbn [carve_loop]; [by exists st|].
  destruct (cs_deltas st !! i) as [[dr dc]|] eqn:Hi; [|by exists st].
  assert ((dr, dc) ∈ deltas4) as Hd.
  { rewrite <- (mi_deltas _ _ _ _ Hinv). by eapply list_elem_of_lookup_2. }
  destruct (bool_decide (0 <= r + dr < rows) && bool_decide (0 <= c + dc < cols)) eqn:Hin;
    [|by apply IH].
  apply andb_prop in Hin as [Hnr%bool_decide_eq_true_1 Hnc%bool_decide_eq_true_1].
  destruct (mi_wf _ _ _ _ Hinv) as [Hv Hg].
  destruct (get_visited_total (cs_visited st) rows cols (r + dr, c + dc) Hv)
    as (row & b & Hrow & Hb & ->); [done..|].
  simpl_bind. destruct b; cbn [negb]; [by apply IH|].
  cbn [to_grid fst snd]. rewrite !wall_div.
  assert (¬ visited_at (cs_visited st) (r + dr, c + dc)) as Hnv.
  { intros Hvn. apply (visited_lookup _ (r + dr, c + dc) row false) in Hvn; [done|..];
      cbn [fst snd]; done || lia. }
  destruct (carve_open_wall st r c (dr, dc) Hinv Hd Hroom) as (grid2 & Hset2 & Hinv2);
    [by split|done|done|].
  cbn [fst snd] in Hset2, Hinv2. rewrite Hset2. simpl_bind.
  destruct (Hrec (r + dr) (c + dc) _ Hinv2) as (st1 & -> & Hinv1 & Hlt1 & Hmono1 & _);
    [by split|done|done|].
  simpl_bind. cbn [cs_visited] in Hlt1, Hmono1.
  destruct (IH (S i) st1 Hinv1) as (st' & Hrun & Hinv' & Hle' & Hmono'); [by apply Hmono1|lia|].
  exists st'. split; [done|]. split; [done|]. split; [lia|].
  intros rc Hrc. by apply Hmono', Hmono1.
Qed.

Lemma carve_keeps_all f : carve_keeps R rows cols f (carve R f rows cols).
Proof.
  induction f as [|f IH]; intros r c st Hinv Hroom Hnot Hf.
  - destruct (carve_enter st r c Hinv Hroom Hnot) as (v1 & g1 & _ & _ & _ & Hcount & _).
    lia.
  - cbn [carve].
    destruct (carve_enter st r c Hinv Hroom Hnot)
      as (v1 & g1 & -> & Hset & Hinv1 & Hcount & Hvis1).
    simpl_bind. cbn [to_grid fst snd]. rewrite Hset. simpl_bind.
    pose proof (shuffle_perm R _ (cs_rng st) (cs_deltas st)) as Hperm.
    destruct (shuffle R (cs_rng st) (cs_deltas st)) as [deltas1 rng1].
    cbn [fst] in Hperm.
    destruct (carve_loop_keeps f (carve R f rows cols) r c (length deltas1) O
                (CarveState rng1 deltas1 v1 g1) IH Hroom (Hinv1 rng1 deltas1 Hperm))
      as (st' & Hrun & Hinv' & Hle' & Hmono').
    { cbn [cs_visited]. apply Hvis1. by left. }
    { cbn [cs_visited]. lia. }
    cbn [cs_visited] in Hle', Hmono'.
    exists st'. split; [done|]. split; [done|]. split; [lia|]. split.
    + intros rc Hrc. apply Hmono', Hvis1. by right.
    + apply Hmono', Hvis1. by left.
Qed.

End CarveTree.

(** The state in which [generate_maze] calls [carve(0, 0)]. *)
Lemma maze_inv_init (R : Random) rows cols (g : rng R) :
  1 <= rows → 1 <= cols →
  maze_inv rows cols (Some (0, 0))
    (CarveState g [(0, 1); (1, 0); (0, -1); (-1, 0)]
       (replicate (Z.to_nat rows) (replicate (Z.to_nat cols) false))
       (_make_grid rows cols)).
Proof.
  intros Hrows Hcols.
  assert (∀ p, ¬ open_at (_make_grid rows cols) p) as Hnone.
  { intros p (_ & _ & row & Hrow & Hp). unfold _make_grid in Hrow.
    apply lookup_replicate in Hrow as [-> _]. by apply lookup_replicate in Hp as [? _]. }
  assert (∀ rc, ¬ visited_at
            (replicate (Z.to_nat rows) (replicate (Z.to_nat cols) false)) rc) as Hnov.
  { intros rc (_ & _ & row & Hrow & Hp).
    apply lookup_replicate in Hrow as [-> _]. by apply lookup_replicate in Hp as [? _]. }
  split; cbn [cs_rng cs_deltas cs_visited cs_grid].
  - split; cbn [cs_visited cs_grid].
    + by rewrite fmap_replicate, length_replicate.
    + unfold _make_grid, shape. by rewrite fmap_replicate, length_replicate.
  - done.
  - unfold bits, _make_grid. apply Forall_replicate, Forall_replicate. by left.
  - intros rc _. split; intros H; [by apply Hnone in H|by apply Hnov in H].
  - intros p Hp. by apply Hnone in Hp.
  - intros p Hp. by apply Hnone in Hp.
  - intros rc [= <-]. by left.
  - unfold open_rooms. rewrite count_none by done.
    rewrite unvisited_replicate, Z2Nat.inj_mul by lia. done.
  - unfold opened_walls. rewrite (count_none (λ p, negb (is_room p))) by done.
    rewrite unvisited_replicate, Z2Nat.inj_mul by lia. lia.
Qed.

(** The grid that [generate_maze] returns is the grid of a state that
    satisfies the invariant, with room (0, 0) visited. *)
Lemma generate_maze_inv (R : Random) rows cols seed entropy grid :
  generate_maze R rows cols seed entropy = Return grid →
  1 <= rows ∧ 1 <= cols ∧
  ∃ st : carve_state R, grid = cs_grid st ∧ maze_inv rows cols None st ∧
                        visited_at (cs_visited st) (0, 0).
Proof.
  unfold generate_maze. case_bool_decide as Hsize; [done|].
  assert (1 <= rows ∧ 1 <= cols) as [Hrows Hcols] by lia.
  destruct (carve_keeps_all R rows cols (carve_fuel rows cols) 0 0
              (CarveState (Random_new R seed entropy) [(0, 1); (1, 0); (0, -1); (-1, 0)]
                 (replicate (Z.to_nat rows) (replicate (Z.to_nat cols) false))
                 (_make_grid rows cols)))
    as (st' & -> & Hinv & _ & _ & Hvis).
  - by apply maze_inv_init.
  - unfold room_in. cbn [fst snd]. lia.
  - intros (_ & _ & row & Hrow & Hp). cbn [cs_visited] in Hrow.
    apply lookup_replicate in Hrow as [-> _]. by apply lookup_replicate in Hp as [? _].
  - cbn [cs_visited]. rewrite unvisited_replicate. unfold carve_fuel.
    rewrite Z2Nat.inj_mul by lia. lia.
  - simpl_bind. intros [= <-]. split; [done|]. split; [done|]. by exists st'.
Qed.

(** ** [find_valid_cell] *)

Lemma choice_elem_of {A} {R : Random} (C : Chooser R) g (seq : list A) :
  seq ≠ [] → ∃ x, choice C g seq = Return x ∧ x ∈ seq.
Proof.
  intros Hne. unfold choice.
  rewrite bool_decide_eq_false_2 by (by destruct seq).
  pose proof (randbelow_lt C g (length seq)) as Hlt.
  ospecialize* Hlt. { destruct seq; [done|simpl; lia]. }
  destruct (lookup_lt_is_Some_2 seq (randbelow C g (length seq)) Hlt) as [x Hx].
  exists x. split; [|by eapply list_elem_of_lookup_2].
  apply getitem_nonneg; [lia|]. by rewrite Nat2Z.id.
Qed.

Lemma scan_total g keep cs :
  (∀ c, c ∈ cs → ∃ v b, cell g c = Return v ∧ keep c v = Return b) →
  ∃ l, scan g keep cs = Return l ∧
       ∀ c, c ∈ l ↔ c ∈ cs ∧ ∃ v, cell g c = Return v ∧ keep c v = Return true.
Proof.
  induction cs as [|c0 cs IH]; intros Hall; cbn [scan].
  { exists []. split; [done|]. intros c. split; [by intros ?%elem_of_nil|].
    by intros [?%elem_of_nil _]. }
  destruct (Hall c0) as (v0 & b0 & Hv0 & Hb0); [left|].
  destruct IH as (rest & -> & Hrest). { intros c Hc. apply Hall. by right. }
  rewrite Hv0. simpl_bind. rewrite Hb0. simpl_bind.
  eexists. split; [done|]. intros c. destruct b0.
  - rewrite !elem_of_cons, Hrest. split.
    + intros [->|[Hc Hk]]; [split; [by left|eauto]|split; [by right|done]].
    + intros [[->|Hc] Hk]; [by left|right; done].
  - rewrite elem_of_cons, Hrest. split.
    + intros [Hc Hk]. split; [by right|done].
    + intros [[->|Hc] (v & Hv & Hk)]; [congruence|eauto].
Qed.

Lemma find_valid_cell_cases {R : Random} (C : Chooser R) grid exclude seed entropy :
  rectangular grid →
  (∃ p, find_valid_cell C grid exclude seed entropy = Return p) ∨
  (find_valid_cell C grid exclude seed entropy = Raise ValueError ∧
   ∀ p, open_at grid p → p ∈ default ∅ exclude).
Proof.
  intros Hrect. unfold find_valid_cell. case_bool_decide as Hrows.
  { right. split; [done|]. intros p (_ & _ & row & Hrow & _).
    apply length_zero_iff_nil in Hrows. by subst. }
  destruct grid as [|row0 grid']; [done|].
  assert (getitem (row0 :: grid') 0 = Return row0) as -> by (by apply getitem_nonneg).
  simpl_bind.
  match goal with |- context [scan ?g ?k ?cs] =>
    destruct (scan_total g k cs) as (l & -> & Hl)
  end.
  { intros c Hc%elem_of_cells. destruct (in_bounds_cell _ c Hrect Hc) as [v Hv]. eauto. }
  simpl_bind. case_bool_decide as Hnil.
  - right. split; [done|]. intros p Hp.
    destruct (decide (p ∈ default ∅ exclude)) as [|Hnot]; [done|]. exfalso.
    assert (p ∈ l) as Hin; [|subst l; by apply elem_of_nil in Hin].
    apply Hl. split; [by apply elem_of_cells, open_at_in_bounds|].
    apply open_at_cell in Hp as (_ & _ & Hp). exists 1. split; [done|].
    by rewrite !bool_decide_eq_true_2.
  - left. destruct (choice_elem_of C (Random_new R seed entropy) l Hnil) as (x & -> & _).
    by exists x.
Qed.

Lemma find_valid_cell_sound {R : Random} (C : Chooser R) grid exclude seed entropy p :
  find_valid_cell C grid exclude seed entropy = Return p →
  in_bounds grid p ∧ open_at grid p ∧ p ∉ default ∅ exclude.
Proof.
  unfold find_valid_cell. case_bool_decide; [done|].
  destruct (getitem grid 0) as [row0| |]; simpl_bind; try done.
  match goal with |- context [scan ?g ?k ?cs] =>
    destruct (scan g k cs) as [l| |] eqn:Hscan
  end; simpl_bind; try done.
  case_bool_decide as Hnil; [done|].
  destruct (choice_elem_of C (Random_new R seed entropy) l Hnil) as (x & -> & Hx).
  intros [= <-].
  assert (in_bounds grid x) as Hin.
  { apply elem_of_cells. eapply elem_of_sublist; [exact Hx|]. by eapply scan_sublist. }
  destruct (scan_spec _ _ _ _ Hscan x Hx) as (v & Hv & Hkeep).
  injection Hkeep as Hk. apply andb_prop in Hk as [Hv1 Hne].
  apply bool_decide_eq_true_1 in Hv1 as ->. apply bool_decide_eq_true_1 in Hne.
  split; [done|]. split; [|done]. apply open_at_cell. destruct Hin as [[? _] [? _]]. done.
Qed.

(** ** Joining lines of one length *)

Lemma concat_units {A} (ls : list (list A)) :
  Forall (λ l, length l = 1%nat) ls →
  length (concat ls) = length ls ∧
  ∀ c l, ls !! c = Some l → concat ls !! c = head l.
Proof.
  induction 1 as [|l ls Hl _ [IHlen IH]]; [done|].
  destruct l as [|x [|y l]]; try done. simpl. split; [by rewrite IHlen|].
  intros [|c] l'; simpl; [by intros [= <-]|]. apply IH.
Qed.

Lemma join_lines (sep : N) (lines : list str) (w : nat) :
  Forall (λ l, length l = w) lines →
  length (join [sep] lines) = (length lines * (w + 1) - 1)%nat ∧
  (∀ r l c, lines !! r = Some l → (c < w)%nat →
            join [sep] lines !! (r * (w + 1) + c)%nat = l !! c) ∧
  (∀ r, (S r < length lines)%nat →
        join [sep] lines !! (r * (w + 1) + w)%nat = Some sep).
Proof.
  induction 1 as [|p rest Hp Hrest (IHlen & IHline & IHsep)].
  { split; [done|]. split; [by intros [|r] l c|]. intros r Hr. simpl in Hr. lia. }
  destruct rest as [|q rest].
  { cbn [join length]. split; [lia|]. split.
    - intros [|r] l c; [|done]. intros [= <-] Hc.
      by replace (0 * (w + 1) + c)%nat with c by lia.
    - intros r Hr. simpl in Hr. lia. }
  change (join [sep] (p :: q :: rest)) with (p ++ [sep] ++ join [sep] (q :: rest)).
  split; [|split].
  - rewrite !length_app, IHlen. cbn [length]. lia.
  - intros [|r] l c.
    + intros [= <-] Hc. replace (0 * (w + 1) + c)%nat with c by lia.
      apply lookup_app_l. lia.
    + intros Hl Hc. change ((p :: q :: rest) !! S r) with ((q :: rest) !! r) in Hl.
      rewrite lookup_app_r by lia.
      replace (S r * (w + 1) + c - length p)%nat with (S (r * (w + 1) + c)) by lia.
      cbn [app lookup list_lookup]. by apply IHline.
  - intros [|r] Hr.
    + replace (0 * (w + 1) + w)%nat with w by lia. rewrite lookup_app_r by lia.
      by replace (w - length p)%nat with O by lia.
    + rewrite lookup_app_r by lia.
      replace (S r * (w + 1) + w - length p)%nat with (S (r * (w + 1) + w)) by lia.
      cbn [app lookup list_lookup]. apply IHsep. cbn [length] in *. lia.
Qed.

Lemma cell_symbol_single sy ps start end_ coord v :
  single_chars sy → length (cell_symbol sy ps start end_ coord v) = 1%nat.
Proof.
  intros (? & ? & ? & ? & ?). unfold cell_symbol.
  repeat (case_bool_decide || destruct (_ && _)); done.
Qed.

Lemma grid_to_ascii_lines grid path start end_ sy :
  rectangular grid → single_chars sy →
  Forall (λ l : str, length l = width grid)
    (imap (λ r row,
             concat (imap (λ c cell,
                             cell_symbol sy (path_set path) start end_
                               (Z.of_nat r, Z.of_nat c) cell)
                          row))
          grid).
Proof.
  intros Hrect Hsy. apply Forall_forall. intros l (r & row & -> & Hrow)%elem_of_lookup_imap.
  match goal with |- length (concat ?ls) = _ =>
    destruct (concat_units ls) as [-> _]
  end.
  - apply Forall_forall. intros s (c & v & -> & _)%elem_of_lookup_imap.
    by apply cell_symbol_single.
  - rewrite length_imap. apply Hrect. by eapply list_elem_of_lookup_2.
Qed.

(** ** Grids of a known shape *)

Lemma shape_replicate_rectangular grid n m :
  shape grid = replicate n m → (0 < n)%nat →
  rectangular grid ∧ length grid = n ∧ width grid = m ∧
  ∃ row0, getitem grid 0 = Return row0 ∧ length row0 = m.
Proof.
  intros Hsh Hn.
  assert (length grid = n) as Hlen.
  { unfold shape in Hsh. by rewrite <- (length_fmap length grid), Hsh, length_replicate. }
  destruct grid as [|row0 grid']; [simpl in Hlen; lia|].
  destruct n as [|n']; [lia|].
  unfold shape in Hsh. injection Hsh as Hrow0 Hrest.
  split; [|split; [done|split; [done|]]].
  - intros row [i Hi]%list_elem_of_lookup. unfold width. cbn [hd]. rewrite Hrow0.
    destruct i as [|i]; [by injection Hi as <-|].
    change ((row0 :: grid') !! S i) with (grid' !! i) in Hi.
    assert ((length <$> grid') !! i = Some (length row)) as Hl
      by (by rewrite list_lookup_fmap, Hi).
    assert (length <$> grid' = replicate n' m) as Hrest' by exact Hrest.
    rewrite Hrest' in Hl. by apply lookup_replicate in Hl as [-> _].
  - exists row0. split; [|done]. by apply getitem_nonneg.
Qed.

(** ** Properties of [solver.py] *)

(** [_neighbors] returns exactly the cells that are 4-adjacent to the node,
    inside the rectangle [len(grid)] by [len(grid[0])] and Open: each once,
    in the order right, down, left, up.  It returns for every node, also one
    outside the grid, when the grid is rectangular and has a row. *)
Theorem neighbors_exact grid node :
  (rectangular grid → grid ≠ [] → ∃ l, _neighbors grid node = Return l) ∧
  ∀ l, _neighbors grid node = Return l →
    NoDup l ∧
    l `sublist_of` [(node.1, node.2 + 1); (node.1 + 1, node.2);
                    (node.1, node.2 - 1); (node.1 - 1, node.2)] ∧
    ∀ n, n ∈ l ↔ adjacent node n ∧ in_bounds grid n ∧ open_at grid n.
Proof.
  split; [apply neighbors_total|]. intros l Hl.
  assert (l `sublist_of` ((λ d : Z * Z, (node.1 + d.1, node.2 + d.2)) <$> deltas4))
    as Hsub.
  { unfold _neighbors in Hl.
    destruct (getitem grid 0) as [row0| |]; simpl_bind in Hl; try done.
    by apply neighbors_loop_sublist in Hl as (l' & -> & Hsub). }
  split; [|split].
  - eapply sublist_NoDup; [apply steps_NoDup|exact Hsub].
  - cbn [fmap list_fmap deltas4 fst snd] in Hsub.
    replace (node.1 + 0) with node.1 in Hsub by lia.
    replace (node.2 + 0) with node.2 in Hsub by lia.
    replace (node.2 + -1) with (node.2 - 1) in Hsub by lia.
    replace (node.1 + -1) with (node.1 - 1) in Hsub by lia.
    exact Hsub.
  - intros n. apply neighbors_spec in Hl as [_ Hl]. rewrite Hl.
    rewrite open_at_cell. unfold in_bounds. tauto.
Qed.

Lemma neighbors_exact_witness :
  rectangular ring ∧ ring ≠ [] ∧
  _neighbors ring (1, 2) = Return [(2, 2); (0, 2)] ∧
  NoDup [(2, 2); (0, 2)] ∧
  ∀ n, n ∈ [(2, 2); (0, 2)] ↔
       adjacent (1, 2) n ∧ in_bounds ring n ∧ open_at ring n.
Proof.
  destruct (neighbors_exact ring (1, 2)) as [_ Hspec].
  destruct (Hspec [(2, 2); (0, 2)]) as (Hnd & _ & Hiff); [by vm_compute|].
  split; [exact ring_rectangular|]. split; [done|]. split; [by vm_compute|].
  split; [exact Hnd|exact Hiff].
Defined.

(** The Manhattan distance of [_heuristic] never exceeds the number of steps
    of a path between two cells, whatever the grid, and it changes by
    exactly one between two 4-adjacent cells: the heuristic of [astar] is
    admissible and consistent. *)
Theorem heuristic_admissible (grid : Grid) (s t : Coord) (p : Path) :
  path_between grid s t p →
  _heuristic s t <= Z.of_nat (length p) - 1 ∧
  ∀ a b, adjacent a b → Z.abs (_heuristic a t - _heuristic b t) = 1.
Proof.
  intros (k & Hk & ->)%path_reach. apply reach_heuristic in Hk. split; [lia|].
  intros a b. unfold adjacent, _heuristic. lia.
Qed.

Lemma heuristic_admissible_witness :
  let p := [(0, 0); (0, 1); (0, 2); (1, 2); (2, 2); (2, 1); (2, 0)] in
  path_between bend (0, 0) (2, 0) p ∧
  _heuristic (0, 0) (2, 0) = 2 ∧
  _heuristic (0, 0) (2, 0) <= Z.of_nat (length p) - 1.
Proof.
  intros p.
  assert (path_between bend (0, 0) (2, 0) p) as Hp.
  { apply astar_sound; [done|done|]. vm_compute. reflexivity. }
  destruct (heuristic_admissible bend (0, 0) (2, 0) p Hp) as [Hle _].
  split; [exact Hp|]. split; [reflexivity|exact Hle].
Defined.

(** The path that [astar] returns on a rectangular grid runs from the start
    to the goal through Open cells of the grid, by 4-adjacent steps, and
    visits no cell twice. *)
Theorem astar_path_valid grid start goal p :
  rectangular grid → 0 <= start.1 → 0 <= start.2 →
  astar grid start goal = Return (Some p) →
  path_between grid start goal p ∧ NoDup p ∧ Forall (in_bounds grid) p.
Proof.
  intros Hrect Hr Hc Hrun.
  pose proof (astar_sound _ _ _ _ Hr Hc Hrun) as Hp.
  split; [done|]. split; [by eapply astar_simple|by eapply path_between_in_bounds].
Qed.

Lemma astar_path_valid_witness :
  let p := [(0, 0); (0, 1); (0, 2); (1, 2); (2, 2); (2, 1); (2, 0)] in
  rectangular bend ∧ astar bend (0, 0) (2, 0) = Return (Some p) ∧
  path_between bend (0, 0) (2, 0) p ∧ NoDup p ∧ Forall (in_bounds bend) p.
Proof.
  intros p.
  assert (rectangular bend) as Hrect by (apply rectangular_Forall; by repeat constructor).
  split; [done|]. split; [by vm_compute|].
  apply (astar_path_valid bend (0, 0) (2, 0) p); [done|done|done|by vm_compute].
Defined.

(** The loops of [astar] end on every input, and the only exception it can
    raise is [IndexError]: the dictionary lookups [gscore[current]] and
    [came_from[path[-1]]] never fail.  It raises only when the start or the
    goal is outside the grid or when the rows of the grid differ in
    length. *)
Theorem astar_ends_without_KeyError grid start goal :
  astar grid start goal ≠ OutOfFuel ∧
  ∀ e, astar grid start goal = Raise e →
    e = IndexError ∧
    (cell grid start = Raise IndexError ∨ cell grid goal = Raise IndexError ∨
     ¬ rectangular grid).
Proof. split; [apply astar_terminates|apply astar_raise_cases]. Qed.

(** On a rectangular grid, for a start and a goal inside it, [astar] returns
    [None] exactly when every path through Open cells between the two has
    more than 1,000,000 cells; in particular when there is none. *)
Theorem astar_None_exactly_when_far grid start goal :
  rectangular grid → in_bounds grid start → in_bounds grid goal →
  astar grid start goal = Return None ↔
  ∀ q, path_between grid start goal q → 1000000 < Z.of_nat (length q).
Proof. apply astar_None_iff. Qed.

Lemma astar_None_exactly_when_far_witness :
  rectangular halves ∧ in_bounds halves (0, 0) ∧ in_bounds halves (2, 2) ∧
  (astar halves (0, 0) (2, 2) = Return None ↔
   ∀ q, path_between halves (0, 0) (2, 2) q → 1000000 < Z.of_nat (length q)).
Proof.
  assert (in_bounds halves (0, 0)) as Hs by (unfold in_bounds; cbn; lia).
  assert (in_bounds halves (2, 2)) as Hg by (unfold in_bounds; cbn; lia).
  split; [exact halves_rectangular|]. split; [done|]. split; [done|].
  exact (astar_None_exactly_when_far halves (0, 0) (2, 2) halves_rectangular Hs Hg).
Defined.

Lemma astar_ends_without_KeyError_witness :
  let ragged := [[1; 1; 1]; [0]] in
  astar ragged (0, 0) (0, 2) = Raise IndexError ∧
  astar ragged (0, 0) (0, 2) ≠ OutOfFuel ∧ ¬ rectangular ragged.
Proof.
  intros ragged.
  destruct (astar_ends_without_KeyError ragged (0, 0) (0, 2)) as [Hfuel Hraise].
  assert (astar ragged (0, 0) (0, 2) = Raise IndexError) as Hrun
    by (vm_compute; reflexivity).
  split; [exact Hrun|]. split; [exact Hfuel|].
  destruct (Hraise IndexError Hrun) as [_ [Hc|[Hc|Hc]]];
    [vm_compute in Hc; discriminate Hc|vm_compute in Hc; discriminate Hc|exact Hc].
Defined.

(** On a rectangular grid of fewer than 999,999 cells, for a start and a
    goal inside it, [astar] decides whether the two are connected: it
    returns a path when they are and [None] when they are not. *)
Theorem astar_decides_connectivity grid start goal :
  rectangular grid → Z.of_nat (length grid * width grid) < 999999 →
  in_bounds grid start → in_bounds grid goal →
  (connected grid start goal → ∃ p, astar grid start goal = Return (Some p)) ∧
  (¬ connected grid start goal → astar grid start goal = Return None).
Proof.
  intros Hrect Hsmall Hs Hg.
  destruct (astar_decides grid start goal Hrect) as (r & Hr & Hiff);
    [unfold unreached; lia|done..|].
  split.
  - intros Hconn. apply Hiff in Hconn. destruct r as [p|]; [by exists p|done].
  - intros Hnot. apply astar_None_iff; [done..|]. intros q Hq. destruct Hnot. by exists q.
Qed.

Lemma astar_decides_connectivity_witness :
  rectangular bend ∧ Z.of_nat (length bend * width bend) < 999999 ∧
  in_bounds bend (0, 0) ∧ in_bounds bend (2, 0) ∧
  (connected bend (0, 0) (2, 0) → ∃ p, astar bend (0, 0) (2, 0) = Return (Some p)) ∧
  (¬ connected bend (0, 0) (2, 0) → astar bend (0, 0) (2, 0) = Return None).
Proof.
  assert (rectangular bend) as Hrect by (apply rectangular_Forall; by repeat constructor).
  assert (Z.of_nat (length bend * width bend) < 999999) as Hsmall by (cbn; lia).
  assert (in_bounds bend (0, 0)) as Hs by (unfold in_bounds; cbn; lia).
  assert (in_bounds bend (2, 0)) as Hg by (unfold in_bounds; cbn; lia).
  split; [done|]. split; [done|]. split; [done|]. split; [done|].
  exact (astar_decides_connectivity bend (0, 0) (2, 0) Hrect Hsmall Hs Hg).
Defined.

(** [astar] treats its two endpoints alike: on a rectangular grid, for two
    cells inside it, it finds a path from the first to the second exactly
    when it finds one from the second to the first, and the two paths have
    the same length. *)
Theorem astar_symmetric grid a b :
  rectangular grid → in_bounds grid a → in_bounds grid b →
  (astar grid a b = Return None ↔ astar grid b a = Return None) ∧
  ∀ p q, astar grid a b = Return (Some p) → astar grid b a = Return (Some q) →
         length p = length q.
Proof.
  intros Hrect Ha Hb. split.
  - rewrite !astar_None_iff by done. split; intros Hfar q Hq.
    + apply path_between_reverse in Hq. apply Hfar in Hq.
      by rewrite length_reverse in Hq.
    + apply path_between_reverse in Hq. apply Hfar in Hq.
      by rewrite length_reverse in Hq.
  - intros p q Hp Hq.
    pose proof (astar_sound _ _ _ _ (proj1 (proj1 Ha)) (proj1 (proj2 Ha)) Hp) as Hpp.
    pose proof (astar_sound _ _ _ _ (proj1 (proj1 Hb)) (proj1 (proj2 Hb)) Hq) as Hqq.
    apply path_between_reverse in Hpp, Hqq.
    pose proof (astar_optimal _ _ _ _ _ Hrect (proj1 (proj1 Ha)) (proj1 (proj2 Ha)) Hp Hqq) as H1.
    pose proof (astar_optimal _ _ _ _ _ Hrect (proj1 (proj1 Hb)) (proj1 (proj2 Hb)) Hq Hpp) as H2.
    rewrite length_reverse in H1, H2. lia.
Qed.

Lemma astar_symmetric_witness :
  rectangular bend ∧ in_bounds bend (0, 0) ∧ in_bounds bend (2, 0) ∧
  (astar bend (0, 0) (2, 0) = Return None ↔ astar bend (2, 0) (0, 0) = Return None) ∧
  ∀ p q, astar bend (0, 0) (2, 0) = Return (Some p) →
         astar bend (2, 0) (0, 0) = Return (Some q) → length p = length q.
Proof.
  assert (rectangular bend) as Hrect by (apply rectangular_Forall; by repeat constructor).
  assert (in_bounds bend (0, 0)) as Hs by (unfold in_bounds; cbn; lia).
  assert (in_bounds bend (2, 0)) as Hg by (unfold in_bounds; cbn; lia).
  split; [done|]. split; [done|]. split; [done|].
  exact (astar_symmetric bend (0, 0) (2, 0) Hrect Hs Hg).
Defined.

(** ** Properties of the mutation routines *)






(** With [astar] as the path finder, on a rectangular grid, when
    [make_multiple_solutions] returns [True] the grid it leaves has two
    different paths from the start to the end, neither of which visits a
    cell twice. *)
Theorem make_multiple_solutions_two_paths (R : Random) (grid grid' : Grid)
    (start end_ : Coord) (max_tries : Z) (seed : option Z) (entropy : rng R) :
  rectangular grid → in_bounds grid start →
  make_multiple_solutions R start end_ astar max_tries seed entropy grid
    = (Return true, grid') →
  ∃ p q, p ≠ q ∧
         path_between grid' start end_ p ∧ NoDup p ∧
         path_between grid' start end_ q ∧ NoDup q.
Proof.
  intros Hrect Hstart Hrun.
  destruct (make_multiple_solutions_writes R astar start end_ max_tries seed entropy grid)
    as [_ Htrue].
  rewrite Hrun in Htrue. cbn [fst snd] in Htrue.
  destruct (Htrue eq_refl)
    as (c & l & orig & new & Hl & Hc & Hset & Ho & Hto & Hn & Htn & Hne).
  destruct orig as [orig|]; [|done]. destruct new as [new|]; [|done].
  destruct Hstart as [[Hs1 _] [Hs2 _]].
  pose proof (set_cell_shape _ _ _ _ Hset) as Hsh.
  pose proof (shape_rectangular _ _ Hsh Hrect) as Hrect'.
  exists orig, new. split; [congruence|].
  split; [|split; [|split]].
  - eapply path_between_mono; [|by apply (astar_sound grid start end_)].
    intros q. by apply (set_cell_open_mono grid c).
  - by apply (astar_simple grid start end_).
  - by apply (astar_sound grid' start end_).
  - by apply (astar_simple grid' start end_).
Qed.

Lemma make_multiple_solutions_two_paths_witness :
  let grid' := [[1; 1; 1]; [0; 1; 1]; [1; 1; 1]] in
  rectangular bend ∧ in_bounds bend (0, 0) ∧
  make_multiple_solutions (replay (λ _, [])) (0, 0) (2, 0) astar 200 None [] bend
    = (Return true, grid') ∧
  ∃ p q, p ≠ q ∧
         path_between grid' (0, 0) (2, 0) p ∧ NoDup p ∧
         path_between grid' (0, 0) (2, 0) q ∧ NoDup q.
Proof.
  intros grid'.
  assert (rectangular bend) as Hrect by (apply rectangular_Forall; by repeat constructor).
  assert (in_bounds bend (0, 0)) as Hs by (unfold in_bounds; cbn; lia).
  assert (make_multiple_solutions (replay (λ _, [])) (0, 0) (2, 0) astar 200 None [] bend
            = (Return true, grid')) as Hrun by (by vm_compute).
  split; [done|]. split; [done|]. split; [done|].
  exact (make_multiple_solutions_two_paths (replay (λ _, [])) bend grid' (0, 0) (2, 0)
           200 None [] Hrect Hs Hrun).
Defined.

(** With [astar] as the path finder, on a rectangular grid of fewer than
    999,999 cells and for a start and an end inside it: when the start and
    the end are Open and no path joins them, [make_unsolvable] returns
    [True] and leaves the grid as it was; and whenever it returns [True], no
    path joins the start and the end in the grid it leaves. *)
Theorem make_unsolvable_small_grid (R : Random) (grid : Grid)
    (start end_ : Coord) (seed : option Z) (max_tries : Z) (entropy : rng R) :
  rectangular grid → Z.of_nat (length grid * width grid) < 999999 →
  in_bounds grid start → in_bounds grid end_ →
  (open_at grid start → open_at grid end_ → ¬ connected grid start end_ →
   make_unsolvable R start end_ astar seed max_tries entropy grid
     = (Return true, grid)) ∧
  (∀ grid',
     make_unsolvable R start end_ astar seed max_tries entropy grid
       = (Return true, grid') →
     ¬ connected grid' start end_).
Proof.
  intros Hrect Hsmall Hs He.
  destruct (make_unsolvable_with_oracle R astar grid start end_ seed max_tries entropy)
    as [Hfirst Hsecond].
  split.
  - apply Hfirst. by apply astar_sound_on.
  - apply Hsecond. intros g Hsh. pose proof (shape_size _ _ Hsh) as [Hlen Hwid].
    apply finds_paths_complete, astar_decides.
    + by apply (shape_rectangular grid).
    + rewrite Hlen, Hwid. unfold unreached. lia.
    + by apply (shape_in_bounds grid).
    + by apply (shape_in_bounds grid).
Qed.

Lemma make_unsolvable_small_grid_witness :
  let R := replay (λ _, []) in
  rectangular halves ∧ Z.of_nat (length halves * width halves) < 999999 ∧
  in_bounds halves (0, 0) ∧ in_bounds halves (2, 2) ∧
  make_unsolvable R (0, 0) (2, 2) astar None 100 [] halves = (Return true, halves) ∧
  ¬ connected halves (0, 0) (2, 2).
Proof.
  intros R.
  assert (Z.of_nat (length halves * width halves) < 999999) as Hsmall by (cbn; lia).
  assert (in_bounds halves (0, 0)) as Hs by (unfold in_bounds; cbn; lia).
  assert (in_bounds halves (2, 2)) as He by (unfold in_bounds; cbn; lia).
  assert (make_unsolvable R (0, 0) (2, 2) astar None 100 [] halves = (Return true, halves))
    as Hrun by (vm_compute; reflexivity).
  destruct (make_unsolvable_small_grid R halves (0, 0) (2, 2) None 100 []
              halves_rectangular Hsmall Hs He) as [_ Hsecond].
  split; [exact halves_rectangular|]. split; [exact Hsmall|]. split; [exact Hs|].
  split; [exact He|]. split; [exact Hrun|]. exact (Hsecond halves Hrun).
Defined.

(** ** Properties of [find_valid_cell] *)

(** The cell that [find_valid_cell] returns is inside the grid, Open, and
    not one of the excluded cells. *)
Theorem find_valid_cell_valid (R : Random) (C : Chooser R) (grid : Grid)
    (exclude : option (gset Coord)) (seed : option Z) (entropy : rng R)
    (p : Coord) :
  find_valid_cell C grid exclude seed entropy = Return p →
  in_bounds grid p ∧ open_at grid p ∧ p ∉ default ∅ exclude.
Proof. apply find_valid_cell_sound. Qed.

Lemma find_valid_cell_valid_witness :
  let C := replay_chooser (λ _, [5%nat]) in
  let exclude := Some ({[ (0, 0) ]} : gset Coord) in
  find_valid_cell C ring exclude (Some 7) [] = Return (2, 1) ∧
  in_bounds ring (2, 1) ∧ open_at ring (2, 1) ∧ (2, 1) ∉ default ∅ exclude.
Proof.
  intros C exclude.
  assert (find_valid_cell C ring exclude (Some 7) [] = Return (2, 1)) as Hrun
    by (by vm_compute).
  split; [exact Hrun|].
  exact (find_valid_cell_valid _ C ring exclude (Some 7) [] (2, 1) Hrun).
Defined.

(** On a rectangular grid [find_valid_cell] returns a cell, unless every
    Open cell of the grid is excluded, or there is none: then, and only
    then, it raises [ValueError].  It raises nothing else. *)
Theorem find_valid_cell_rejects (R : Random) (C : Chooser R) (grid : Grid)
    (exclude : option (gset Coord)) (seed : option Z) (entropy : rng R) :
  rectangular grid →
  (find_valid_cell C grid exclude seed entropy = Raise ValueError ↔
   ∀ p, open_at grid p → p ∈ default ∅ exclude) ∧
  ((∃ p, open_at grid p ∧ p ∉ default ∅ exclude) →
   ∃ p, find_valid_cell C grid exclude seed entropy = Return p).
Proof.
  intros Hrect.
  destruct (find_valid_cell_cases C grid exclude seed entropy Hrect)
    as [[p Hp]|[Hraise Hall]].
  - pose proof (find_valid_cell_sound C grid exclude seed entropy p Hp)
      as (_ & Hopen & Hnot).
    split; [|by exists p]. split; [congruence|]. intros Hall. destruct Hnot. by apply Hall.
  - split; [done|]. intros (p & Hopen & Hnot). destruct Hnot. by apply Hall.
Qed.

Lemma find_valid_cell_rejects_witness :
  let C := replay_chooser (λ _, []) in
  let walls := [[0; 0]; [0; 0]] in
  rectangular walls ∧
  find_valid_cell C walls None None [] = Raise ValueError ∧
  (∀ p, open_at walls p → p ∈ default (∅ : gset Coord) None).
Proof.
  intros C walls.
  assert (rectangular walls) as Hrect by (apply rectangular_Forall; by repeat constructor).
  destruct (find_valid_cell_rejects _ C walls None None [] Hrect) as [Hiff _].
  assert (find_valid_cell C walls None None [] = Raise ValueError) as Hrun
    by (vm_compute; reflexivity).
  split; [exact Hrect|]. split; [exact Hrun|]. apply Hiff. exact Hrun.
Defined.

(** ** Properties of [generate_maze] *)

(** For [rows] and [cols] at least 1 and a maze of at most
    [recursion_rooms] rooms, whatever the seed and whatever the shuffles do,
    the recursion of [carve] ends and [generate_maze] returns a grid of
    [2*rows+1] rows of [2*cols+1] cells; with [rows] or [cols] below 1 it
    raises [ValueError]. *)
Theorem generate_maze_total (R : Random) (rows cols : Z) (seed : option Z)
    (entropy : rng R) :
  (rows < 1 ∨ cols < 1 → generate_maze R rows cols seed entropy = Raise ValueError) ∧
  (1 <= rows → 1 <= cols → rows * cols <= recursion_rooms →
   ∃ grid, generate_maze R rows cols seed entropy = Return grid ∧
           shape grid = replicate (Z.to_nat (2 * rows + 1)) (Z.to_nat (2 * cols + 1))).
Proof.
  split.
  - apply generate_maze_rejects.
  - intros Hrows Hcols _. by apply generate_maze_shape.
Qed.

Lemma generate_maze_total_witness :
  generate_maze replay_seed_1 0 3 (Some 1) [] = Raise ValueError ∧
  2 * 3 <= recursion_rooms ∧
  ∃ grid, generate_maze replay_seed_1 2 3 (Some 1) [] = Return grid ∧
          shape grid = replicate (Z.to_nat (2 * 2 + 1)) (Z.to_nat (2 * 3 + 1)).
Proof.
  assert (2 * 3 <= recursion_rooms) as Hrooms by (unfold recursion_rooms; lia).
  split; [|split; [exact Hrooms|]].
  - apply (generate_maze_total replay_seed_1 0 3 (Some 1) []). lia.
  - apply (generate_maze_total replay_seed_1 2 3 (Some 1) []); [lia|lia|exact Hrooms].
Defined.

(** In the grid that [generate_maze] returns every cell holds 0 or 1, the
    cell (1, 1) of room (0, 0) is Open, and every Open cell lies strictly
    inside the border and has an odd coordinate: the border and the cells
    with two even coordinates are walls. *)
Theorem generate_maze_layout (R : Random) (rows cols : Z) (seed : option Z)
    (entropy : rng R) (grid : Grid) :
  generate_maze R rows cols seed entropy = Return grid →
  bits grid ∧ open_at grid (1, 1) ∧
  ∀ p, open_at grid p →
       0 < p.1 < 2 * rows ∧ 0 < p.2 < 2 * cols ∧
       (Z.odd p.1 = true ∨ Z.odd p.2 = true).
Proof.
  intros (Hrows & Hcols & st & -> & Hinv & Hvis)%generate_maze_inv.
  split; [apply (mi_bits _ _ _ _ Hinv)|]. split.
  - apply (mi_rooms _ _ _ _ Hinv (0, 0)); [|done]. unfold room_in. cbn [fst snd]. lia.
  - intros p Hp.
    destruct (mi_open _ _ _ _ Hinv p Hp)
      as [(rc & [Hr Hc] & ->)|(a & d & Hd & [Hr Hc] & [Hr' Hc'] & -> & _)].
    + unfold to_grid. cbn [fst snd]. rewrite odd_double_succ.
      split; [lia|]. split; [lia|by left].
    + unfold wall_between. cbn [fst snd] in *.
      split; [lia|]. split; [lia|].
      each_delta Hd; cbn [fst snd].
      * left. replace (2 * a.1 + 1 + 0) with (2 * a.1 + 1) by lia. apply odd_double_succ.
      * right. replace (2 * a.2 + 1 + 0) with (2 * a.2 + 1) by lia. apply odd_double_succ.
      * left. replace (2 * a.1 + 1 + 0) with (2 * a.1 + 1) by lia. apply odd_double_succ.
      * right. replace (2 * a.2 + 1 + 0) with (2 * a.2 + 1) by lia. apply odd_double_succ.
Qed.

Lemma maze_2_3_seed_1_run :
  generate_maze replay_seed_1 2 3 (Some 1) [] = Return maze_2_3_seed_1.
Proof. by vm_compute. Qed.

Lemma generate_maze_layout_witness :
  generate_maze replay_seed_1 2 3 (Some 1) [] = Return maze_2_3_seed_1 ∧
  bits maze_2_3_seed_1 ∧ open_at maze_2_3_seed_1 (1, 1) ∧
  ∀ p, open_at maze_2_3_seed_1 p →
       0 < p.1 < 2 * 2 ∧ 0 < p.2 < 2 * 3 ∧
       (Z.odd p.1 = true ∨ Z.odd p.2 = true).
Proof.
  pose proof maze_2_3_seed_1_run as Hrun.
  split; [exact Hrun|].
  exact (generate_maze_layout replay_seed_1 2 3 (Some 1) [] maze_2_3_seed_1 Hrun).
Defined.

(** In the grid that [generate_maze] returns, any two Open cells are joined
    by a path through Open cells. *)
Theorem generate_maze_connected (R : Random) (rows cols : Z) (seed : option Z)
    (entropy : rng R) (grid : Grid) (p q : Coord) :
  generate_maze R rows cols seed entropy = Return grid →
  open_at grid p → open_at grid q → connected grid p q.
Proof.
  intros (_ & _ & st & -> & Hinv & _)%generate_maze_inv Hp Hq.
  apply connected_trans with (1, 1).
  - by apply connected_sym, (mi_conn _ _ _ _ Hinv).
  - by apply (mi_conn _ _ _ _ Hinv).
Qed.

Lemma generate_maze_connected_witness :
  generate_maze replay_seed_1 2 3 (Some 1) [] = Return maze_2_3_seed_1 ∧
  open_at maze_2_3_seed_1 (3, 5) ∧ open_at maze_2_3_seed_1 (1, 2) ∧
  connected maze_2_3_seed_1 (3, 5) (1, 2).
Proof.
  assert (open_at maze_2_3_seed_1 (3, 5)) as Hp by (apply open_at_cell; by vm_compute).
  assert (open_at maze_2_3_seed_1 (1, 2)) as Hq by (apply open_at_cell; by vm_compute).
  pose proof maze_2_3_seed_1_run as Hrun.
  split; [exact Hrun|]. split; [exact Hp|]. split; [exact Hq|].
  exact (generate_maze_connected replay_seed_1 2 3 (Some 1) [] maze_2_3_seed_1
           (3, 5) (1, 2) Hrun Hp Hq).
Defined.

(** The cells that [generate_maze] opens form a tree: every opened wall
    lies between two Open room cells, and there is one opened wall fewer
    than there are Open room cells. *)
Theorem generate_maze_tree (R : Random) (rows cols : Z) (seed : option Z)
    (entropy : rng R) (grid : Grid) :
  generate_maze R rows cols seed entropy = Return grid →
  (opened_walls grid + 1)%nat = open_rooms grid ∧
  ∀ p, open_at grid p → is_room p = false →
       ∃ a b, a ≠ b ∧ open_at grid (to_grid a) ∧ open_at grid (to_grid b) ∧
              adjacent (to_grid a) p ∧ adjacent p (to_grid b).
Proof.
  intros (_ & _ & st & -> & Hinv & _)%generate_maze_inv. split.
  - pose proof (mi_count_rooms _ _ _ _ Hinv) as Hrooms.
    pose proof (mi_count_walls _ _ _ _ Hinv) as Hwalls.
    revert Hrooms Hwalls. generalize (unvisited (cs_visited st)). lia.
  - intros p Hp Hwall.
    destruct (mi_open _ _ _ _ Hinv p Hp)
      as [(rc & _ & ->)|(a & d & Hd & Ha & Hb & -> & Hva & [Hvb|?])]; [| |done].
    + by rewrite is_room_to_grid in Hwall.
    + exists a, (a.1 + d.1, a.2 + d.2).
      split. { destruct a. each_delta Hd; cbn [fst snd]; intros [= ? ?]; lia. }
      split; [by apply (mi_rooms _ _ _ _ Hinv a)|].
      split; [by apply (mi_rooms _ _ _ _ Hinv (a.1 + d.1, a.2 + d.2))|].
      by apply wall_adjacent.
Qed.

Lemma generate_maze_tree_witness :
  generate_maze replay_seed_1 2 3 (Some 1) [] = Return maze_2_3_seed_1 ∧
  (opened_walls maze_2_3_seed_1 + 1)%nat = open_rooms maze_2_3_seed_1 ∧
  ∀ p, open_at maze_2_3_seed_1 p → is_room p = false →
       ∃ a b, a ≠ b ∧ open_at maze_2_3_seed_1 (to_grid a) ∧
              open_at maze_2_3_seed_1 (to_grid b) ∧
              adjacent (to_grid a) p ∧ adjacent p (to_grid b).
Proof.
  pose proof maze_2_3_seed_1_run as Hrun.
  split; [exact Hrun|].
  exact (generate_maze_tree replay_seed_1 2 3 (Some 1) [] maze_2_3_seed_1 Hrun).
Defined.

(** ** Properties of [render.py] *)

(** With single-character symbols, the picture of a rectangular grid of
    width [w] has [len(grid) * (w + 1) - 1] characters: the character of
    cell [(r, c)] is at offset [r * (w + 1) + c], it is the symbol that the
    [if]/[elif] chain selects for the cell, and every row but the last is
    followed by a newline. *)
Theorem grid_to_ascii_layout (grid : Grid) (path : option Path)
    (start end_ : option Coord) (sy : symbols) (r c : nat) (row : list Z) (v : Z) :
  rectangular grid → single_chars sy →
  grid !! r = Some row → row !! c = Some v →
  let w := width grid in
  let out := grid_to_ascii grid path start end_ sy in
  length out = (length grid * (w + 1) - 1)%nat ∧
  out !! (r * (w + 1) + c)%nat
    = head (cell_symbol sy (path_set path) start end_ (Z.of_nat r, Z.of_nat c) v) ∧
  ((S r < length grid)%nat → out !! (r * (w + 1) + w)%nat = Some 10%N).
Proof.
  intros Hrect Hsy Hrow Hv w out. subst out. unfold grid_to_ascii, newline.
  pose proof (grid_to_ascii_lines grid path start end_ sy Hrect Hsy) as Hlines.
  destruct (join_lines 10%N _ w Hlines) as (Hlen & Hline & Hsep).
  rewrite length_imap in Hlen, Hsep.
  split; [exact Hlen|]. split; [|exact (Hsep r)].
  assert (length row = w) as Hw by (apply Hrect; by eapply list_elem_of_lookup_2).
  rewrite (Hline r (concat (imap (λ c cell,
                                   cell_symbol sy (path_set path) start end_
                                     (Z.of_nat r, Z.of_nat c) cell) row)) c);
    [|by rewrite list_lookup_imap, Hrow|apply lookup_lt_Some in Hv; lia].
  match goal with |- concat ?ls !! c = _ =>
    destruct (concat_units ls) as [_ Hunit]
  end.
  { apply Forall_forall. intros s (c' & v' & -> & _)%elem_of_lookup_imap.
    by apply cell_symbol_single. }
  apply Hunit. by rewrite list_lookup_imap, Hv.
Qed.

Lemma grid_to_ascii_layout_witness :
  let path := Some [(0, 0); (0, 1); (0, 2); (1, 2); (2, 2); (2, 1); (2, 0)] in
  let out := grid_to_ascii bend path (Some (0, 0)) (Some (2, 0)) default_symbols in
  rectangular bend ∧ single_chars default_symbols ∧
  out = [83; 42; 42; 10; 9608; 9608; 42; 10; 69; 42; 42]%N ∧
  length out = 11%nat ∧ out !! 6%nat = Some 42%N ∧ out !! 7%nat = Some 10%N.
Proof.
  intros path out.
  assert (rectangular bend) as Hrect by (apply rectangular_Forall; by repeat constructor).
  assert (single_chars default_symbols) as Hsy by (by repeat split).
  destruct (grid_to_ascii_layout bend path (Some (0, 0)) (Some (2, 0)) default_symbols
              1 2 [0; 0; 1] 1 Hrect Hsy eq_refl eq_refl) as (Hlen & Hchar & Hsep).
  split; [exact Hrect|]. split; [exact Hsy|]. split; [by vm_compute|].
  split; [exact Hlen|]. split; [exact Hchar|]. apply Hsep. simpl. lia.
Defined.

(** With a cell size of at least 1, the box of a cell of the grid lies
    inside the image, off its one-pixel border, it is [cell_size] pixels
    wide and high, and no pixel is in the boxes of two cells. *)
Theorem cell_bbox_layout (rows cols cell_size r c x y : Z) :
  1 <= cell_size → 0 <= r < rows → 0 <= c < cols →
  in_bbox (cell_bbox cell_size r c) x y →
  0 < x < (image_size rows cols cell_size).1 - 1 ∧
  0 < y < (image_size rows cols cell_size).2 - 1 ∧
  (∃ i j, 0 <= i < cell_size ∧ 0 <= j < cell_size ∧
          x = c * (cell_size + 1) + 1 + i ∧ y = r * (cell_size + 1) + 1 + j) ∧
  ∀ r' c', in_bbox (cell_bbox cell_size r' c') x y → r' = r ∧ c' = c.
Proof.
  unfold in_bbox, cell_bbox, image_size. cbn [fst snd].
  intros Hs Hr Hc [Hx Hy]. split; [nia|]. split; [nia|]. split.
  - exists (x - (c * cell_size + (c + 1))), (y - (r * cell_size + (r + 1))). lia.
  - intros r' c' [Hx' Hy']. split.
    + destruct (Z.lt_trichotomy r' r) as [?|[?|?]]; [nia|done|nia].
    + destruct (Z.lt_trichotomy c' c) as [?|[?|?]]; [nia|done|nia].
Qed.

Lemma cell_bbox_layout_witness :
  cell_bbox 16 2 3 = (52, 35, 67, 50) ∧ image_size 25 41 16 = (698, 426) ∧
  in_bbox (cell_bbox 16 2 3) 60 40 ∧
  0 < 60 < 698 - 1 ∧ 0 < 40 < 426 - 1 ∧
  ∀ r' c', in_bbox (cell_bbox 16 r' c') 60 40 → r' = 2 ∧ c' = 3.
Proof.
  assert (in_bbox (cell_bbox 16 2 3) 60 40) as Hin by (vm_compute; intuition discriminate).
  destruct (cell_bbox_layout 25 41 16 2 3 60 40) as (Hx & Hy & _ & Huniq);
    [lia|lia|lia|exact Hin|].
  split; [reflexivity|]. split; [reflexivity|]. split; [exact Hin|].
  split; [exact Hx|]. split; [exact Hy|exact Huniq].
Defined.

(** ** Properties of [main] *)

(** For [rows] and [cols] at least 1 and a maze of at most
    [recursion_rooms] rooms, the search of [main] raises nothing.  Its start is the cell of room
    (0, 0), which is Open, its end is the cell of room (rows-1, cols-1), and
    it finds a path, a shortest one, exactly when [generate_maze] has opened
    that room. *)
Theorem main_search_finds_path (R : Random) (rows cols : Z) (seed : option Z)
    (entropy : rng R) :
  1 <= rows → 1 <= cols → rows * cols <= recursion_rooms →
  ∃ grid path,
    main_search R rows cols seed entropy
      = Return (grid, (1, 1), to_grid (rows - 1, cols - 1), path) ∧
    open_at grid (1, 1) ∧
    match path with
    | Some p =>
        open_at grid (to_grid (rows - 1, cols - 1)) ∧
        path_between grid (1, 1) (to_grid (rows - 1, cols - 1)) p ∧
        graph_distance grid (1, 1) (to_grid (rows - 1, cols - 1)) (length p - 1)
    | None => ¬ open_at grid (to_grid (rows - 1, cols - 1))
    end.
Proof.
  intros Hrows Hcols Hrooms. unfold main_search.
  assert ((2 * rows + 1) * (2 * cols + 1) < 999999) as Hsmall.
  { unfold recursion_rooms in Hrooms. nia. }
  destruct (generate_maze_shape R rows cols seed entropy Hrows Hcols) as (grid & Hrun & Hsh).
  pose proof (generate_maze_inv R rows cols seed entropy grid Hrun)
    as (_ & _ & st & Hgrid & Hinv & Hvis).
  rewrite Hrun. simpl_bind.
  destruct (shape_replicate_rectangular grid _ _ Hsh) as (Hrect & Hlen & Hwid & row0 & -> & Hrow0);
    [lia|].
  simpl_bind. rewrite Hlen, Hrow0.
  assert ((Z.of_nat (Z.to_nat (2 * rows + 1)) - 2, Z.of_nat (Z.to_nat (2 * cols + 1)) - 2)
          = to_grid (rows - 1, cols - 1)) as ->.
  { unfold to_grid. cbn [fst snd]. f_equal; lia. }
  assert (in_bounds grid (1, 1)) as Hs.
  { unfold in_bounds. rewrite Hlen, Hwid. cbn [fst snd]. lia. }
  assert (in_bounds grid (to_grid (rows - 1, cols - 1))) as He.
  { unfold in_bounds, to_grid. rewrite Hlen, Hwid. cbn [fst snd]. lia. }
  assert (open_at grid (1, 1)) as Hopen.
  { subst grid. apply (mi_rooms _ _ _ _ Hinv (0, 0)); [|done].
    unfold room_in. cbn [fst snd]. lia. }
  destruct (astar_decides grid (1, 1) (to_grid (rows - 1, cols - 1)) Hrect)
    as (r & Hr & Hiff); [|done|done|].
  { rewrite Hlen, Hwid, Nat2Z.inj_mul, !Z2Nat.id by lia. unfold unreached. lia. }
  rewrite Hr. simpl_bind. exists grid, r. split; [done|]. split; [done|].
  destruct r as [p|].
  - pose proof (astar_sound _ _ _ _ (proj1 (proj1 Hs)) (proj1 (proj2 Hs)) Hr) as Hp.
    pose proof (path_between_open _ _ _ _ Hp) as (_ & Hoe & Hne).
    split; [done|]. split; [done|].
    assert (S (length p - 1) = length p) as Hl by (destruct p; [done|simpl; lia]).
    split.
    + exists p. by rewrite Hl.
    + intros q Hq. rewrite Hl.
      exact (astar_optimal _ _ _ _ _ Hrect (proj1 (proj1 Hs)) (proj1 (proj2 Hs)) Hr Hq).
  - intros Hoe. assert (connected grid (1, 1) (to_grid (rows - 1, cols - 1))) as Hconn.
    { subst grid. by apply (mi_conn _ _ _ _ Hinv). }
    apply Hiff in Hconn. done.
Qed.

Lemma main_search_finds_path_witness :
  let p := [(1, 1); (1, 2); (1, 3); (2, 3); (3, 3); (3, 4); (3, 5)] in
  1 <= 2 ∧ 1 <= 3 ∧ 2 * 3 <= recursion_rooms ∧
  main_search replay_seed_1 2 3 (Some 1) []
    = Return (maze_2_3_seed_1, (1, 1), (3, 5), Some p) ∧
  path_between maze_2_3_seed_1 (1, 1) (3, 5) p ∧
  graph_distance maze_2_3_seed_1 (1, 1) (3, 5) 6.
Proof.
  intros p.
  assert (2 * 3 <= recursion_rooms) as Hrooms by (unfold recursion_rooms; lia).
  destruct (main_search_finds_path replay_seed_1 2 3 (Some 1) [])
    as (grid & path & Hrun & _ & Hpath); [lia|lia|exact Hrooms|].
  assert (main_search replay_seed_1 2 3 (Some 1) []
            = Return (maze_2_3_seed_1, (1, 1), (3, 5), Some p)) as Hrun'
    by (vm_compute; reflexivity).
  rewrite Hrun' in Hrun. injection Hrun as Hg Hp'. subst grid path.
  destruct Hpath as (_ & Hp & Hdist).
  split; [lia|]. split; [lia|]. split; [exact Hrooms|]. split; [exact Hrun'|].
  split; [exact Hp|exact Hdist].
Defined.
